(** * Slash products of st-graphs

    A shallow embedding of the functions of
    [ST_Graph_Generator_Notebook.ipynb]: [create_graph], the two
    vertex-count formulas [comp_slash_power_verts] and
    [comp_slash_verts], the construction [slash_H_into_G], its iteration
    [slash_power], and [copy_pastable_node_positions], together with the
    parts of Python, numpy and networkx that they call.  [draw_graph]
    opens a window and is left out.

    Python exceptions are modelled by an error monad, numpy arrays by
    row-major lists of rows, networkx graphs by their insertion-ordered
    adjacency dictionaries, and Python floats by the binary64 instance of
    the standard library's [SpecFloat]. *)

From Stdlib Require Import ZArith QArith Qpower Lia SpecFloat.
From stdpp Require Import base numbers list.

Open Scope Z_scope.

(** ** Python exceptions *)

Inductive exn : Set :=
| ZeroDivisionError
| OverflowError
| ValueError
| IndexError
| NetworkXError.

Inductive result (A : Type) : Type :=
| Ok (a : A)
| Raise (e : exn).
Arguments Ok {A} a.
Arguments Raise {A} e.

Definition rbind {A B} (m : result A) (k : A -> result B) : result B :=
  match m with
  | Ok a => k a
  | Raise e => Raise e
  end.

Instance result_ret : MRet result := fun A a => Ok a.
Instance result_bind : MBind result := fun A B k m => rbind m k.

(** A Python [for] loop whose body may raise: the loop stops at the first
    exception. *)
Fixpoint for_each {A S} (body : S -> A -> result S) (xs : list A) (s : S)
  : result S :=
  match xs with
  | [] => Ok s
  | x :: xs' => s' ← body s x; for_each body xs' s'
  end.

Definition raises {A} (m : result A) : Prop := exists e, m = Raise e.

(** [range(a, b)] *)
Definition py_range (a b : Z) : list Z :=
  map (fun i : nat => a + Z.of_nat i) (seq 0 (Z.to_nat (b - a))).

(** ** Python numbers

    A Python [int] is unbounded; a Python [float] is an IEEE 754 binary64
    number, here a [spec_float] with 53 bits of precision.  The
    arithmetic of [comp_slash_power_verts] mixes the two: [**] of two
    ints is an int unless the exponent is negative, [/] always gives a
    float, and an int meeting a float is converted first. *)

Definition prec : Z := 53.
Definition emax : Z := 1024.

Inductive pynum : Type :=
| PyInt (z : Z)
| PyFloat (f : spec_float).

(** [float(z)]: rounded to nearest, ties to even; too large is an
    [OverflowError]. *)
Definition float_of_int (z : Z) : result spec_float :=
  match binary_normalize prec emax z 0 false with
  | S754_infinity _ => Raise OverflowError
  | f => Ok f
  end.

Definition to_float (x : pynum) : result spec_float :=
  match x with
  | PyInt z => float_of_int z
  | PyFloat f => Ok f
  end.

Definition is_zero (f : spec_float) : bool :=
  match f with S754_zero _ => true | _ => false end.

(** An integer as an unrounded mantissa with exponent 0. *)
Definition int_mantissa (z : Z) : spec_float :=
  match z with
  | Z0 => S754_zero false
  | Zpos p => S754_finite false p 0
  | Zneg p => S754_finite true p 0
  end.

(** [a / b] on ints: the exact quotient of the two integers, rounded once
    to the nearest float (ties to even); [SFdiv]'s division takes
    mantissas of any size.  A zero divisor is a [ZeroDivisionError], a
    quotient beyond the largest float an [OverflowError]. *)
Definition int_true_divide (a b : Z) : result pynum :=
  if b =? 0 then Raise ZeroDivisionError
  else if a =? 0 then Ok (PyFloat (S754_zero (b <? 0)))
  else match SFdiv prec emax (int_mantissa a) (int_mantissa b) with
       | S754_infinity _ => Raise OverflowError
       | f => Ok (PyFloat f)
       end.

(** [int(f)]: truncation towards zero. *)
Definition int_of_float (f : spec_float) : result Z :=
  match f with
  | S754_zero _ => Ok 0
  | S754_infinity _ => Raise OverflowError
  | S754_nan => Raise ValueError
  | S754_finite s m e =>
      Ok (cond_Zopp s (if 0 <=? e then Z.shiftl (Zpos m) e
                       else Z.shiftr (Zpos m) (- e)))
  end.

Definition float_arith (op : spec_float -> spec_float -> spec_float)
    (x y : pynum) : result pynum :=
  fx ← to_float x; fy ← to_float y; Ok (PyFloat (op fx fy)).

Definition py_add (x y : pynum) : result pynum :=
  match x, y with
  | PyInt a, PyInt b => Ok (PyInt (a + b))
  | _, _ => float_arith (SFadd prec emax) x y
  end.

Definition py_sub (x y : pynum) : result pynum :=
  match x, y with
  | PyInt a, PyInt b => Ok (PyInt (a - b))
  | _, _ => float_arith (SFsub prec emax) x y
  end.

Definition py_mul (x y : pynum) : result pynum :=
  match x, y with
  | PyInt a, PyInt b => Ok (PyInt (a * b))
  | _, _ => float_arith (SFmul prec emax) x y
  end.

Definition py_truediv (x y : pynum) : result pynum :=
  match x, y with
  | PyInt a, PyInt b => int_true_divide a b
  | _, _ =>
      fx ← to_float x; fy ← to_float y;
      if is_zero fy then Raise ZeroDivisionError
      else Ok (PyFloat (SFdiv prec emax fx fy))
  end.

(** [a ** b] on ints with [b < 0]: both are converted to floats and the
    power is the float power, a [ZeroDivisionError] for base zero.  The C
    library's [pow] is taken to round correctly: the result is the
    rounded quotient of 1 by the integer power of the converted base. *)
Definition float_pow_neg (a b : Z) : result pynum :=
  fa ← float_of_int a;
  fb ← float_of_int b;
  za ← int_of_float fa;
  zb ← int_of_float fb;
  if za =? 0 then Raise ZeroDivisionError
  else Ok (PyFloat (SFdiv prec emax (int_mantissa 1)
                          (int_mantissa (za ^ (- zb))))).

Definition int_pow (a b : Z) : result pynum :=
  if b <? 0 then float_pow_neg a b else Ok (PyInt (a ^ b)).

Definition py_int (x : pynum) : result Z :=
  match x with
  | PyInt z => Ok z
  | PyFloat f => int_of_float f
  end.

(** ** numpy arrays

    A two-dimensional array is the list of its rows.  The entries of the
    arrays of this program are only copied and compared with zero, never
    computed with; they are integers here. *)

Abbreviation ndarray := (list (list Z)).

Definition entry (A : ndarray) (i j : nat) : Z :=
  default 0 (A !! i ≫= fun row => row !! j).

Definition ncols (A : ndarray) : nat := length (default [] (head A)).

(** [np.zeros([n, n])]: a negative dimension is a [ValueError]. *)
Definition np_zeros (n : Z) : result ndarray :=
  if n <? 0 then Raise ValueError
  else Ok (replicate (Z.to_nat n) (replicate (Z.to_nat n) 0)).

(** An index into an axis of length [n]: negative indices count from the
    end, anything outside [-n, n) is an [IndexError]. *)
Definition norm_index (n : nat) (i : Z) : result nat :=
  if (0 <=? i) && (i <? Z.of_nat n) then Ok (Z.to_nat i)
  else if (- Z.of_nat n <=? i) && (i <? 0) then Ok (Z.to_nat (i + Z.of_nat n))
  else Raise IndexError.

Fixpoint norm_indices (n : nat) (idx : list Z) : result (list nat) :=
  match idx with
  | [] => Ok []
  | i :: idx' =>
      i' ← norm_index n i;
      rest ← norm_indices n idx';
      Ok (i' :: rest)
  end.

(** Broadcasting of the assigned value to the shape of the indexed block:
    each dimension of the value must equal the target's or be 1. *)
Definition broadcast_to (B : ndarray) (nr nc : nat) : result ndarray :=
  let br := length B in
  let bc := ncols B in
  if (bool_decide (br = nr) || bool_decide (br = 1%nat))
     && (bool_decide (bc = nc) || bool_decide (bc = 1%nat))
  then Ok (map (fun i : nat =>
              map (fun j : nat =>
                     entry B (if bool_decide (br = 1%nat) then 0%nat else i)
                             (if bool_decide (bc = 1%nat) then 0%nat else j))
                  (seq 0 nc))
             (seq 0 nr))
  else Raise ValueError.

(** [A[r, c] = x] for in-range [r], [c]. *)
Definition set_entry (A : ndarray) (r c : nat) (x : Z) : ndarray :=
  alter (fun row => <[c := x]> row) r A.

Definition write_row (cols : list nat) (A : ndarray) (rv : nat * list Z)
  : ndarray :=
  foldl (fun A' cx => set_entry A' (fst rv) (fst cx) (snd cx))
        A (zip cols (snd rv)).

(** [A[np.ix_(rows, cols)] = B]: the value is broadcast, the indices are
    checked, and the entries are stored row by row (so that with a
    repeated index the last store wins). *)
Definition ix_assign (A : ndarray) (rows cols : list Z) (B : ndarray)
  : result ndarray :=
  B' ← broadcast_to B (length rows) (length cols);
  rs ← norm_indices (length A) rows;
  cs ← norm_indices (ncols A) cols;
  Ok (foldl (write_row cs) A (zip rs B')).

(** ** networkx graphs

    [Graph._adj] is a dictionary from nodes to dictionaries from
    neighbours to edge data, both in insertion order.  The graphs of this
    program are all made by [from_numpy_array], which first adds the
    nodes [0 .. n-1] in order: the outer dictionary is the list of the
    inner ones, node [i] at position [i]; the only edge datum is the
    weight. *)

Abbreviation adjdict := (list (nat * Z)).

Record Graph : Type := mkGraph { adj : list adjdict }.

Fixpoint dict_get (k : nat) (d : adjdict) : option Z :=
  match d with
  | [] => None
  | (k', w) :: d' => if bool_decide (k = k') then Some w else dict_get k d'
  end.

(** [d[k] = w]: an existing key keeps its place, a new one goes last. *)
Fixpoint dict_set (k : nat) (w : Z) (d : adjdict) : adjdict :=
  match d with
  | [] => [(k, w)]
  | (k', w') :: d' =>
      if bool_decide (k = k') then (k, w) :: d' else (k', w') :: dict_set k w d'
  end.

Definition keys (d : adjdict) : list nat := map fst d.

(** [Graph.add_edge(u, v, weight=w)] for nodes already present. *)
Definition add_edge (a : list adjdict) (e : nat * nat * Z) : list adjdict :=
  let '(u, v, w) := e in
  alter (dict_set u w) v (alter (dict_set v w) u a).

(** [A.nonzero()], zipped: the positions of the nonzero entries, row
    by row. *)
Definition nonzero (A : ndarray) : list (nat * nat) :=
  flat_map (fun u : nat =>
              map (fun v : nat => (u, v))
                  (filter (fun v : nat => entry A u v ≠ 0) (seq 0 (ncols A))))
           (seq 0 (length A)).

Definition is_square (A : ndarray) : bool :=
  forallb (fun row : list Z => bool_decide (length row = length A)) A.

(** [nx.from_numpy_array(A)] *)
Definition from_numpy_array (A : ndarray) : result Graph :=
  if is_square A then
    Ok (mkGraph (foldl add_edge (replicate (length A) [])
                   (map (fun uv : nat * nat =>
                           (uv.1, uv.2, entry A uv.1 uv.2)) (nonzero A))))
  else Raise NetworkXError.

Definition number_of_nodes (G : Graph) : nat := length (adj G).

(** [G.edges]: every node in order, every neighbour in order that is not
    a node already visited. *)
Fixpoint edges_from (seen : list nat) (n : nat) (a : list adjdict)
  : list (nat * nat) :=
  match a with
  | [] => []
  | nbrs :: a' =>
      map (fun nbr : nat => (n, nbr))
          (filter (fun nbr : nat => nbr ∉ seen) (keys nbrs))
      ++ edges_from (n :: seen) (S n) a'
  end.

Definition edges (G : Graph) : list (nat * nat) := edges_from [] 0 (adj G).

(** [nx.to_numpy_array(G)]: the weight of an edge, 0 where there is
    none. *)
Definition to_numpy_array (G : Graph) : ndarray :=
  map (fun nbrs : adjdict =>
         map (fun j : nat => default 0 (dict_get j nbrs))
             (seq 0 (number_of_nodes G)))
      (adj G).

(** ** The notebook's functions *)

Definition create_graph (adj_matr : ndarray) : result Graph :=
  from_numpy_array adj_matr.

(** [int(2 + (initial_vertices - 2) * (initial_edges**iteration_number - 1)
         / (initial_edges - 1))], the operands evaluated left to right. *)
Definition comp_slash_power_verts
    (initial_vertices initial_edges iteration_number : Z) : result Z :=
  v2 ← py_sub (PyInt initial_vertices) (PyInt 2);
  p ← int_pow initial_edges iteration_number;
  p1 ← py_sub p (PyInt 1);
  num ← py_mul v2 p1;
  den ← py_sub (PyInt initial_edges) (PyInt 1);
  q ← py_truediv num den;
  s ← py_add (PyInt 2) q;
  py_int s.

Definition comp_slash_verts (G_verts G_edges H_verts H_edges : Z) : Z :=
  G_verts + G_edges * (H_verts - 2).

(** The first half of the body of the loop over the edges of [G]: the
    block of indices of one edge and the next [start_index]. *)
Definition edge_block (H_verts start_index : Z) (edge : nat * nat)
  : list Z * Z :=
  let edge := if bool_decide (edge.2 < edge.1)%nat then (edge.2, edge.1) else edge in
  let block_indices := [Z.of_nat edge.1] in
  let '(block_indices, start_index) :=
    foldl (fun bs i => (bs.1 ++ [i], bs.2 + 1))
          (block_indices, start_index)
          (py_range start_index (start_index + H_verts)) in
  (block_indices ++ [Z.of_nat edge.2], start_index).

(** The body of the loop; the loop state is the new adjacency matrix and
    [start_index]. *)
Definition slash_edge (H_adj_matr : ndarray) (H_verts : Z)
    (st : ndarray * Z) (edge : nat * nat) : result (ndarray * Z) :=
  let '(block_indices, start_index) := edge_block H_verts st.2 edge in
  A' ← ix_assign st.1 block_indices block_indices H_adj_matr;
  Ok (A', start_index).

(** The blocks of indices that the loop assigns, edge after edge. *)
Fixpoint edge_blocks (H_verts start_index : Z) (es : list (nat * nat))
  : list (list Z) :=
  match es with
  | [] => []
  | e :: es' =>
      (edge_block H_verts start_index e).1
      :: edge_blocks H_verts (edge_block H_verts start_index e).2 es'
  end.

Definition slash_H_into_G (G H : Graph) : result Graph :=
  let G_edges := edges G in
  let G_verts := Z.of_nat (number_of_nodes G) in
  let H_adj_matr := to_numpy_array H in
  let H_verts := Z.of_nat (number_of_nodes H) - 2 in
  let num_verts :=
    comp_slash_verts G_verts (Z.of_nat (length G_edges)) (H_verts + 2)
                     (Z.of_nat (length (edges H))) in
  A ← np_zeros num_verts;
  let start_index := Z.of_nat (number_of_nodes G) in
  st ← for_each (slash_edge H_adj_matr H_verts) G_edges (A, start_index);
  from_numpy_array st.1.

Definition slash_power (G : Graph) (n : Z) : result Graph :=
  for_each (fun G_i _ => slash_H_into_G G_i G) (py_range 1 n) G.

Definition D1_matrix : ndarray :=
  [[0; 1; 1; 0];
   [1; 0; 0; 1];
   [1; 0; 0; 1];
   [0; 1; 1; 0]].

(** The graph that a call returned (the empty graph if it raised). *)
Definition graph_of (m : result Graph) : Graph :=
  match m with Ok G => G | Raise _ => mkGraph [] end.

Definition D1 : Graph := graph_of (create_graph D1_matrix).

(** ** Node positions

    [plot_instance.node_positions] is a dictionary from nodes to
    positions.  netgraph keeps a position as a numpy array of
    coordinates; [list(p)] is the Python list of the same coordinates,
    which are only moved, never computed with.  The dictionary is an
    object on the heap: [copy_pastable_node_positions] receives a
    reference to it, stores into it and returns the same reference. *)

Inductive position : Type :=
| NdArray (xs : list spec_float)
| PyList (xs : list spec_float).

Definition coordinates (p : position) : list spec_float :=
  match p with NdArray xs | PyList xs => xs end.

(** [list(p)] *)
Definition py_list (p : position) : position := PyList (coordinates p).

Abbreviation posdict := (list (nat * position)).

Fixpoint pos_get (k : nat) (d : posdict) : option position :=
  match d with
  | [] => None
  | (k', p) :: d' => if bool_decide (k = k') then Some p else pos_get k d'
  end.

(** [d[k] = p]: an existing key keeps its place, a new one goes last. *)
Fixpoint pos_set (k : nat) (p : position) (d : posdict) : posdict :=
  match d with
  | [] => [(k, p)]
  | (k', p') :: d' =>
      if bool_decide (k = k') then (k, p) :: d' else (k', p') :: pos_set k p d'
  end.

Definition pos_keys (d : posdict) : list nat := d.*1.

(** The heap of position dictionaries; a reference is an index into
    it. *)
Abbreviation heap := (list posdict).

(** The body of the loop,
    [node_positions[node] = list(node_positions[node])], on the
    dictionary that [node_positions] refers to.  [node] is one of its
    keys, so the lookup finds it. *)
Definition store_list (node_positions : nat) (h : heap) (node : nat) : heap :=
  match h !! node_positions ≫= pos_get node with
  | Some p => alter (pos_set node (py_list p)) node_positions h
  | None => h
  end.

(** The loop runs over the keys of the dictionary that it stores into; a
    store to an existing key changes neither the keys nor their order, so
    these are the keys at the start.  The result is the heap after the
    loop and the reference returned, which is the one received. *)
Definition copy_pastable_node_positions (node_positions : nat) (h : heap)
  : heap * nat :=
  (foldl (store_list node_positions) h
         (pos_keys (default [] (h !! node_positions))),
   node_positions).

(** * Vocabulary of the statements and proofs *)

(** [A] is an [N] by [N] array. *)
Definition shape (N : nat) (A : ndarray) : Prop :=
  length A = N ∧ Forall (fun row : list Z => length row = N) A.

(** 1 for a nonzero entry, 0 for a zero. *)
Definition nzb (x : Z) : nat := if bool_decide (x ≠ 0) then 1%nat else 0%nat.

Definition count_nz (row : list Z) : nat :=
  length (filter (fun x : Z => x ≠ 0) row).

(** The number of nonzero entries of an array. *)
Definition nnz (A : ndarray) : nat := sum_list (count_nz <$> A).

(** Single stores [(row, column, value)], done in order. *)
Definition apply_writes (W : list (nat * nat * Z)) (A : ndarray) : ndarray :=
  foldl (fun A' w => set_entry A' w.1.1 w.1.2 w.2) A W.

(** The stores of [write_row] and of the whole block assignment. *)
Definition row_writes (cs : list nat) (rv : nat * list Z)
  : list (nat * nat * Z) :=
  (fun cx : nat * Z => (rv.1, cx.1, cx.2)) <$> zip cs rv.2.

Definition writes (rs cs : list nat) (B : ndarray) : list (nat * nat * Z) :=
  zip rs B ≫= row_writes cs.

Definition symmetric (M : ndarray) : Prop := ∀ i j, entry M i j = entry M j i.

Definition zero_diag (M : ndarray) : Prop := ∀ i, entry M i i = 0.

(** [a[u][v]], the weight of the edge between [u] and [v] if there is
    one. *)
Definition adj_get (a : list adjdict) (u v : nat) : option Z :=
  a !! u ≫= dict_get v.

(** Every inner dictionary has each key once. *)
Definition rows_nodup (a : list adjdict) : Prop :=
  Forall (fun d : adjdict => NoDup (keys d)) a.

(** The edges [P] with the weights [wt], as [from_numpy_array] adds them. *)
Definition triples (wt : nat → nat → Z) (P : list (nat * nat))
  : list (nat * nat * Z) :=
  (fun uv : nat * nat => (uv.1, uv.2, wt uv.1 uv.2)) <$> P.

(** What [from_numpy_array] makes of a symmetric matrix. *)
Record graph_of_matrix (N : nat) (M : ndarray) (G : Graph) : Prop := {
  gm_nodes : number_of_nodes G = N;
  gm_nodup : rows_nodup (adj G);
  gm_get : ∀ x y, adj_get (adj G) x y =
                  if decide (entry M x y ≠ 0) then Some (entry M x y) else None
}.

(** All positions of an [N] by [N] array, row by row. *)
Definition pairs (N : nat) : list (nat * nat) :=
  seq 0 N ≫= fun u => pair u <$> seq 0 N.

(** The block of the edge [e] when [start_index] is [s] and [H] brings
    [k] new nodes: the smaller end, the new nodes, the larger end. *)
Definition block (s k : nat) (e : nat * nat) : list nat :=
  e.1 :: seq s k ++ [e.2].

(** The state of the loop after the edges [done]: the matrix is
    symmetric with zero diagonal, has as many nonzero entries as [done]
    copies of [H]'s matrix, and is zero outside the blocks written so
    far. *)
Record loop_inv (NG k N : nat) (MH : ndarray)
    (done : list (nat * nat)) (st : ndarray * Z) : Prop := {
  li_shape : shape N st.1;
  li_start : st.2 = Z.of_nat (NG + length done * k);
  li_sym : symmetric st.1;
  li_diag : zero_diag st.1;
  li_nnz : nnz st.1 = (length done * nnz MH)%nat;
  li_supp : ∀ r c, entry st.1 r c ≠ 0 →
      (r < NG + length done * k ∧ c < NG + length done * k)%nat ∧
      ((NG ≤ r)%nat ∨ (NG ≤ c)%nat ∨ (r, c) ∈ done ∨ (c, r) ∈ done)
}.

(** Square, symmetric, zero on the diagonal. *)
Definition sym_adj (M : ndarray) : bool :=
  is_square M
  && forallb (fun i : nat =>
       forallb (fun j : nat => entry M i j =? entry M j i) (seq 0 (length M)))
       (seq 0 (length M))
  && forallb (fun i : nat => entry M i i =? 0) (seq 0 (length M)).

(** ... and with entries 0 and 1 only. *)
Definition valid_adj (M : ndarray) : bool :=
  sym_adj M && forallb (forallb (fun x : Z => (x =? 0) || (x =? 1))) M.

Definition all_zero (A : ndarray) : Prop := ∀ i j, entry A i j = 0.

(** [1 + E + ... + E^(n-1)] *)
Fixpoint geom (E : Z) (n : nat) : Z :=
  match n with
  | O => 0
  | S m => geom E m + E ^ Z.of_nat m
  end.

(** A mantissa with no bits shifted out of it. *)
Definition exact (m : Z) : shr_record :=
  {| shr_m := m; shr_r := false; shr_s := false |}.

(** [f] is the integer [z], exactly. *)
Definition represents (f : spec_float) (z : Z) : Prop :=
  match f with
  | S754_zero _ => z = 0
  | S754_finite s m e => e ≤ 0 ∧ Zpos m = Z.abs z * 2 ^ (- e) ∧ s = (z <? 0)
  | _ => False
  end.

(** The closed form as the specification writes it, a rational number. *)
Definition closed_form (V E n : Z) : Q :=
  (2 + (inject_Z V - 2) * (inject_Z E ^ n - 1) / (inject_Z E - 1))%Q.

Definition is_integer (q : Q) : Prop := ∃ z : Z, (q == inject_Z z)%Q.

(** One edge and two isolated nodes. *)
Definition edge_and_two_matrix : ndarray :=
  [[0; 1; 0; 0];
   [1; 0; 0; 0];
   [0; 0; 0; 0];
   [0; 0; 0; 0]].

Definition edge_and_two : Graph :=
  graph_of (create_graph edge_and_two_matrix).

(** A single node. *)
Definition single_node_matrix : ndarray := [[0]].

Definition single_node : Graph := graph_of (create_graph single_node_matrix).

(** The state of the loop after the edges [done], entry by entry: the
    block of the [i]-th edge holds a copy of [H]'s matrix, and nothing is
    stored outside the blocks. *)
Record copy_inv (NG k : nat) (MH : ndarray)
    (done : list (nat * nat)) (A : ndarray) : Prop := {
  ci_copy : ∀ i e p q r c, done !! i = Some e →
      block (NG + i * k) k e !! p = Some r →
      block (NG + i * k) k e !! q = Some c →
      entry A r c = entry MH p q;
  ci_only : ∀ r c, entry A r c ≠ 0 →
      ∃ i e, done !! i = Some e
        ∧ r ∈ block (NG + i * k) k e ∧ c ∈ block (NG + i * k) k e
}.

(** A single edge. *)
Definition K2_matrix : ndarray := [[0; 1]; [1; 0]].

Definition K2 : Graph := graph_of (create_graph K2_matrix).

(** A path on three nodes: its matrix, the upper triangle of it alone,
    and the matrix with weights 5 and 7 on the two edges. *)
Definition path_matrix : ndarray := [[0; 1; 0]; [1; 0; 1]; [0; 1; 0]].


Definition weighted_path_matrix : ndarray := [[0; 5; 0]; [5; 0; 7]; [0; 7; 0]].

(** The keys of a dictionary after [d[k] = w], whatever [w] is. *)
Definition keys_set (k : nat) (ks : list nat) : list nat :=
  if decide (k ∈ ks) then ks else ks ++ [k].



(** Every position of a dictionary as a list. *)
Definition positions_listed (d : posdict) : posdict :=
  (fun kp : nat * position => (kp.1, py_list kp.2)) <$> d.

(** ... and only those of the keys [ks]. *)
Definition listed_at (ks : list nat) (d : posdict) : posdict :=
  (fun kp : nat * position =>
     if decide (kp.1 ∈ ks) then (kp.1, py_list kp.2) else kp) <$> d.

(** The positions of two nodes, as arrays, and a heap that holds this
    dictionary alone. *)
Definition two_positions_dict : posdict :=
  [(0%nat, NdArray [S754_zero false; S754_finite false 1 0]);
   (1%nat, NdArray [S754_finite true 1 0; S754_zero false])].

Definition two_positions : heap := [two_positions_dict].

(** * Verification *)

(** One step of the error monad: [x ← Ok a; k] is [k a]. *)
Ltac run_bind := cbn [mbind result_bind rbind].


(** ** Arrays as functions of their indices *)

Lemma shape_lookup N A i row :
  shape N A → A !! i = Some row → length row = N.
Proof.
  intros [_ HF] Hi. by eapply (Forall_lookup_1 _ _ _ _ HF).
Qed.

Lemma entry_lookup A i j row :
  A !! i = Some row → entry A i j = default 0 (row !! j).
Proof. intros Hi. unfold entry. by rewrite Hi. Qed.

Lemma entry_out N A i j :
  shape N A → (N ≤ i ∨ N ≤ j)%nat → entry A i j = 0.
Proof.
  intros HA Hij. unfold entry.
  destruct (A !! i) as [row|] eqn:Hi; simpl; [|done].
  destruct Hij as [Hge|Hge].
  - apply lookup_lt_Some in Hi. destruct HA as [HA _]. lia.
  - rewrite lookup_ge_None_2; [done|].
    erewrite shape_lookup; eauto.
Qed.

Lemma entry_nonzero_lt N A i j :
  shape N A → entry A i j ≠ 0 → (i < N ∧ j < N)%nat.
Proof.
  intros HA Hne.
  destruct (decide (i < N)%nat); [destruct (decide (j < N)%nat)|]; try done;
    exfalso; apply Hne; eapply entry_out; eauto; lia.
Qed.

Lemma shape_set_entry N A r c x :
  shape N A → shape N (set_entry A r c x).
Proof.
  intros [HL HF]. split.
  - unfold set_entry. by rewrite length_alter.
  - unfold set_entry. rewrite Forall_lookup in HF |- *.
    intros i row. rewrite list_lookup_alter.
    case_decide; subst.
    + destruct (A !! i) as [row'|] eqn:Hr; simpl; [|done].
      intros [= <-]. rewrite length_insert. eauto.
    + eauto.
Qed.

Lemma entry_set_entry_eq N A r c x :
  shape N A → (r < N)%nat → (c < N)%nat →
  entry (set_entry A r c x) r c = x.
Proof.
  intros HA Hr Hc. unfold entry, set_entry.
  rewrite list_lookup_alter_eq.
  destruct (lookup_lt_is_Some_2 A r) as [row Hrow]; [destruct HA; lia|].
  rewrite Hrow. simpl.
  rewrite list_lookup_insert_eq; [done|].
  erewrite shape_lookup; eauto.
Qed.

Lemma entry_set_entry_ne A r c x r' c' :
  (r, c) ≠ (r', c') →
  entry (set_entry A r c x) r' c' = entry A r' c'.
Proof.
  intros Hne. unfold entry, set_entry.
  destruct (decide (r = r')) as [<-|Hr].
  - rewrite list_lookup_alter_eq.
    destruct (A !! r); simpl; [|done].
    rewrite list_lookup_insert_ne; [done|congruence].
  - by rewrite list_lookup_alter_ne.
Qed.

Lemma count_nz_cons x row : count_nz (x :: row) = (nzb x + count_nz row)%nat.
Proof.
  unfold count_nz, nzb. rewrite filter_cons.
  destruct (decide (x ≠ 0)).
  - rewrite bool_decide_true; done.
  - rewrite bool_decide_false; done.
Qed.

Lemma count_nz_insert row c x :
  (c < length row)%nat →
  (count_nz (<[c := x]> row) + nzb (default 0%Z (row !! c)) =
   count_nz row + nzb x)%nat.
Proof.
  revert c. induction row as [|y row IH]; intros c Hc; simpl in *; [lia|].
  destruct c as [|c]; simpl.
  - rewrite !count_nz_cons. lia.
  - rewrite !count_nz_cons. specialize (IH c ltac:(lia)). lia.
Qed.

Lemma nnz_cons row A : nnz (row :: A) = (count_nz row + nnz A)%nat.
Proof. done. Qed.

Lemma nnz_alter_insert A r c x :
  (r < length A)%nat →
  (∀ row, A !! r = Some row → (c < length row)%nat) →
  (nnz (set_entry A r c x) + nzb (entry A r c) = nnz A + nzb x)%nat.
Proof.
  revert r. induction A as [|row A IH]; intros r Hr Hc; simpl in *; [lia|].
  destruct r as [|r].
  - unfold set_entry. simpl. rewrite !nnz_cons.
    pose proof (count_nz_insert row c x (Hc row eq_refl)) as H.
    unfold entry. simpl. lia.
  - unfold set_entry in *. simpl. rewrite !nnz_cons.
    specialize (IH r ltac:(lia) (fun row' H => Hc row' H)).
    unfold entry in *. simpl. lia.
Qed.

Lemma nnz_set_entry N A r c x :
  shape N A → (r < N)%nat → (c < N)%nat →
  (nnz (set_entry A r c x) + nzb (entry A r c) = nnz A + nzb x)%nat.
Proof.
  intros HA Hr Hc. apply nnz_alter_insert.
  - destruct HA; lia.
  - intros row Hrow. erewrite shape_lookup; eauto.
Qed.

(** ** A block assignment as a list of single stores *)

Lemma apply_writes_app W1 W2 A :
  apply_writes (W1 ++ W2) A = apply_writes W2 (apply_writes W1 A).
Proof. apply foldl_app. Qed.

Lemma write_row_writes cs A rv :
  write_row cs A rv = apply_writes (row_writes cs rv) A.
Proof.
  unfold write_row, row_writes, apply_writes.
  generalize (zip cs rv.2). intros l. revert A.
  induction l as [|cx l IH]; intros A; simpl; [done|]. apply IH.
Qed.

Lemma foldl_write_row cs A L :
  foldl (write_row cs) A L = apply_writes (L ≫= row_writes cs) A.
Proof.
  revert A. induction L as [|rv L IH]; intros A; simpl; [done|].
  rewrite apply_writes_app, IH. by rewrite write_row_writes.
Qed.

Lemma apply_writes_shape N W A : shape N A → shape N (apply_writes W A).
Proof.
  revert A. induction W as [|w W IH]; intros A HA; simpl; [done|].
  apply IH. by apply shape_set_entry.
Qed.

Lemma apply_writes_notin W A r c :
  (r, c) ∉ W.*1 → entry (apply_writes W A) r c = entry A r c.
Proof.
  revert A. induction W as [|[[r' c'] x] W IH]; intros A Hn; simpl; [done|].
  rewrite fmap_cons in Hn. apply not_elem_of_cons in Hn as [Hne Hn].
  unfold apply_writes in *. simpl. rewrite IH; [|done].
  apply entry_set_entry_ne. simpl in Hne. congruence.
Qed.

Lemma apply_writes_in N W A r c x :
  shape N A → NoDup W.*1 → (r, c, x) ∈ W → (r < N)%nat → (c < N)%nat →
  entry (apply_writes W A) r c = x.
Proof.
  revert A. induction W as [|[[r' c'] x'] W IH]; intros A HA HND Hin Hr Hc.
  - by apply elem_of_nil in Hin.
  - rewrite fmap_cons in HND. apply NoDup_cons in HND as [Hnotin HND].
    apply elem_of_cons in Hin as [Heq|Hin].
    + injection Heq as <- <- <-.
      change (entry (apply_writes W (set_entry A r c x)) r c = x).
      rewrite apply_writes_notin; [|done].
      by eapply entry_set_entry_eq.
    + change (entry (apply_writes W (set_entry A r' c' x')) r c = x).
      apply IH; auto. by apply shape_set_entry.
Qed.

Lemma apply_writes_nnz N W A :
  shape N A → NoDup W.*1 →
  (∀ r c, (r, c) ∈ W.*1 → (r < N)%nat ∧ (c < N)%nat ∧ entry A r c = 0) →
  nnz (apply_writes W A) = (nnz A + count_nz W.*2)%nat.
Proof.
  revert A. induction W as [|[[r c] x] W IH]; intros A HA HND Hz.
  - simpl. unfold count_nz. simpl. lia.
  - rewrite fmap_cons in HND. apply NoDup_cons in HND as [Hnotin HND].
    change (nnz (apply_writes W (set_entry A r c x)) =
            (nnz A + count_nz (x :: W.*2))%nat).
    destruct (Hz r c) as (Hr & Hc & Hrc); [rewrite fmap_cons; left|].
    rewrite IH; [| by apply shape_set_entry | done |].
    + pose proof (nnz_set_entry N A r c x HA Hr Hc) as Hs.
      rewrite Hrc in Hs. rewrite count_nz_cons.
      unfold nzb at 1 in Hs. rewrite bool_decide_false in Hs by (intros ?; done).
      lia.
    + intros r1 c1 Hin. destruct (Hz r1 c1) as (? & ? & Hrc1).
      { rewrite fmap_cons. by right. }
      split_and!; [done..|].
      rewrite entry_set_entry_ne; [done|].
      intros [= -> ->]. simpl in Hnotin. done.
Qed.

Lemma row_writes_fst cs r row :
  length row = length cs → (row_writes cs (r, row)).*1 = pair r <$> cs.
Proof.
  intros Hl. unfold row_writes. simpl.
  rewrite <- list_fmap_compose.
  rewrite <- (fst_zip cs row) at 2 by lia.
  rewrite <- list_fmap_compose. done.
Qed.

Lemma row_writes_snd cs r row :
  length row = length cs → (row_writes cs (r, row)).*2 = row.
Proof.
  intros Hl. unfold row_writes. simpl.
  rewrite <- list_fmap_compose.
  rewrite <- (snd_zip cs row) at 2 by lia. done.
Qed.

Lemma writes_fst rs cs B :
  length rs = length B → Forall (fun row : list Z => length row = length cs) B →
  (writes rs cs B).*1 = rs ≫= fun r => pair r <$> cs.
Proof.
  revert B. induction rs as [|r rs IH]; intros [|row B] HL HF; simpl in *;
    try done.
  apply Forall_cons in HF as [Hrow HF].
  unfold writes in *. simpl. rewrite fmap_app, IH by (done || lia).
  by rewrite row_writes_fst.
Qed.

Lemma count_nz_app l1 l2 :
  count_nz (l1 ++ l2) = (count_nz l1 + count_nz l2)%nat.
Proof. unfold count_nz. by rewrite filter_app, length_app. Qed.

Lemma writes_count rs cs B :
  length rs = length B → Forall (fun row : list Z => length row = length cs) B →
  count_nz (writes rs cs B).*2 = nnz B.
Proof.
  revert B. induction rs as [|r rs IH]; intros [|row B] HL HF; simpl in *;
    try done.
  apply Forall_cons in HF as [Hrow HF].
  unfold writes in *. simpl.
  rewrite fmap_app, count_nz_app, IH by (done || lia).
  by rewrite row_writes_snd, nnz_cons.
Qed.

Lemma NoDup_pairs (rs cs : list nat) :
  NoDup rs → NoDup cs → NoDup (rs ≫= fun r => pair r <$> cs).
Proof.
  intros Hrs Hcs. induction Hrs as [|r rs Hr Hrs IH]; simpl.
  - constructor.
  - apply NoDup_app. split_and!.
    + apply NoDup_fmap_2; [|done]. intros c1 c2. congruence.
    + intros [r1 c1] [c [[= -> ->] Hc]]%list_elem_of_fmap.
      intros (r2 & Hin & Hr2)%list_elem_of_bind.
      apply list_elem_of_fmap in Hin as [c2 [[= -> ->] _]]. done.
    + done.
Qed.

Lemma elem_of_pairs (rs cs : list nat) r c :
  (r, c) ∈ (rs ≫= fun r => pair r <$> cs) ↔ r ∈ rs ∧ c ∈ cs.
Proof.
  rewrite list_elem_of_bind. split.
  - intros (r' & [c' [[= -> ->] Hc]]%list_elem_of_fmap & Hr). done.
  - intros [Hr Hc]. exists r. split; [|done].
    apply list_elem_of_fmap. eauto.
Qed.

Lemma elem_of_writes rs cs B i j r c :
  rs !! i = Some r → cs !! j = Some c →
  (i < length B)%nat →
  (∀ row, B !! i = Some row → (j < length row)%nat) →
  (r, c, entry B i j) ∈ writes rs cs B.
Proof.
  intros Hi Hj HiB Hrow.
  destruct (lookup_lt_is_Some_2 B i HiB) as [row Hr].
  destruct (lookup_lt_is_Some_2 row j (Hrow _ Hr)) as [x Hx].
  unfold writes. apply list_elem_of_bind.
  exists (r, row). split.
  - unfold row_writes. simpl. apply list_elem_of_fmap.
    exists (c, x). split.
    + simpl. f_equal. unfold entry. by rewrite Hr; simpl; rewrite Hx.
    + apply list_elem_of_lookup. exists j. apply lookup_zip_Some. done.
  - apply list_elem_of_lookup. exists i. apply lookup_zip_Some. done.
Qed.

(** ** The block assignment of [slash_H_into_G] *)

Lemma norm_index_of_nat N (r : nat) :
  (r < N)%nat → norm_index N (Z.of_nat r) = Ok r.
Proof.
  intros Hr. unfold norm_index.
  replace (0 <=? Z.of_nat r) with true by (symmetry; apply Z.leb_le; lia).
  replace (Z.of_nat r <? Z.of_nat N) with true by (symmetry; apply Z.ltb_lt; lia).
  simpl. by rewrite Nat2Z.id.
Qed.

Lemma norm_indices_of_nat N (blk : list nat) :
  Forall (fun r : nat => (r < N)%nat) blk →
  norm_indices N (Z.of_nat <$> blk) = Ok blk.
Proof.
  induction 1 as [|r blk Hr _ IH]; csimpl; [done|].
  rewrite norm_index_of_nat by done. csimpl. by rewrite IH.
Qed.

Lemma ncols_shape N A : shape N A → ncols A = N.
Proof.
  intros [HL HF]. unfold ncols. destruct A as [|row A]; simpl in *; [done|].
  by apply Forall_cons in HF as [? _].
Qed.

Lemma shape_row_lookup N A i :
  shape N A → (i < N)%nat → ∃ row, A !! i = Some row ∧ length row = N.
Proof.
  intros HA Hi. destruct (lookup_lt_is_Some_2 A i) as [row Hrow].
  { destruct HA; lia. }
  exists row. split; [done|]. by eapply shape_lookup.
Qed.

Lemma shape_ext N A B :
  shape N A → shape N B → (∀ i j, (i < N)%nat → (j < N)%nat → entry A i j = entry B i j) → A = B.
Proof.
  intros HA HB Heq. apply list_eq. intros i.
  destruct (decide (i < N)%nat) as [Hi|Hi].
  - destruct (shape_row_lookup N A i HA Hi) as (ra & Hra & Hla).
    destruct (shape_row_lookup N B i HB Hi) as (rb & Hrb & Hlb).
    rewrite Hra, Hrb. f_equal. apply list_eq. intros j.
    destruct (decide (j < N)%nat) as [Hj|Hj].
    + specialize (Heq i j Hi Hj).
      rewrite (entry_lookup A i j ra Hra), (entry_lookup B i j rb Hrb) in Heq.
      destruct (lookup_lt_is_Some_2 ra j) as [x Hx]; [lia|].
      destruct (lookup_lt_is_Some_2 rb j) as [y Hy]; [lia|].
      rewrite Hx, Hy in *. simpl in Heq. by subst.
    + rewrite !lookup_ge_None_2 by lia. done.
  - destruct HA as [HA _], HB as [HB _].
    rewrite !lookup_ge_None_2 by lia. done.
Qed.

Lemma shape_tabulate N (f : nat → nat → Z) :
  shape N (map (fun i : nat => map (fun j : nat => f i j) (seq 0 N)) (seq 0 N)).
Proof.
  split.
  - by rewrite length_map, length_seq.
  - apply Forall_forall. intros row [i [-> _]]%list_elem_of_fmap.
    by rewrite length_map, length_seq.
Qed.

Lemma entry_tabulate N (f : nat → nat → Z) i j :
  (i < N)%nat → (j < N)%nat →
  entry (map (fun i : nat => map (fun j : nat => f i j) (seq 0 N)) (seq 0 N)) i j
  = f i j.
Proof.
  intros Hi Hj. unfold entry.
  change (map ?g ?l) with (g <$> l).
  rewrite list_lookup_fmap, lookup_seq_lt by done. simpl.
  change (map ?g ?l) with (g <$> l).
  rewrite list_lookup_fmap, lookup_seq_lt by done. done.
Qed.

Lemma broadcast_to_same h B : shape h B → broadcast_to B h h = Ok B.
Proof.
  intros HB. unfold broadcast_to.
  rewrite (ncols_shape h B HB). destruct HB as [HL HF].
  rewrite HL. rewrite !bool_decide_true by done. simpl. f_equal.
  apply (shape_ext h).
  - apply (shape_tabulate h
      (fun i j => entry B (if bool_decide (h = 1%nat) then 0%nat else i)
                          (if bool_decide (h = 1%nat) then 0%nat else j))).
  - done.
  - intros i j Hi Hj.
    rewrite (entry_tabulate h
      (fun i j => entry B (if bool_decide (h = 1%nat) then 0%nat else i)
                          (if bool_decide (h = 1%nat) then 0%nat else j)))
      by done.
    case_bool_decide; [|done]. by replace i with 0%nat by lia; replace j with 0%nat by lia.
Qed.

Lemma ix_assign_block N h (A : ndarray) (blk : list nat) (B : ndarray) :
  shape N A → shape h B → length blk = h → NoDup blk →
  Forall (fun r : nat => (r < N)%nat) blk →
  ∃ A', ix_assign A (Z.of_nat <$> blk) (Z.of_nat <$> blk) B = Ok A'
    ∧ shape N A'
    ∧ (∀ i j r c, blk !! i = Some r → blk !! j = Some c →
                  entry A' r c = entry B i j)
    ∧ (∀ r c, r ∉ blk ∨ c ∉ blk → entry A' r c = entry A r c)
    ∧ ((∀ r c, r ∈ blk → c ∈ blk → entry A r c = 0) →
       nnz A' = (nnz A + nnz B)%nat).
Proof.
  intros HA HB Hlen HND Hlt.
  exists (apply_writes (writes blk blk B) A).
  assert (HBl : length blk = length B) by (destruct HB; lia).
  assert (HBr : Forall (fun row : list Z => length row = length blk) B).
  { destruct HB as [_ HF]. by rewrite Hlen. }
  assert (Hfst := writes_fst blk blk B HBl HBr).
  split_and!.
  - unfold ix_assign. rewrite !length_fmap, Hlen.
    rewrite (broadcast_to_same h B HB). simpl.
    destruct HA as [HAl HAf]. rewrite HAl.
    rewrite (norm_indices_of_nat N blk Hlt). simpl.
    rewrite (ncols_shape N A (conj HAl HAf)).
    rewrite (norm_indices_of_nat N blk Hlt). simpl.
    by rewrite foldl_write_row.
  - by apply apply_writes_shape.
  - intros i j r c Hi Hj.
    rewrite Forall_forall in Hlt.
    eapply apply_writes_in; eauto.
    + rewrite Hfst. by apply NoDup_pairs.
    + apply (elem_of_writes blk blk B i j r c Hi Hj).
      * apply lookup_lt_Some in Hi. lia.
      * intros row Hrow. erewrite (shape_lookup h B i row HB Hrow).
        apply lookup_lt_Some in Hj. lia.
    + apply Hlt. by eapply list_elem_of_lookup_2.
    + apply Hlt. by eapply list_elem_of_lookup_2.
  - intros r c Hnot. apply apply_writes_notin.
    rewrite Hfst, elem_of_pairs. tauto.
  - intros Hz. rewrite (apply_writes_nnz N); [| done | |].
    + by rewrite writes_count.
    + rewrite Hfst. by apply NoDup_pairs.
    + intros r c. rewrite Hfst, elem_of_pairs. intros [Hr Hc].
      rewrite Forall_forall in Hlt. auto.
Qed.

(** ** The graph of an adjacency matrix *)

Lemma dict_get_set k k' w d :
  dict_get k (dict_set k' w d) =
  if decide (k = k') then Some w else dict_get k d.
Proof.
  induction d as [|[k1 w1] d IH]; simpl.
  - case_bool_decide; case_decide; done.
  - case_bool_decide as H1; simpl; rewrite ?IH;
      repeat (case_bool_decide || case_decide); subst; done.
Qed.

Lemma elem_of_keys k (d : adjdict) : k ∈ keys d ↔ is_Some (dict_get k d).
Proof.
  unfold keys. induction d as [|[k1 w1] d IH]; simpl.
  - split; [by intros ?%elem_of_nil | by intros [? ?]].
  - rewrite elem_of_cons. case_bool_decide; simpl.
    + split; eauto.
    + rewrite IH. split; [by intros [?|?] | by right].
Qed.

Lemma keys_dict_set k w (d : adjdict) :
  keys (dict_set k w d) = if decide (k ∈ keys d) then keys d else keys d ++ [k].
Proof.
  unfold keys. induction d as [|[k1 w1] d IH]; simpl.
  - done.
  - case_bool_decide as H1; simpl.
    + subst. rewrite decide_True; [done | left].
    + rewrite IH. case_decide as H2.
      * rewrite decide_True; [done | by right].
      * rewrite decide_False; [done|].
        intros [?|?]%elem_of_cons; done.
Qed.

Lemma NoDup_keys_dict_set k w (d : adjdict) :
  NoDup (keys d) → NoDup (keys (dict_set k w d)).
Proof.
  intros HND. rewrite keys_dict_set. case_decide; [done|].
  apply NoDup_app. split_and!; [done | | apply NoDup_singleton].
  intros x Hx ->%list_elem_of_singleton. done.
Qed.

Lemma length_add_edge a e : length (add_edge a e) = length a.
Proof. destruct e as [[u v] w]. unfold add_edge. by rewrite !length_alter. Qed.

Lemma rows_nodup_alter a k w i :
  rows_nodup a → rows_nodup (alter (dict_set k w) i a).
Proof.
  unfold rows_nodup. rewrite !Forall_lookup. intros Ha j d.
  rewrite list_lookup_alter. case_decide; [|by eauto].
  subst. destruct (a !! j) as [d'|] eqn:Hd; simpl; [|done].
  intros [= <-]. apply NoDup_keys_dict_set. eauto.
Qed.

Lemma rows_nodup_add_edge a e : rows_nodup a → rows_nodup (add_edge a e).
Proof.
  destruct e as [[u v] w]. intros Ha. unfold add_edge.
  by do 2 apply rows_nodup_alter.
Qed.

Lemma adj_get_alter a k w i x y :
  (i < length a)%nat →
  adj_get (alter (dict_set k w) i a) x y =
  if decide (x = i ∧ y = k) then Some w else adj_get a x y.
Proof.
  intros Hi. unfold adj_get. rewrite list_lookup_alter.
  destruct (lookup_lt_is_Some_2 a i Hi) as [d Hd].
  destruct (decide (i = x)) as [<-|Hne].
  - rewrite Hd. simpl. rewrite dict_get_set.
    destruct (decide (y = k)).
    + by rewrite decide_True.
    + rewrite decide_False by tauto. done.
  - rewrite decide_False; [done|]. intros [? ?]. by subst.
Qed.

Lemma adj_get_add_edge a u v w x y :
  (u < length a)%nat → (v < length a)%nat →
  adj_get (add_edge a (u, v, w)) x y =
  if decide ((x, y) = (u, v) ∨ (x, y) = (v, u)) then Some w
  else adj_get a x y.
Proof.
  intros Hu Hv. unfold add_edge.
  rewrite adj_get_alter by (by rewrite length_alter).
  rewrite adj_get_alter by done.
  destruct (decide (x = v ∧ y = u)) as [[-> ->]|H1].
  { rewrite decide_True; [done | by right]. }
  destruct (decide (x = u ∧ y = v)) as [[-> ->]|H2].
  { rewrite decide_True; [done | by left]. }
  rewrite decide_False; [done|].
  intros [[= -> ->]|[= -> ->]]; tauto.
Qed.

Arguments add_edge : simpl never.

Section build.
Variable wt : nat → nat → Z.
Hypothesis wt_sym : ∀ u v, wt u v = wt v u.

Lemma build_length a P : length (foldl add_edge a (triples wt P)) = length a.
Proof.
  revert a. induction P as [|uv P IH]; intros a; simpl; [done|].
  by rewrite IH, length_add_edge.
Qed.

Lemma build_nodup a P :
  rows_nodup a → rows_nodup (foldl add_edge a (triples wt P)).
Proof.
  revert a. induction P as [|uv P IH]; intros a Ha; simpl; [done|].
  by apply IH, rows_nodup_add_edge.
Qed.

Lemma build_get a P x y :
  Forall (fun uv : nat * nat => (uv.1 < length a ∧ uv.2 < length a)%nat) P →
  adj_get (foldl add_edge a (triples wt P)) x y =
  if decide ((x, y) ∈ P ∨ (y, x) ∈ P) then Some (wt x y) else adj_get a x y.
Proof.
  induction P as [|[u v] P IH] using rev_ind; intros HP.
  - rewrite decide_False; [done|].
    intros [?%elem_of_nil|?%elem_of_nil]; done.
  - apply Forall_app in HP as [HP Huv].
    apply Forall_singleton in Huv as [Hu Hv]. simpl in Hu, Hv.
    unfold triples. rewrite fmap_app, foldl_app. simpl.
    fold (triples wt P).
    rewrite adj_get_add_edge by (by rewrite build_length).
    rewrite IH by done.
    destruct (decide ((x, y) = (u, v) ∨ (x, y) = (v, u))) as [Heq|Hne].
    + rewrite decide_True.
      * destruct Heq as [[= -> ->]|[= -> ->]]; [done | by rewrite wt_sym].
      * destruct Heq as [[= -> ->]|[= -> ->]]; [left | right];
          apply elem_of_app; right; by apply list_elem_of_singleton.
    + destruct (decide ((x, y) ∈ P ∨ (y, x) ∈ P)) as [Hin|Hnin].
      * rewrite decide_True; [done|].
        destruct Hin; [left | right]; apply elem_of_app; by left.
      * rewrite decide_False; [done|].
        rewrite !elem_of_app, !list_elem_of_singleton.
        intros [[?|[= -> ->]]|[?|[= -> ->]]]; tauto.
Qed.
End build.

Lemma is_square_shape M : is_square M = true ↔ shape (length M) M.
Proof.
  unfold is_square, shape. rewrite forallb_forall, Forall_forall.
  split.
  - intros H. split; [done|]. intros row Hrow.
    apply list_elem_of_In in Hrow. specialize (H row Hrow).
    by apply bool_decide_eq_true in H.
  - intros [_ H] row Hrow. apply bool_decide_eq_true.
    apply H. by apply list_elem_of_In.
Qed.

Lemma elem_of_nonzero N M u v :
  shape N M → (u, v) ∈ nonzero M ↔ entry M u v ≠ 0.
Proof.
  intros HM. unfold nonzero.
  rewrite (ncols_shape N M HM). destruct HM as [HL HF]. rewrite HL.
  change (flat_map ?f ?l) with (l ≫= f).
  rewrite list_elem_of_bind. split.
  - intros (u' & Hin & _). change (map ?f ?l) with (f <$> l) in Hin.
    apply list_elem_of_fmap in Hin as (v' & [= -> ->] & Hv).
    by apply list_elem_of_filter in Hv as [? _].
  - intros Hne.
    destruct (entry_nonzero_lt N M u v (conj HL HF) Hne) as [Hu Hv].
    exists u. split.
    + change (map ?f ?l) with (f <$> l). apply list_elem_of_fmap.
      exists v. split; [done|]. apply list_elem_of_filter. split; [done|].
      apply elem_of_seq. lia.
    + apply elem_of_seq. lia.
Qed.

Lemma from_numpy_array_spec N M :
  shape N M → symmetric M →
  ∃ G, from_numpy_array M = Ok G ∧ graph_of_matrix N M G.
Proof.
  intros HM Hsym. pose proof HM as [HL HF].
  assert (Hsq : is_square M = true).
  { apply is_square_shape. by rewrite HL. }
  unfold from_numpy_array. rewrite Hsq. eexists. split; [done|].
  change (map ?f (nonzero M)) with (triples (entry M) (nonzero M)).
  assert (Hrange : Forall (fun uv : nat * nat =>
      (uv.1 < length (replicate (length M) ([] : adjdict))
       ∧ uv.2 < length (replicate (length M) ([] : adjdict)))%nat) (nonzero M)).
  { apply Forall_forall. intros [u v] Huv. simpl.
    rewrite length_replicate, HL.
    apply (elem_of_nonzero N M u v HM) in Huv.
    by apply (entry_nonzero_lt N M). }
  split.
  - unfold number_of_nodes. simpl.
    by rewrite build_length, length_replicate.
  - simpl. apply build_nodup. unfold rows_nodup.
    apply Forall_forall. intros d [-> _]%elem_of_replicate. constructor.
  - intros x y. simpl. rewrite (build_get (entry M) Hsym) by done.
    pose proof (elem_of_nonzero N M x y HM) as Hxy.
    pose proof (elem_of_nonzero N M y x HM) as Hyx.
    rewrite <- (Hsym x y) in Hyx.
    destruct (decide (entry M x y ≠ 0)).
    + by rewrite decide_True by tauto.
    + rewrite decide_False by tauto.
      unfold adj_get. destruct (replicate (length M) [] !! x) eqn:Hx; [|done].
      apply lookup_replicate in Hx as [-> _]. done.
Qed.

Lemma shape_to_numpy_array G :
  shape (number_of_nodes G) (to_numpy_array G).
Proof.
  unfold to_numpy_array, number_of_nodes. split.
  - by rewrite length_map.
  - apply Forall_forall. intros row [d [-> _]]%list_elem_of_fmap.
    by rewrite length_map, length_seq.
Qed.

Lemma entry_to_numpy_array G i j :
  (j < number_of_nodes G)%nat →
  entry (to_numpy_array G) i j = default 0 (adj_get (adj G) i j).
Proof.
  intros Hj. unfold entry, to_numpy_array, adj_get.
  change (map ?g ?l) with (g <$> l).
  rewrite list_lookup_fmap. destruct (adj G !! i) as [d|]; simpl; [|done].
  change (map ?g ?l) with (g <$> l).
  by rewrite list_lookup_fmap, lookup_seq_lt.
Qed.

Lemma to_numpy_array_spec N M G :
  shape N M → graph_of_matrix N M G → to_numpy_array G = M.
Proof.
  intros HM [Hn _ Hget]. apply (shape_ext N); [|done|].
  - rewrite <- Hn. apply shape_to_numpy_array.
  - intros i j Hi Hj. rewrite entry_to_numpy_array by lia.
    rewrite Hget. by case_decide; simpl; [|lia].
Qed.

(** *** The edge view *)

Lemma elem_of_edges_from seen n a u v :
  (∀ x, x ∈ seen ↔ (x < n)%nat) →
  (u, v) ∈ edges_from seen n a ↔
  (n ≤ u)%nat ∧ (u ≤ v)%nat ∧ ∃ d, a !! (u - n)%nat = Some d ∧ v ∈ keys d.
Proof.
  revert seen n. induction a as [|d a IH]; intros seen n Hseen; simpl.
  - split; [by intros ?%elem_of_nil | by intros (_ & _ & ? & ? & _)].
  - rewrite elem_of_app, IH; last first.
    { intros x. rewrite elem_of_cons, Hseen. lia. }
    change (map ?g ?l) with (g <$> l). rewrite list_elem_of_fmap. split.
    + intros [(v' & [= -> ->] & Hv)|(Hn & Huv & d' & Hd' & Hv)].
      * apply list_elem_of_filter in Hv as [Hns Hv].
        rewrite Hseen in Hns. split_and!; [lia..|].
        exists d. by rewrite Nat.sub_diag.
      * split_and!; [lia..|]. exists d'. split; [|done].
        by replace (u - n)%nat with (S (u - S n)) by lia.
    + intros (Hn & Huv & d' & Hd' & Hv).
      destruct (decide (u = n)) as [->|Hne].
      * left. rewrite Nat.sub_diag in Hd'. simplify_eq/=.
        exists v. split; [done|]. apply list_elem_of_filter.
        split; [|done]. rewrite Hseen. lia.
      * right. split_and!; [lia..|]. exists d'. split; [|done].
        by replace (u - n)%nat with (S (u - S n)) in Hd' by lia.
Qed.

Lemma NoDup_edges_from seen n a :
  (∀ x, x ∈ seen ↔ (x < n)%nat) → rows_nodup a →
  NoDup (edges_from seen n a).
Proof.
  revert seen n. induction a as [|d a IH]; intros seen n Hseen Ha; simpl.
  - constructor.
  - apply Forall_cons in Ha as [Hd Ha].
    assert (Hseen' : ∀ x, x ∈ n :: seen ↔ (x < S n)%nat).
    { intros x. rewrite elem_of_cons, Hseen. lia. }
    apply NoDup_app. split_and!.
    + change (map ?g ?l) with (g <$> l).
      apply NoDup_fmap_2; [intros ??; congruence|].
      by apply NoDup_filter.
    + intros [u v]. change (map ?g ?l) with (g <$> l).
      intros (v' & [= -> ->] & _)%list_elem_of_fmap.
      rewrite (elem_of_edges_from _ _ _ _ _ Hseen'). lia.
    + by apply IH.
Qed.

Lemma elem_of_edges N M G u v :
  graph_of_matrix N M G →
  (u, v) ∈ edges G ↔ (u ≤ v)%nat ∧ entry M u v ≠ 0.
Proof.
  intros [Hn _ Hget]. unfold edges.
  rewrite elem_of_edges_from by (intros x; rewrite elem_of_nil; lia).
  rewrite Nat.sub_0_r. specialize (Hget u v). unfold adj_get in Hget.
  split.
  - intros (_ & Huv & d & Hd & Hv). split; [done|].
    rewrite Hd in Hget. simpl in Hget.
    apply elem_of_keys in Hv as [w Hw]. rewrite Hw in Hget.
    by case_decide.
  - intros [Huv Hne]. split_and!; [lia | done |].
    rewrite decide_True in Hget by done.
    destruct (adj G !! u) as [d|]; [|done]. simpl in Hget.
    exists d. split; [done|]. apply elem_of_keys. by rewrite Hget.
Qed.

Lemma NoDup_edges N M G : graph_of_matrix N M G → NoDup (edges G).
Proof.
  intros [_ Hnd _]. apply NoDup_edges_from; [|done].
  intros x. rewrite elem_of_nil. lia.
Qed.

Lemma elem_of_pairs_seq N u v : (u, v) ∈ pairs N ↔ (u < N ∧ v < N)%nat.
Proof. unfold pairs. rewrite elem_of_pairs, !elem_of_seq. lia. Qed.

Lemma NoDup_pairs_seq N : NoDup (pairs N).
Proof. apply NoDup_pairs; apply NoDup_seq. Qed.

Lemma edges_perm N M G :
  shape N M → graph_of_matrix N M G →
  edges G ≡ₚ
  filter (fun uv : nat * nat => (uv.1 ≤ uv.2)%nat ∧ entry M uv.1 uv.2 ≠ 0)
         (pairs N).
Proof.
  intros HM HG. apply NoDup_Permutation.
  - by eapply NoDup_edges.
  - apply NoDup_filter, NoDup_pairs_seq.
  - intros [u v]. rewrite (elem_of_edges N M G u v HG).
    rewrite list_elem_of_filter, elem_of_pairs_seq. simpl.
    split; [|tauto]. intros [Huv Hne]. split; [done|].
    by apply (entry_nonzero_lt N M).
Qed.

(** *** Counting edges: a symmetric matrix with zero diagonal has twice
    as many nonzero entries as its graph has edges *)

Lemma count_nz_fmap (f : nat → Z) (u : nat) (cs : list nat) :
  count_nz (f <$> cs) =
  length (filter (fun uv : nat * nat => f uv.2 ≠ 0) (pair u <$> cs)).
Proof.
  induction cs as [|c cs IH]; [done|].
  rewrite !fmap_cons, count_nz_cons, filter_cons. simpl.
  unfold nzb. destruct (decide (f c ≠ 0)).
  - rewrite bool_decide_true by done. simpl. by rewrite IH.
  - rewrite bool_decide_false by done. simpl. by rewrite IH.
Qed.

Lemma nnz_tabulate (f : nat → nat → Z) (rs cs : list nat) :
  nnz ((fun i : nat => (fun j : nat => f i j) <$> cs) <$> rs) =
  length (filter (fun uv : nat * nat => f uv.1 uv.2 ≠ 0)
                 (rs ≫= fun u => pair u <$> cs)).
Proof.
  induction rs as [|r rs IH]; [done|].
  rewrite fmap_cons, nnz_cons, IH. simpl.
  rewrite filter_app, length_app. f_equal.
  etransitivity; [apply (count_nz_fmap (f r) r cs)|].
  clear IH. induction cs as [|c cs IH]; [done|].
  rewrite !fmap_cons, !filter_cons. simpl.
  destruct (decide (f r c ≠ 0)); simpl; by rewrite IH.
Qed.

Lemma nnz_pairs N M :
  shape N M →
  nnz M = length (filter (fun uv : nat * nat => entry M uv.1 uv.2 ≠ 0)
                         (pairs N)).
Proof.
  intros HM. unfold pairs.
  rewrite <- (nnz_tabulate (entry M) (seq 0 N) (seq 0 N)).
  f_equal. apply (shape_ext N); [done | apply (shape_tabulate N (entry M)) |].
  intros i j Hi Hj. symmetry. by apply (entry_tabulate N (entry M)).
Qed.

Lemma length_filter_split {A} (P Q : A → Prop)
    `{∀ x, Decision (P x)} `{∀ x, Decision (Q x)} (l : list A) :
  length (filter P l) =
  (length (filter (fun x => Q x ∧ P x) l)
   + length (filter (fun x => ¬ Q x ∧ P x) l))%nat.
Proof.
  induction l as [|x l IH]; [done|].
  rewrite !filter_cons.
  destruct (decide (P x)), (decide (Q x)).
  - rewrite decide_True, decide_False by tauto. simpl. lia.
  - rewrite decide_False, decide_True by tauto. simpl. lia.
  - rewrite !decide_False by tauto. lia.
  - rewrite !decide_False by tauto. lia.
Qed.

Lemma upper_lower_perm N M :
  symmetric M → zero_diag M →
  filter (fun uv : nat * nat => ¬ (uv.1 ≤ uv.2)%nat ∧ entry M uv.1 uv.2 ≠ 0)
         (pairs N)
  ≡ₚ prod_swap <$>
     filter (fun uv : nat * nat => (uv.1 ≤ uv.2)%nat ∧ entry M uv.1 uv.2 ≠ 0)
            (pairs N).
Proof.
  intros Hsym Hdiag. apply NoDup_Permutation.
  - apply NoDup_filter, NoDup_pairs_seq.
  - apply NoDup_fmap_2; [apply _|]. apply NoDup_filter, NoDup_pairs_seq.
  - intros [u v]. rewrite list_elem_of_fmap, list_elem_of_filter.
    rewrite elem_of_pairs_seq. simpl. split.
    + intros [[Huv Hne] [Hu Hv]]. exists (v, u). split; [done|].
      rewrite list_elem_of_filter, elem_of_pairs_seq. simpl.
      rewrite (Hsym v u). split_and!; [lia | done | done..].
    + intros ([v' u'] & [= -> ->] & Hin).
      rewrite list_elem_of_filter, elem_of_pairs_seq in Hin. simpl in Hin.
      destruct Hin as [[Huv Hne] [Hv Hu]].
      rewrite (Hsym v' u') in Hne. split_and!; [|done..].
      intros Hle. assert (u' = v') as -> by lia. by rewrite Hdiag in Hne.
Qed.

Lemma edges_count N M G :
  shape N M → symmetric M → zero_diag M → graph_of_matrix N M G →
  (2 * length (edges G))%nat = nnz M.
Proof.
  intros HM Hsym Hdiag HG.
  rewrite (nnz_pairs N M HM).
  rewrite (length_filter_split _ (fun uv : nat * nat => (uv.1 ≤ uv.2)%nat)).
  rewrite (upper_lower_perm N M Hsym Hdiag), length_fmap.
  rewrite <- (edges_perm N M G HM HG). lia.
Qed.

(** ** The loop of [slash_H_into_G] *)

Lemma for_each_inv {A S} (body : S → A → result S)
    (I : list A → S → Prop) (xs : list A) (s0 : S) :
  I [] s0 →
  (∀ done x todo s, xs = done ++ x :: todo → I done s →
     ∃ s', body s x = Ok s' ∧ I (done ++ [x]) s') →
  ∃ s', for_each body xs s0 = Ok s' ∧ I xs s'.
Proof.
  intros H0 Hstep.
  cut (∀ todo done s, xs = done ++ todo → I done s →
         ∃ s', for_each body todo s = Ok s' ∧ I xs s').
  { intros Hgen. by apply (Hgen xs [] s0). }
  induction todo as [|x todo IH]; intros done s Hxs HI.
  - rewrite app_nil_r in Hxs. subst. by exists s.
  - destruct (Hstep done x todo s Hxs HI) as (s' & Hb & HI').
    simpl. rewrite Hb. simpl. apply (IH (done ++ [x])); [|done].
    by rewrite <- app_assoc.
Qed.

Lemma py_range_nat (s k : nat) :
  py_range (Z.of_nat s) (Z.of_nat s + Z.of_nat k) = Z.of_nat <$> seq s k.
Proof.
  unfold py_range.
  replace (Z.to_nat (Z.of_nat s + Z.of_nat k - Z.of_nat s)) with k by lia.
  change (map ?g ?l) with (g <$> l).
  apply list_eq. intros i. rewrite !list_lookup_fmap.
  destruct (decide (i < k)%nat).
  - rewrite !lookup_seq_lt by done. simpl. f_equal. lia.
  - rewrite !lookup_seq_ge by lia. done.
Qed.

Lemma collect_indices (l b : list Z) (s : Z) :
  foldl (fun (bs : list Z * Z) (i : Z) => (bs.1 ++ [i], bs.2 + 1)) (b, s) l
  = (b ++ l, s + Z.of_nat (length l)).
Proof.
  revert b s. induction l as [|i l IH]; intros b s; simpl.
  - by rewrite app_nil_r, Z.add_0_r.
  - rewrite IH. f_equal; [by rewrite <- app_assoc | lia].
Qed.

Lemma edge_block_spec (s k : nat) (e : nat * nat) :
  (e.1 ≤ e.2)%nat →
  edge_block (Z.of_nat k) (Z.of_nat s) e
  = (Z.of_nat <$> block s k e, Z.of_nat (s + k)).
Proof.
  intros Hle. unfold edge_block.
  rewrite bool_decide_false by lia.
  rewrite py_range_nat, collect_indices, length_fmap, length_seq.
  unfold block. rewrite fmap_cons, fmap_app. simpl.
  f_equal. lia.
Qed.

Lemma length_block s k e : length (block s k e) = (k + 2)%nat.
Proof. unfold block. simpl. rewrite length_app, length_seq. simpl. lia. Qed.

Lemma elem_of_block s k e x :
  x ∈ block s k e ↔ x = e.1 ∨ (s ≤ x < s + k)%nat ∨ x = e.2.
Proof.
  unfold block. rewrite elem_of_cons, elem_of_app, elem_of_seq,
    list_elem_of_singleton. done.
Qed.

Lemma NoDup_block NG s k e :
  (e.1 < e.2)%nat → (e.2 < NG)%nat → (NG ≤ s)%nat → NoDup (block s k e).
Proof.
  intros H1 H2 H3. unfold block. apply NoDup_cons. split.
  - rewrite elem_of_app, elem_of_seq, list_elem_of_singleton. lia.
  - apply NoDup_app. split_and!; [apply NoDup_seq | | apply NoDup_singleton].
    intros x. rewrite elem_of_seq, list_elem_of_singleton. lia.
Qed.

Lemma entry_zeros n i j : entry (replicate n (replicate n 0)) i j = 0.
Proof.
  unfold entry. destruct (replicate n (replicate n 0) !! i) as [row|] eqn:Hi;
    simpl; [|done].
  apply lookup_replicate in Hi as [-> _].
  destruct (replicate n 0 !! j) as [x|] eqn:Hj; simpl; [|done].
  by apply lookup_replicate in Hj as [-> _].
Qed.

Lemma shape_zeros n : shape n (replicate n (replicate n 0)).
Proof.
  split; [by rewrite length_replicate|].
  apply Forall_forall. intros row [-> _]%elem_of_replicate.
  by rewrite length_replicate.
Qed.

Lemma nnz_zeros n : nnz (replicate n (replicate n 0)) = 0%nat.
Proof.
  rewrite (nnz_pairs n _ (shape_zeros n)).
  induction (pairs n) as [|uv l IH]; [done|].
  rewrite filter_cons, decide_False; [done|].
  rewrite entry_zeros. tauto.
Qed.

Section slash_loop.
Variables (NG k N : nat) (MH : ndarray) (es : list (nat * nat)).
Hypothesis HMH : shape (k + 2) MH.
Hypothesis HMH_sym : symmetric MH.
Hypothesis HMH_diag : zero_diag MH.
Hypothesis Hes_nodup : NoDup es.
Hypothesis Hes_lt : ∀ u v, (u, v) ∈ es → (u < v ∧ v < NG)%nat.
Hypothesis HN : N = (NG + length es * k)%nat.

Lemma loop_inv_init : loop_inv NG k N MH [] (replicate N (replicate N 0), Z.of_nat NG).
Proof.
  constructor; simpl.
  - apply shape_zeros.
  - f_equal. lia.
  - intros i j. by rewrite !entry_zeros.
  - intros i. by rewrite entry_zeros.
  - by rewrite nnz_zeros.
  - intros r c. by rewrite entry_zeros.
Qed.

Lemma loop_inv_step done e todo st :
  es = done ++ e :: todo → loop_inv NG k N MH done st →
  ∃ st', slash_edge MH (Z.of_nat k) st e = Ok st' ∧ loop_inv NG k N MH (done ++ [e]) st'.
Proof.
  intros Hes [Hshape Hstart Hsym Hdiag Hnnz Hsupp].
  destruct st as [A s0], e as [u v]. simpl in *. subst s0.
  set (s := (NG + length done * k)%nat) in *.
  assert (Huv : (u < v ∧ v < NG)%nat).
  { apply Hes_lt. rewrite Hes. apply elem_of_app. right. left. }
  assert (Hlen : (length es = length done + S (length todo))%nat).
  { rewrite Hes, length_app. done. }
  assert (HsN : (s + k ≤ N)%nat) by (subst s N; nia).
  assert (Hnotdone : ((u, v) ∉ done) ∧ ((v, u) ∉ done)).
  { rewrite Hes in Hes_nodup. apply NoDup_app in Hes_nodup as (_ & Hd & _).
    split.
    - intros Hin. apply (Hd _ Hin). left.
    - intros Hin. destruct (Hes_lt v u); [|lia].
      rewrite Hes. apply elem_of_app. by left. }
  set (blk := block s k (u, v)).
  assert (Hblk : ∀ x, x ∈ blk ↔ x = u ∨ (s ≤ x < s + k)%nat ∨ x = v).
  { intros x. apply (elem_of_block s k (u, v)). }
  assert (HND : NoDup blk) by (apply (NoDup_block NG); simpl; lia).
  assert (Hlt : Forall (fun r : nat => (r < N)%nat) blk).
  { apply Forall_forall. intros x Hx%Hblk. subst s. lia. }
  destruct (ix_assign_block N (k + 2) A blk MH Hshape HMH
              (length_block _ _ _) HND Hlt)
    as (A' & Hix & Hshape' & Hin & Hout & Hcount).
  exists (A', Z.of_nat (s + k)). split.
  { unfold slash_edge. simpl.
    rewrite (edge_block_spec s k (u, v)) by (simpl; lia).
    fold blk. by rewrite Hix. }
  assert (Hsym' : symmetric A').
  { intros r c.
    destruct (decide (r ∈ blk)) as [Hr|Hr]; [destruct (decide (c ∈ blk)) as [Hc|Hc]|].
    - apply list_elem_of_lookup in Hr as [i Hi].
      apply list_elem_of_lookup in Hc as [j Hj].
      rewrite (Hin i j r c Hi Hj), (Hin j i c r Hj Hi). apply HMH_sym.
    - rewrite !Hout by tauto. apply Hsym.
    - rewrite !Hout by tauto. apply Hsym. }
  assert (Hdiag' : zero_diag A').
  { intros r. destruct (decide (r ∈ blk)) as [Hr|Hr].
    - apply list_elem_of_lookup in Hr as [i Hi].
      rewrite (Hin i i r r Hi Hi). apply HMH_diag.
    - rewrite Hout by tauto. apply Hdiag. }
  assert (Hlen' : length (done ++ [(u, v)]) = S (length done)).
  { rewrite length_app. simpl. lia. }
  constructor; simpl; try done.
  - f_equal. rewrite Hlen'. subst s. lia.
  - rewrite Hcount, Hnnz, Hlen'; [lia|].
    intros r c Hr%Hblk Hc%Hblk.
    destruct (decide (entry A r c = 0)) as [|Hne]; [done|exfalso].
    apply Hsupp in Hne as [[Hrs Hcs] Hcase]. fold s in Hrs, Hcs.
    assert (Hdone : ∀ a b, (a, b) ∈ done → (a < b)%nat).
    { intros a b Hab. destruct (Hes_lt a b); [|done].
      rewrite Hes. apply elem_of_app. by left. }
    destruct Hnotdone as [Hn1 Hn2].
    destruct Hcase as [?|[?|[Hd|Hd]]]; [lia | lia | |].
    + pose proof (Hdone _ _ Hd).
      assert (r = u ∧ c = v) as [-> ->] by lia. done.
    + pose proof (Hdone _ _ Hd).
      assert (c = u ∧ r = v) as [-> ->] by lia. done.
  - intros r c Hne. rewrite Hlen'.
    destruct (decide (r ∈ blk ∧ c ∈ blk)) as [[Hr Hc]|Hnot].
    + apply Hblk in Hr, Hc. split; [subst s; lia|].
      destruct (decide (NG ≤ r)%nat); [tauto|].
      destruct (decide (NG ≤ c)%nat); [tauto|].
      right. right.
      destruct (decide (r = c)) as [->|Hrc].
      { by rewrite Hdiag' in Hne. }
      rewrite !elem_of_app, !list_elem_of_singleton.
      assert ((r = u ∧ c = v) ∨ (r = v ∧ c = u)) as [[-> ->]|[-> ->]]
        by (subst s; lia); tauto.
    + rewrite Hout in Hne by (apply not_and_l in Hnot; tauto).
      apply Hsupp in Hne as [[Hrs Hcs] Hcase]. split; [lia|].
      rewrite !elem_of_app. tauto.
Qed.

Lemma slash_loop_spec :
  ∃ st, for_each (slash_edge MH (Z.of_nat k)) es
                 (replicate N (replicate N 0), Z.of_nat NG) = Ok st
        ∧ loop_inv NG k N MH es st.
Proof.
  apply (for_each_inv _ (loop_inv NG k N MH)).
  - apply loop_inv_init.
  - intros done x todo s Hes HI. by eapply loop_inv_step.
Qed.
End slash_loop.

(** ** Valid adjacency matrices *)

Lemma sym_adj_spec M :
  sym_adj M = true ↔ shape (length M) M ∧ symmetric M ∧ zero_diag M.
Proof.
  unfold sym_adj. rewrite !andb_true_iff, is_square_shape. split.
  - intros [[HM Hs] Hd]. split_and!; [done | |].
    + intros i j.
      destruct (decide (i < length M ∧ j < length M)%nat) as [[Hi Hj]|Hn].
      * rewrite forallb_forall in Hs.
        specialize (Hs i ltac:(apply in_seq; lia)).
        rewrite forallb_forall in Hs.
        specialize (Hs j ltac:(apply in_seq; lia)). by apply Z.eqb_eq in Hs.
      * rewrite !(entry_out (length M) M) by (done || lia). done.
    + intros i. destruct (decide (i < length M)%nat) as [Hi|Hn].
      * rewrite forallb_forall in Hd.
        specialize (Hd i ltac:(apply in_seq; lia)). by apply Z.eqb_eq in Hd.
      * rewrite (entry_out (length M) M) by (done || lia). done.
  - intros (HM & Hs & Hd). split_and!; [done | |].
    + apply forallb_forall. intros i _. apply forallb_forall. intros j _.
      apply Z.eqb_eq, Hs.
    + apply forallb_forall. intros i _. apply Z.eqb_eq, Hd.
Qed.

Lemma valid_sym_adj M : valid_adj M = true → sym_adj M = true.
Proof. unfold valid_adj. by intros [? _]%andb_true_iff. Qed.

Lemma create_graph_spec M G :
  sym_adj M = true → create_graph M = Ok G →
  graph_of_matrix (length M) M G.
Proof.
  intros (HM & Hs & _)%sym_adj_spec HG.
  destruct (from_numpy_array_spec (length M) M HM Hs) as (G' & HG' & Hspec).
  unfold create_graph in HG. congruence.
Qed.

Lemma edges_lt N M G u v :
  shape N M → zero_diag M → graph_of_matrix N M G →
  (u, v) ∈ edges G → (u < v ∧ v < N)%nat.
Proof.
  intros HM Hd HG [Huv Hne]%(elem_of_edges N M G u v HG).
  destruct (entry_nonzero_lt N M u v HM Hne).
  split; [|done]. destruct (decide (u = v)) as [->|]; [|lia].
  by rewrite Hd in Hne.
Qed.

(** The result of [slash_H_into_G] on the graphs of two valid matrices,
    the second with at least two rows: the graph of a valid matrix [A] of
    the computed size, with [|E_G| * |E_H|] edges. *)
Lemma slash_H_into_G_spec MG MH G H :
  sym_adj MG = true → sym_adj MH = true →
  create_graph MG = Ok G → create_graph MH = Ok H →
  (2 ≤ length MH)%nat →
  ∃ A R, slash_H_into_G G H = Ok R
    ∧ create_graph A = Ok R
    ∧ sym_adj A = true
    ∧ length A = (length MG + length (edges G) * (length MH - 2))%nat
    ∧ length (edges R) = (length (edges G) * length (edges H))%nat.
Proof.
  intros HvG HvH HG HH Hh.
  pose proof (create_graph_spec MG G HvG HG) as HGspec.
  pose proof (create_graph_spec MH H HvH HH) as HHspec.
  apply sym_adj_spec in HvG as (HMG & HsG & HdG).
  apply sym_adj_spec in HvH as (HMH & HsH & HdH).
  set (NG := length MG) in *. set (k := (length MH - 2)%nat).
  assert (Hk : length MH = (k + 2)%nat) by (subst k; lia).
  set (N := (NG + length (edges G) * k)%nat).
  rewrite Hk in HMH, HHspec.
  destruct (slash_loop_spec NG k N MH (edges G) HMH HsH HdH
              (NoDup_edges NG MG G HGspec)
              (fun u v => edges_lt NG MG G u v HMG HdG HGspec) eq_refl)
    as ([A s] & Hloop & [HA _ HsA HdA HnA _]).
  simpl in *.
  destruct (from_numpy_array_spec N A HA HsA) as (R & HR & HRspec).
  exists A, R.
  assert (HlenA : length A = N) by (by destruct HA).
  split_and!.
  - unfold slash_H_into_G.
    rewrite (to_numpy_array_spec (k + 2) MH H HMH HHspec).
    rewrite (gm_nodes _ _ _ HGspec), (gm_nodes _ _ _ HHspec).
    unfold comp_slash_verts, np_zeros.
    replace (Z.of_nat (k + 2) - 2) with (Z.of_nat k) by lia.
    replace (Z.of_nat NG + Z.of_nat (length (edges G)) * (Z.of_nat k + 2 - 2))
      with (Z.of_nat N) by (subst N; lia).
    replace (Z.of_nat N <? 0) with false by (symmetry; apply Z.ltb_ge; lia).
    rewrite Nat2Z.id. simpl. rewrite Hloop. simpl. done.
  - done.
  - apply sym_adj_spec. by rewrite HlenA.
  - done.
  - pose proof (edges_count N A R HA HsA HdA HRspec) as H1.
    pose proof (edges_count (k + 2) MH H HMH HsH HdH HHspec) as H2.
    rewrite HnA in H1. nia.
Qed.

(** ** A second graph with fewer than two nodes

    Nothing in [slash_H_into_G] looks at the size of [H].  With fewer
    than two nodes the entries of [H]'s matrix are all zero, and so is
    whatever the loop stores. *)

Lemma entry_set_entry_cases A r c x r' c' :
  entry (set_entry A r c x) r' c' = x
  ∨ entry (set_entry A r c x) r' c' = entry A r' c'.
Proof.
  destruct (decide ((r, c) = (r', c'))) as [[= <- <-]|Hne].
  - unfold entry, set_entry. rewrite list_lookup_alter_eq.
    destruct (A !! r) as [row|]; simpl; [|by right].
    destruct (decide (c < length row)%nat).
    + left. by rewrite list_lookup_insert_eq.
    + right. by rewrite list_insert_ge by lia.
  - right. by apply entry_set_entry_ne.
Qed.

Lemma apply_writes_zero W A :
  Forall (fun w : nat * nat * Z => w.2 = 0) W → all_zero A →
  all_zero (apply_writes W A).
Proof.
  revert A. induction W as [|w W IH]; intros A HW HA; [done|].
  apply Forall_cons in HW as [Hw HW].
  change (all_zero (apply_writes W (set_entry A w.1.1 w.1.2 w.2))).
  apply IH; [done|]. intros i j.
  destruct (entry_set_entry_cases A w.1.1 w.1.2 w.2 i j) as [->| ->]; auto.
Qed.

Lemma all_zero_rows A row x : all_zero A → row ∈ A → x ∈ row → x = 0.
Proof.
  intros HA [i Hi]%list_elem_of_lookup [j Hj]%list_elem_of_lookup.
  specialize (HA i j). unfold entry in HA. by rewrite Hi in HA; simpl in HA;
    rewrite Hj in HA.
Qed.

Lemma broadcast_to_zero B nr nc B' :
  all_zero B → broadcast_to B nr nc = Ok B' → all_zero B'.
Proof.
  intros HB. unfold broadcast_to. case_match; [|done]. intros [= <-] i j.
  unfold entry. change (map ?g ?l) with (g <$> l).
  rewrite list_lookup_fmap. destruct (seq 0 nr !! i); simpl; [|done].
  change (map ?g ?l) with (g <$> l).
  rewrite list_lookup_fmap. destruct (seq 0 nc !! j); simpl; [|done].
  apply HB.
Qed.

Lemma ix_assign_zero N A rows cols B A' :
  shape N A → all_zero A → all_zero B →
  ix_assign A rows cols B = Ok A' → shape N A' ∧ all_zero A'.
Proof.
  intros HA HzA HzB. unfold ix_assign.
  destruct (broadcast_to B (length rows) (length cols)) as [B'|] eqn:HB';
    [|done]. simpl.
  destruct (norm_indices (length A) rows) as [rs|]; [|done]. simpl.
  destruct (norm_indices (ncols A) cols) as [cs|]; [|done]. simpl.
  intros [= <-]. rewrite foldl_write_row. split.
  - by apply apply_writes_shape.
  - apply apply_writes_zero; [|done].
    apply Forall_forall. intros w [[r row] [Hw Hrow]]%list_elem_of_bind.
    unfold row_writes in Hw. simpl in Hw.
    apply list_elem_of_fmap in Hw as [[c x] [-> Hcx]]. simpl.
    apply elem_of_zip_r in Hrow. apply elem_of_zip_r in Hcx.
    eapply all_zero_rows; [|done..].
    by eapply broadcast_to_zero.
Qed.

Lemma for_each_preserves {A S} (body : S → A → result S) (I : S → Prop)
    (xs : list A) (s0 s1 : S) :
  (∀ s x s', I s → body s x = Ok s' → I s') →
  I s0 → for_each body xs s0 = Ok s1 → I s1.
Proof.
  intros Hstep. revert s0. induction xs as [|x xs IH]; intros s0 H0; simpl.
  - by intros [= <-].
  - destruct (body s0 x) as [s'|] eqn:Hb; [|done]. simpl. eauto.
Qed.

Lemma small_all_zero h M :
  shape h M → zero_diag M → (h < 2)%nat → all_zero M.
Proof.
  intros HM Hd Hh i j. destruct (decide (i = j)) as [->|]; [apply Hd|].
  apply (entry_out h); [done | lia].
Qed.

Lemma slash_small_H MH G H R :
  sym_adj MH = true → create_graph MH = Ok H → (length MH < 2)%nat →
  slash_H_into_G G H = Ok R →
  ∃ A, create_graph A = Ok R ∧ shape (length A) A ∧ all_zero A
       ∧ Z.of_nat (length A) =
         comp_slash_verts (Z.of_nat (number_of_nodes G))
           (Z.of_nat (length (edges G))) (Z.of_nat (length MH))
           (Z.of_nat (length (edges H))).
Proof.
  intros HvH HH Hh.
  pose proof (create_graph_spec MH H HvH HH) as HHspec.
  apply sym_adj_spec in HvH as (HMH & HsH & HdH).
  unfold slash_H_into_G.
  rewrite (to_numpy_array_spec (length MH) MH H HMH HHspec).
  rewrite (gm_nodes _ _ _ HHspec).
  replace (Z.of_nat (length MH) - 2 + 2) with (Z.of_nat (length MH)) by lia.
  set (num := comp_slash_verts _ _ _ _).
  unfold np_zeros. destruct (num <? 0) eqn:Hnum; [done|]. simpl.
  apply Z.ltb_ge in Hnum.
  destruct (for_each _ _ _) as [st|] eqn:Hloop; [|done]. simpl.
  intros HR. exists st.1.
  assert (HI : shape (Z.to_nat num) st.1 ∧ all_zero st.1).
  { revert Hloop.
    apply (for_each_preserves _
             (fun st => shape (Z.to_nat num) st.1 ∧ all_zero st.1)).
    - intros [A s] e [A' s'] [HA HzA]. unfold slash_edge. simpl in *.
      destruct (edge_block _ s e) as [b s2].
      destruct (ix_assign A b b MH) as [A2|] eqn:Hix; [|done]. simpl.
      intros [= <- <-].
      eapply ix_assign_zero; [done | done | | done].
      by apply (small_all_zero (length MH)).
    - simpl. split; [apply shape_zeros | intros i j; apply entry_zeros]. }
  destruct HI as [[HL HF] Hz]. split_and!; [done | by rewrite HL | done | lia].
Qed.

(** ** The blocks of distinct edges *)

Lemma for_each_slash_edge MH hv es A s :
  for_each (slash_edge MH hv) es (A, s) =
  A' ← for_each (fun A b => ix_assign A b b MH) (edge_blocks hv s es) A;
  Ok (A', foldl (fun s e => (edge_block hv s e).2) s es).
Proof.
  revert A s. induction es as [|e es IH]; intros A s; simpl; [done|].
  assert (Hse : slash_edge MH hv (A, s) e =
                A' ← ix_assign A (edge_block hv s e).1 (edge_block hv s e).1 MH;
                Ok (A', (edge_block hv s e).2)).
  { unfold slash_edge. simpl. by destruct (edge_block hv s e). }
  rewrite Hse.
  destruct (ix_assign A _ _ MH) as [A2|]; simpl; [|done].
  apply IH.
Qed.

(** [slash_H_into_G] assigns the blocks of [edge_blocks], one after the
    other, and nothing else. *)
Lemma slash_H_into_G_blocks G H :
  slash_H_into_G G H =
  A ← np_zeros (comp_slash_verts (Z.of_nat (number_of_nodes G))
                  (Z.of_nat (length (edges G)))
                  (Z.of_nat (number_of_nodes H) - 2 + 2)
                  (Z.of_nat (length (edges H))));
  A' ← for_each (fun A b => ix_assign A b b (to_numpy_array H))
         (edge_blocks (Z.of_nat (number_of_nodes H) - 2)
            (Z.of_nat (number_of_nodes G)) (edges G)) A;
  from_numpy_array A'.
Proof.
  unfold slash_H_into_G.
  destruct (np_zeros _) as [A|]; [|done].
  run_bind. rewrite for_each_slash_edge.
  by destruct (for_each _ _ A).
Qed.

Lemma edge_blocks_lookup (k : nat) es :
  (∀ e, e ∈ es → (e.1 ≤ e.2)%nat) →
  ∀ (s i : nat) b,
    edge_blocks (Z.of_nat k) (Z.of_nat s) es !! i = Some b →
    ∃ e, es !! i = Some e ∧ b = Z.of_nat <$> block (s + i * k) k e.
Proof.
  induction es as [|e es IH]; intros Hle s i b; simpl; [done|].
  rewrite (edge_block_spec s k e) by (apply Hle; left). simpl.
  destruct i as [|i].
  - intros [= <-]. exists e. split; [done|]. by rewrite Nat.add_0_r.
  - change ((?x :: ?l) !! S i) with (l !! i). intros Hb. destruct (IH (fun e' He' => Hle e' (list_elem_of_further _ _ _ He'))
                           (s + k)%nat i b Hb) as (e' & He' & ->).
    exists e'. split; [done|].
    by replace (s + S i * k)%nat with (s + k + i * k)%nat by lia.
Qed.

Lemma blocks_disjoint NG (k : nat) es i j bi bj :
  NoDup es → (∀ u v, (u, v) ∈ es → (u < v ∧ v < NG)%nat) →
  i ≠ j →
  edge_blocks (Z.of_nat k) (Z.of_nat NG) es !! i = Some bi →
  edge_blocks (Z.of_nat k) (Z.of_nat NG) es !! j = Some bj →
  (∀ x, x ∈ bi → x ∈ bj → 0 ≤ x < Z.of_nat NG)
  ∧ (∀ r c, r ∈ bi → c ∈ bi → r ∈ bj → c ∈ bj → r = c).
Proof.
  intros HND Hlt Hij Hi Hj.
  assert (Hle : ∀ e, e ∈ es → (e.1 ≤ e.2)%nat).
  { intros [u v] He. destruct (Hlt u v He). simpl. lia. }
  destruct (edge_blocks_lookup k es Hle NG i bi Hi) as ([ui vi] & Hei & ->).
  destruct (edge_blocks_lookup k es Hle NG j bj Hj) as ([uj vj] & Hej & ->).
  destruct (Hlt ui vi) as [? ?]; [by eapply list_elem_of_lookup_2|].
  destruct (Hlt uj vj) as [? ?]; [by eapply list_elem_of_lookup_2|].
  assert (Hne : (ui, vi) ≠ (uj, vj)).
  { intros Heq. rewrite Heq in Hei. by apply Hij, (NoDup_lookup es i j (uj, vj)). }
  assert (Hmem : ∀ s e x, x ∈ Z.of_nat <$> block s k e ↔
            x = Z.of_nat e.1 ∨ Z.of_nat s ≤ x < Z.of_nat s + Z.of_nat k
            ∨ x = Z.of_nat e.2).
  { intros s e x. rewrite list_elem_of_fmap. split.
    - intros (y & -> & Hy%elem_of_block). lia.
    - intros Hx. exists (Z.to_nat x). rewrite elem_of_block. lia. }
  assert (Hfresh : ∀ x,
            ¬ (Z.of_nat (NG + i * k) ≤ x < Z.of_nat (NG + i * k) + Z.of_nat k
               ∧ Z.of_nat (NG + j * k) ≤ x < Z.of_nat (NG + j * k) + Z.of_nat k)).
  { intros x. nia. }
  split.
  - intros x Hxi%Hmem Hxj%Hmem. simpl in *. specialize (Hfresh x). lia.
  - intros r c Hri%Hmem Hci%Hmem Hrj%Hmem Hcj%Hmem. simpl in *.
    pose proof (Hfresh r). pose proof (Hfresh c).
    destruct (decide (r = c)) as [|Hrc]; [done|exfalso].
    apply Hne. f_equal; lia.
Qed.

(** ** The claims about [slash_H_into_G] *)

(** C1. For valid adjacency matrices (symmetric, 0/1, zero diagonal) of
    [G] and [H], [H] with at least two nodes, [slash_H_into_G G H]
    returns a graph whose number of nodes is
    [comp_slash_verts |V_G| |E_G| |V_H| |E_H|], that is
    [|V_G| + |E_G| * (|V_H| - 2)]. *)
Theorem slash_vertex_count MG MH G H :
  valid_adj MG = true → valid_adj MH = true →
  create_graph MG = Ok G → create_graph MH = Ok H →
  (2 ≤ number_of_nodes H)%nat →
  ∃ R, slash_H_into_G G H = Ok R
    ∧ Z.of_nat (number_of_nodes R) =
      comp_slash_verts (Z.of_nat (number_of_nodes G))
        (Z.of_nat (length (edges G))) (Z.of_nat (number_of_nodes H))
        (Z.of_nat (length (edges H)))
    ∧ Z.of_nat (number_of_nodes R) =
      Z.of_nat (number_of_nodes G)
      + Z.of_nat (length (edges G)) * (Z.of_nat (number_of_nodes H) - 2).
Proof.
  intros HvG%valid_sym_adj HvH%valid_sym_adj HG HH Hh.
  pose proof (gm_nodes _ _ _ (create_graph_spec MG G HvG HG)) as HnG.
  pose proof (gm_nodes _ _ _ (create_graph_spec MH H HvH HH)) as HnH.
  rewrite HnH in Hh.
  destruct (slash_H_into_G_spec MG MH G H HvG HvH HG HH Hh)
    as (A & R & HR & HRA & HvA & HlenA & _).
  pose proof (gm_nodes _ _ _ (create_graph_spec A R HvA HRA)) as HnR.
  exists R. split; [done|]. unfold comp_slash_verts.
  rewrite HnG, HnH, HnR, HlenA. split; nia.
Qed.

Lemma slash_vertex_count_witness :
  valid_adj D1_matrix = true ∧ create_graph D1_matrix = Ok D1
  ∧ (2 ≤ number_of_nodes D1)%nat
  ∧ ∃ R, slash_H_into_G D1 D1 = Ok R
    ∧ Z.of_nat (number_of_nodes R) =
      comp_slash_verts (Z.of_nat (number_of_nodes D1))
        (Z.of_nat (length (edges D1))) (Z.of_nat (number_of_nodes D1))
        (Z.of_nat (length (edges D1)))
    ∧ Z.of_nat (number_of_nodes R) =
      Z.of_nat (number_of_nodes D1)
      + Z.of_nat (length (edges D1)) * (Z.of_nat (number_of_nodes D1) - 2).
Proof.
  split; [reflexivity|]. split; [reflexivity|]. split; [vm_compute; lia|].
  apply (slash_vertex_count D1_matrix D1_matrix D1 D1);
    [reflexivity | reflexivity | reflexivity | reflexivity | vm_compute; lia].
Defined.

(** C3. When the adjacency matrices of [G] and [H] are symmetric with
    zero diagonal, so is the adjacency matrix of any graph that
    [slash_H_into_G G H] returns; and it does return one when [H] has at
    least two nodes. *)
Theorem slash_symmetric MG MH G H :
  sym_adj MG = true → sym_adj MH = true →
  create_graph MG = Ok G → create_graph MH = Ok H →
  (∀ R, slash_H_into_G G H = Ok R → sym_adj (to_numpy_array R) = true)
  ∧ ((2 ≤ number_of_nodes H)%nat → ∃ R, slash_H_into_G G H = Ok R).
Proof.
  intros HvG HvH HG HH.
  pose proof (gm_nodes _ _ _ (create_graph_spec MH H HvH HH)) as HnH.
  split.
  - intros R HR. destruct (decide (2 ≤ length MH)%nat) as [Hh|Hh].
    + destruct (slash_H_into_G_spec MG MH G H HvG HvH HG HH Hh)
        as (A & R' & HR' & HRA & HvA & _).
      assert (R' = R) as -> by congruence.
      pose proof (create_graph_spec A R HvA HRA) as HRspec.
      pose proof HvA as (HA & _)%sym_adj_spec.
      by rewrite (to_numpy_array_spec (length A) A R HA HRspec).
    + destruct (slash_small_H MH G H R HvH HH ltac:(lia) HR)
        as (A & HRA & HA & Hz & _).
      assert (HvA : sym_adj A = true).
      { apply sym_adj_spec. split_and!; [done | |].
        - intros i j. by rewrite !Hz.
        - intros i. apply Hz. }
      pose proof (create_graph_spec A R HvA HRA) as HRspec.
      by rewrite (to_numpy_array_spec (length A) A R HA HRspec).
  - rewrite HnH. intros Hh.
    destruct (slash_H_into_G_spec MG MH G H HvG HvH HG HH Hh)
      as (A & R & HR & _). eauto.
Qed.

Lemma slash_symmetric_witness :
  sym_adj D1_matrix = true ∧ create_graph D1_matrix = Ok D1
  ∧ (∀ R, slash_H_into_G D1 D1 = Ok R → sym_adj (to_numpy_array R) = true)
  ∧ ((2 ≤ number_of_nodes D1)%nat → ∃ R, slash_H_into_G D1 D1 = Ok R).
Proof.
  split; [reflexivity|]. split; [reflexivity|].
  apply (slash_symmetric D1_matrix D1_matrix D1 D1); reflexivity.
Defined.

(** C10. For valid adjacency matrices of [G] and [H], [H] with at least
    two nodes, the graph returned by [slash_H_into_G G H] has exactly
    [|E_G| * |E_H|] edges.  The function assigns the blocks of
    [edge_blocks] and nothing else; two of these blocks, of distinct
    edges of [G], share nodes of [G] only, never a new node, and have no
    off-diagonal position in common. *)
Theorem slash_edge_count MG MH G H :
  valid_adj MG = true → valid_adj MH = true →
  create_graph MG = Ok G → create_graph MH = Ok H →
  (2 ≤ number_of_nodes H)%nat →
  (∃ R, slash_H_into_G G H = Ok R
     ∧ length (edges R) = (length (edges G) * length (edges H))%nat)
  ∧ slash_H_into_G G H =
    (A ← np_zeros (comp_slash_verts (Z.of_nat (number_of_nodes G))
                     (Z.of_nat (length (edges G)))
                     (Z.of_nat (number_of_nodes H) - 2 + 2)
                     (Z.of_nat (length (edges H))));
     A' ← for_each (fun A b => ix_assign A b b (to_numpy_array H))
            (edge_blocks (Z.of_nat (number_of_nodes H) - 2)
               (Z.of_nat (number_of_nodes G)) (edges G)) A;
     from_numpy_array A')
  ∧ ∀ i j bi bj,
      i ≠ j →
      edge_blocks (Z.of_nat (number_of_nodes H) - 2)
        (Z.of_nat (number_of_nodes G)) (edges G) !! i = Some bi →
      edge_blocks (Z.of_nat (number_of_nodes H) - 2)
        (Z.of_nat (number_of_nodes G)) (edges G) !! j = Some bj →
      (∀ x, x ∈ bi → x ∈ bj → 0 ≤ x < Z.of_nat (number_of_nodes G))
      ∧ (∀ r c, r ∈ bi → c ∈ bi → r ∈ bj → c ∈ bj → r = c).
Proof.
  intros HvG%valid_sym_adj HvH%valid_sym_adj HG HH Hh.
  pose proof (create_graph_spec MG G HvG HG) as HGspec.
  pose proof (gm_nodes _ _ _ HGspec) as HnG.
  pose proof (gm_nodes _ _ _ (create_graph_spec MH H HvH HH)) as HnH.
  split_and!; [| apply slash_H_into_G_blocks |].
  - rewrite HnH in Hh.
    destruct (slash_H_into_G_spec MG MH G H HvG HvH HG HH Hh)
      as (A & R & HR & _ & _ & _ & HE). eauto.
  - intros i j bi bj Hij. rewrite HnG, HnH.
    replace (Z.of_nat (length MH) - 2) with (Z.of_nat (length MH - 2)) by lia.
    apply sym_adj_spec in HvG as (HMG & _ & HdG).
    apply (blocks_disjoint (length MG) (length MH - 2) (edges G)); [| |done].
    + by eapply NoDup_edges.
    + intros u v. by apply (edges_lt (length MG) MG G).
Qed.

Lemma slash_edge_count_witness :
  valid_adj D1_matrix = true ∧ create_graph D1_matrix = Ok D1
  ∧ (2 ≤ number_of_nodes D1)%nat
  ∧ (∃ R, slash_H_into_G D1 D1 = Ok R
       ∧ length (edges R) = (length (edges D1) * length (edges D1))%nat)
  ∧ slash_H_into_G D1 D1 =
    (A ← np_zeros (comp_slash_verts (Z.of_nat (number_of_nodes D1))
                     (Z.of_nat (length (edges D1)))
                     (Z.of_nat (number_of_nodes D1) - 2 + 2)
                     (Z.of_nat (length (edges D1))));
     A' ← for_each (fun A b => ix_assign A b b (to_numpy_array D1))
            (edge_blocks (Z.of_nat (number_of_nodes D1) - 2)
               (Z.of_nat (number_of_nodes D1)) (edges D1)) A;
     from_numpy_array A')
  ∧ ∀ i j bi bj,
      i ≠ j →
      edge_blocks (Z.of_nat (number_of_nodes D1) - 2)
        (Z.of_nat (number_of_nodes D1)) (edges D1) !! i = Some bi →
      edge_blocks (Z.of_nat (number_of_nodes D1) - 2)
        (Z.of_nat (number_of_nodes D1)) (edges D1) !! j = Some bj →
      (∀ x, x ∈ bi → x ∈ bj → 0 ≤ x < Z.of_nat (number_of_nodes D1))
      ∧ (∀ r c, r ∈ bi → c ∈ bi → r ∈ bj → c ∈ bj → r = c).
Proof.
  split; [reflexivity|]. split; [reflexivity|]. split; [vm_compute; lia|].
  apply (slash_edge_count D1_matrix D1_matrix D1 D1);
    [reflexivity | reflexivity | reflexivity | reflexivity | vm_compute; lia].
Defined.

(** ** Slash powers *)

Lemma for_each_snoc {A S} (body : S → A → result S) xs x s :
  for_each body (xs ++ [x]) s = for_each body xs s ≫= fun s' => body s' x.
Proof.
  revert s. induction xs as [|y xs IH]; intros s; simpl.
  - by destruct (body s x).
  - destruct (body s y) as [s'|]; simpl; [apply IH | done].
Qed.

Lemma py_range_snoc (a : Z) (m : nat) :
  py_range a (a + Z.of_nat (S m)) = py_range a (a + Z.of_nat m) ++ [a + Z.of_nat m].
Proof.
  unfold py_range.
  replace (Z.to_nat (a + Z.of_nat (S m) - a)) with (S m) by lia.
  replace (Z.to_nat (a + Z.of_nat m - a)) with m by lia.
  by rewrite seq_S, map_app.
Qed.

Lemma slash_power_succ G (m : nat) :
  slash_power G (Z.of_nat (S (S m))) =
  slash_power G (Z.of_nat (S m)) ≫= fun G_i => slash_H_into_G G_i G.
Proof.
  unfold slash_power.
  replace (Z.of_nat (S (S m))) with (1 + Z.of_nat (S m)) by lia.
  rewrite py_range_snoc, for_each_snoc.
  by replace (1 + Z.of_nat m) with (Z.of_nat (S m)) by lia.
Qed.

(** A first graph without edges: the loop body never runs. *)
Lemma slash_no_edges MG MH G H :
  sym_adj MG = true → sym_adj MH = true →
  create_graph MG = Ok G → create_graph MH = Ok H →
  edges G = [] →
  ∃ A R, slash_H_into_G G H = Ok R
    ∧ create_graph A = Ok R
    ∧ sym_adj A = true
    ∧ length A = length MG
    ∧ edges R = [].
Proof.
  intros HvG HvH HG HH HE.
  pose proof (gm_nodes _ _ _ (create_graph_spec MG G HvG HG)) as HnG.
  set (N := length MG) in *.
  set (A := replicate N (replicate N 0)).
  assert (HA : shape N A) by apply shape_zeros.
  assert (HsA : symmetric A) by (intros i j; unfold A; by rewrite !entry_zeros).
  assert (HdA : zero_diag A) by (intros i; apply entry_zeros).
  destruct (from_numpy_array_spec N A HA HsA) as (R & HR & HRspec).
  exists A, R. split_and!.
  - unfold slash_H_into_G. rewrite HE, HnG. simpl.
    unfold comp_slash_verts, np_zeros.
    replace (Z.of_nat N + 0 * _) with (Z.of_nat N) by lia.
    replace (Z.of_nat N <? 0) with false by (symmetry; apply Z.ltb_ge; lia).
    rewrite Nat2Z.id. simpl. done.
  - done.
  - apply sym_adj_spec. split_and!; [|done..].
    by replace (length A) with N by (by destruct HA).
  - by destruct HA.
  - pose proof (edges_count N A R HA HsA HdA HRspec) as Hc.
    unfold A in Hc. rewrite nnz_zeros in Hc.
    destruct (edges R); [done | simpl in Hc; lia].
Qed.

Lemma geom_succ E n : geom E (S n) = geom E n + E ^ Z.of_nat n.
Proof. done. Qed.

Lemma geom_closed E n : geom E n * (E - 1) = E ^ Z.of_nat n - 1.
Proof.
  induction n as [|n IH]; [done|].
  simpl geom. rewrite Nat2Z.inj_succ, Z.pow_succ_r by lia. lia.
Qed.

Lemma geom_div E n : E ≠ 1 → (E ^ Z.of_nat n - 1) / (E - 1) = geom E n.
Proof.
  intros HE. rewrite <- geom_closed. apply Z.div_mul. lia.
Qed.

(** The [n]-th slash power of the graph of a valid matrix: its numbers of
    nodes and edges. *)
Lemma slash_power_spec MG G (m : nat) :
  sym_adj MG = true → create_graph MG = Ok G →
  ∃ A R, slash_power G (Z.of_nat (S m)) = Ok R
    ∧ create_graph A = Ok R
    ∧ sym_adj A = true
    ∧ Z.of_nat (length A) =
      2 + (Z.of_nat (length MG) - 2) * geom (Z.of_nat (length (edges G))) (S m)
    ∧ Z.of_nat (length (edges R)) = Z.of_nat (length (edges G)) ^ Z.of_nat (S m).
Proof.
  intros HvG HG. induction m as [|m IH].
  - exists MG, G. split_and!; [done | done | done | simpl; lia | simpl; lia].
  - destruct IH as (A & R & HR & HRA & HvA & HlenA & HER).
    rewrite slash_power_succ, HR. run_bind.
    destruct (decide (2 ≤ length MG)%nat) as [HV|HV].
    + destruct (slash_H_into_G_spec A MG R G HvA HvG HRA HG HV)
        as (A' & R' & HR' & HRA' & HvA' & HlenA' & HER').
      exists A', R'. split_and!; [done..| |].
      * rewrite HlenA', (geom_succ _ (S m)).
        rewrite Nat2Z.inj_add, Nat2Z.inj_mul, HlenA, HER.
        replace (Z.of_nat (length MG - 2)) with (Z.of_nat (length MG) - 2) by lia.
        lia.
      * rewrite HER', Nat2Z.inj_mul, HER.
        rewrite (Nat2Z.inj_succ (S m)), Z.pow_succ_r by lia. lia.
    + assert (HEG : edges G = []).
      { destruct (edges G) as [|[u v] es] eqn:HE; [done|exfalso].
        pose proof HvG as (HMG & _ & HdG)%sym_adj_spec.
        destruct (edges_lt (length MG) MG G u v HMG HdG
                    (create_graph_spec MG G HvG HG)); [rewrite HE; left | lia]. }
      rewrite HEG in *. simpl length in *. change (Z.of_nat 0) with 0 in *.
      assert (HE0 : edges R = []).
      { destruct (edges R); [done|]. simpl length in HER.
        rewrite Z.pow_0_l in HER by lia. lia. }
      destruct (slash_no_edges A MG R G HvA HvG HRA HG HE0)
        as (A' & R' & HR' & HRA' & HvA' & HlenA' & HER').
      exists A', R'. split_and!; [done..| |].
      * rewrite HlenA', HlenA.
        rewrite (geom_succ 0 (S m)).
        rewrite (Z.pow_0_l (Z.of_nat (S m))) by lia. lia.
      * rewrite HER'. simpl length. by rewrite Z.pow_0_l by lia.
Qed.

(** ** Binary64 arithmetic is exact on small integers *)

Lemma digits2_pos_log2 p : Zpos (digits2_pos p) = Z.log2 (Zpos p) + 1.
Proof.
  assert (H : digits2_pos p = Pos.size p) by (induction p; simpl; congruence).
  rewrite H. destruct p; simpl; lia.
Qed.

Lemma Zdigits2_mul_pow2 (z k : Z) :
  0 < z → 0 ≤ k → Zdigits2 (z * 2 ^ k) = Zdigits2 z + k.
Proof.
  intros Hz Hk.
  assert (Hzk : 0 < z * 2 ^ k) by (apply Z.mul_pos_pos; [done | by apply Z.pow_pos_nonneg]).
  destruct z as [|p|p]; try lia.
  destruct (Zpos p * 2 ^ k) as [|q|q] eqn:Hq; try lia.
  simpl. rewrite !digits2_pos_log2, <- Hq.
  rewrite Z.log2_mul_pow2 by lia. lia.
Qed.

Lemma Zdigits2_bound (z : Z) :
  0 < z → z < 2 ^ 53 → 1 ≤ Zdigits2 z ≤ 53.
Proof.
  intros Hz Hlt. destruct z as [|p|p]; try lia. simpl.
  rewrite digits2_pos_log2.
  pose proof (Z.log2_nonneg (Zpos p)).
  pose proof (proj1 (Z.log2_lt_pow2 (Zpos p) 53 ltac:(lia)) Hlt). lia.
Qed.

Lemma shr_1_exact (x : Z) : shr_1 (exact (2 * x)) = exact x.
Proof. by destruct x. Qed.

Lemma pow2_double p : 2 ^ Zpos p~0 = 2 ^ Zpos p * 2 ^ Zpos p.
Proof. rewrite Pos2Z.inj_xO, <- Z.pow_add_r by lia. f_equal. lia. Qed.

Lemma pow2_double_succ p : 2 ^ Zpos p~1 = 2 * (2 ^ Zpos p * 2 ^ Zpos p).
Proof.
  rewrite Pos2Z.inj_xI.
  replace (2 * Zpos p + 1) with (1 + (Zpos p + Zpos p)) by lia.
  rewrite !Z.pow_add_r by lia. by rewrite Z.pow_1_r.
Qed.

Lemma iter_shr_1_exact p (x : Z) :
  SpecFloat.iter_pos shr_1 p (exact (x * 2 ^ Zpos p)) = exact x.
Proof.
  revert x. induction p as [p IH|p IH|]; intros x.
  - change (SpecFloat.iter_pos shr_1 p
              (SpecFloat.iter_pos shr_1 p
                 (shr_1 (exact (x * 2 ^ Zpos p~1)))) = exact x).
    rewrite pow2_double_succ.
    replace (x * (2 * (2 ^ Zpos p * 2 ^ Zpos p)))
      with (2 * ((x * 2 ^ Zpos p) * 2 ^ Zpos p)) by lia.
    by rewrite shr_1_exact, !IH.
  - change (SpecFloat.iter_pos shr_1 p
              (SpecFloat.iter_pos shr_1 p (exact (x * 2 ^ Zpos p~0)))
            = exact x).
    rewrite pow2_double, Z.mul_assoc. by rewrite !IH.
  - rewrite Z.pow_1_r, Z.mul_comm. apply shr_1_exact.
Qed.

Lemma Zpos_iter_xO m d : Zpos (Pos.iter xO m d) = Zpos m * 2 ^ Zpos d.
Proof.
  rewrite <- Z.shiftl_mul_pow2 by lia. simpl.
  by apply Pos.iter_swap_gen.
Qed.

Lemma shr_exact_pos (x e n : Z) :
  0 < n → shr (exact (x * 2 ^ n)) e n = (exact x, e + n).
Proof.
  intros Hn. destruct n as [|p|p]; try lia. simpl shr.
  by rewrite iter_shr_1_exact.
Qed.

Lemma shr_nonpos r (e n : Z) : n ≤ 0 → shr r e n = (r, e).
Proof. intros Hn. destruct n as [|p|p]; try lia; done. Qed.

Lemma cond_Zopp_abs s (mag : Z) :
  0 < mag → Z.abs (cond_Zopp s mag) = mag ∧ s = (cond_Zopp s mag <? 0).
Proof.
  intros Hmag. destruct s; simpl.
  - split; [lia|]. symmetry. apply Z.ltb_lt. lia.
  - split; [lia|]. symmetry. apply Z.ltb_ge. lia.
Qed.

(** Rounding an exact value that is an integer below [2^53] changes
    nothing. *)
Lemma round_finish_exact (s : bool) (mag t e : Z) :
  0 < mag < 2 ^ 53 → 0 ≤ t → e = - t →
  Zdigits2 mag - 53 - e ≤ 0 →
  represents
    (let '(mrs, e') :=
       shr_fexp prec emax (mag * 2 ^ t) e loc_Exact in
     match shr_m mrs with
     | 0 => S754_zero s
     | Zpos m => if e' <=? emax - prec then S754_finite s m e'
                 else S754_infinity s
     | Zneg _ => S754_nan
     end) (cond_Zopp s mag).
Proof.
  intros Hmag Ht -> Hn.
  assert (Hpos : 0 < mag * 2 ^ t).
  { apply Z.mul_pos_pos; [lia | by apply Z.pow_pos_nonneg]. }
  pose proof (Zdigits2_bound mag ltac:(lia) ltac:(lia)) as Hd.
  unfold shr_fexp. rewrite Zdigits2_mul_pow2 by lia.
  replace (Zdigits2 mag + t + - t) with (Zdigits2 mag) by lia.
  replace (fexp prec emax (Zdigits2 mag)) with (Zdigits2 mag - 53)
    by (unfold fexp, emin, prec, emax; lia).
  rewrite shr_nonpos by lia. simpl shr_m.
  destruct (mag * 2 ^ t) as [|m|m] eqn:Hm; try lia.
  replace (- t <=? emax - prec) with true
    by (symmetry; apply Z.leb_le; unfold emax, prec; lia).
  destruct (cond_Zopp_abs s mag ltac:(lia)) as [Habs Hs].
  simpl. rewrite Habs, Z.opp_involutive. split_and!; [lia | done | done].
Qed.

Lemma binary_round_aux_exact (s : bool) (mag k : Z) :
  0 < mag < 2 ^ 53 → 0 ≤ k →
  represents (binary_round_aux prec emax s (mag * 2 ^ k) (- k) loc_Exact)
             (cond_Zopp s mag).
Proof.
  intros Hmag Hk.
  pose proof (Zdigits2_bound mag ltac:(lia) ltac:(lia)) as Hd.
  assert (Hpos : 0 < mag * 2 ^ k).
  { apply Z.mul_pos_pos; [lia | by apply Z.pow_pos_nonneg]. }
  unfold binary_round_aux.
  set (n := Zdigits2 mag - 53 - - k).
  assert (Hfirst : shr_fexp prec emax (mag * 2 ^ k) (- k) loc_Exact =
                   if decide (0 < n) then (exact (mag * 2 ^ (k - n)), - k + n)
                   else (exact (mag * 2 ^ k), - k)).
  { unfold shr_fexp. rewrite Zdigits2_mul_pow2 by lia.
    replace (Zdigits2 mag + k + - k) with (Zdigits2 mag) by lia.
    replace (fexp prec emax (Zdigits2 mag)) with (Zdigits2 mag - 53)
      by (unfold fexp, emin, prec, emax; lia).
    fold n. simpl shr_record_of_loc. fold (exact (mag * 2 ^ k)).
    case_decide as Hn.
    - replace (mag * 2 ^ k) with ((mag * 2 ^ (k - n)) * 2 ^ n).
      + by apply shr_exact_pos.
      + rewrite <- Z.mul_assoc, <- Z.pow_add_r by lia. do 2 f_equal. lia.
    - by apply shr_nonpos; lia. }
  rewrite Hfirst. case_decide as Hn; simpl shr_m; simpl loc_of_shr_record;
    simpl round_nearest_even.
  - apply (round_finish_exact s mag (k - n) (- k + n)); lia.
  - apply (round_finish_exact s mag k (- k)); lia.
Qed.

Lemma int_of_float_exact f z : represents f z → int_of_float f = Ok z.
Proof.
  destruct f as [s|s| |s m e]; simpl; try done.
  - by intros ->.
  - intros (He & Hm & ->). f_equal.
    assert (Habs : (if 0 <=? e then Z.shiftl (Zpos m) e
                    else Z.shiftr (Zpos m) (- e)) = Z.abs z).
    { destruct (0 <=? e) eqn:H0.
      - apply Z.leb_le in H0. assert (e = 0) as -> by lia.
        rewrite Z.shiftl_0_r, Hm. simpl. lia.
      - rewrite Z.shiftr_div_pow2, Hm by lia.
        apply Z.div_mul. apply Z.pow_nonzero; lia. }
    rewrite Habs. destruct (z <? 0) eqn:Hz; simpl.
    + apply Z.ltb_lt in Hz. lia.
    + apply Z.ltb_ge in Hz. lia.
Qed.

Lemma shl_align_spec mx ex ex' :
  (shl_align mx ex ex').2 ≤ ex
  ∧ Zpos (shl_align mx ex ex').1 = Zpos mx * 2 ^ (ex - (shl_align mx ex ex').2).
Proof.
  unfold shl_align. destruct (ex' - ex) as [|d|d] eqn:Hd; simpl.
  - split; [lia|]. rewrite Z.sub_diag. simpl. lia.
  - split; [lia|]. rewrite Z.sub_diag. simpl. lia.
  - split; [lia|]. rewrite Zpos_iter_xO. do 2 f_equal. lia.
Qed.

Lemma binary_round_exact s (m : positive) (e mag : Z) :
  e ≤ 0 → Zpos m = mag * 2 ^ (- e) → 0 < mag < 2 ^ 53 →
  represents (binary_round prec emax s m e) (cond_Zopp s mag).
Proof.
  intros He Hm Hmag. unfold binary_round.
  set (t := fexp prec emax (Zpos (digits2_pos m) + e)).
  destruct (shl_align_spec m e t) as [Hle Hval].
  destruct (shl_align m e t) as [mz ez]. simpl in Hle, Hval.
  replace ez with (- (- ez)) by lia.
  replace (Zpos mz) with (mag * 2 ^ (- ez)).
  - apply binary_round_aux_exact; lia.
  - rewrite Hval, Hm, <- Z.mul_assoc, <- Z.pow_add_r by lia.
    do 2 f_equal. lia.
Qed.

Lemma binary_normalize_exact (M e z : Z) :
  e ≤ 0 → M = z * 2 ^ (- e) → Z.abs z < 2 ^ 53 →
  represents (binary_normalize prec emax M e false) z.
Proof.
  intros He HM Hz.
  assert (Hp : 0 < 2 ^ (- e)) by (apply Z.pow_pos_nonneg; lia).
  unfold binary_normalize. destruct M as [|m|m].
  - simpl. nia.
  - replace z with (cond_Zopp false (Z.abs z)) by (simpl; nia).
    apply binary_round_exact; [done | nia | nia].
  - replace z with (cond_Zopp true (Z.abs z)) by (simpl; nia).
    apply binary_round_exact; [done | nia | nia].
Qed.

Lemma float_of_int_exact z :
  Z.abs z < 2 ^ 53 → ∃ f, float_of_int z = Ok f ∧ represents f z.
Proof.
  intros Hz. unfold float_of_int.
  pose proof (binary_normalize_exact z 0 z ltac:(lia) ltac:(simpl; lia) Hz) as Hr.
  destruct (binary_normalize prec emax z 0 false) as [s|s| |s m e]; try done;
    eauto.
Qed.

Lemma represents_signed sx mx ex x :
  represents (S754_finite sx mx ex) x →
  ex ≤ 0 ∧ cond_Zopp sx (Zpos mx) = x * 2 ^ (- ex).
Proof.
  intros (He & Hm & ->). split; [done|]. rewrite Hm.
  destruct (x <? 0) eqn:Hx; simpl.
  - apply Z.ltb_lt in Hx. lia.
  - apply Z.ltb_ge in Hx. lia.
Qed.

Lemma SFadd_exact fx fy x y :
  represents fx x → represents fy y → Z.abs (x + y) < 2 ^ 53 →
  represents (SFadd prec emax fx fy) (x + y).
Proof.
  intros Hx Hy Hxy.
  destruct fx as [sx|sx| |sx mx ex], fy as [sy|sy| |sy my ey]; try done.
  - simpl in Hx, Hy. subst. by destruct sx, sy.
  - simpl in Hx. subst. by rewrite Z.add_0_l.
  - simpl in Hy. subst. by rewrite Z.add_0_r.
  - apply represents_signed in Hx as [Hex Hvx].
    apply represents_signed in Hy as [Hey Hvy].
    unfold SFadd.
    set (ez := Z.min ex ey).
    destruct (shl_align_spec mx ex ez) as [_ Hax].
    destruct (shl_align_spec my ey ez) as [_ Hay].
    assert (Hsx : (shl_align mx ex ez).2 = ez).
    { unfold shl_align. destruct (ez - ex) eqn:?; simpl; lia. }
    assert (Hsy : (shl_align my ey ez).2 = ez).
    { unfold shl_align. destruct (ez - ey) eqn:?; simpl; lia. }
    rewrite Hsx in Hax. rewrite Hsy in Hay.
    apply binary_normalize_exact; [lia | | done].
    assert (Hcx : cond_Zopp sx (Zpos (shl_align mx ex ez).1) = x * 2 ^ (- ez)).
    { rewrite Hax. replace (- ez) with (- ex + (ex - ez)) by lia.
      rewrite Z.pow_add_r, Z.mul_assoc, <- Hvx by lia.
      by destruct sx; simpl; lia. }
    assert (Hcy : cond_Zopp sy (Zpos (shl_align my ey ez).1) = y * 2 ^ (- ez)).
    { rewrite Hay. replace (- ez) with (- ey + (ey - ez)) by lia.
      rewrite Z.pow_add_r, Z.mul_assoc, <- Hvy by lia.
      by destruct sy; simpl; lia. }
    rewrite Hcx, Hcy. lia.
Qed.

Lemma int_mantissa_nonzero z :
  z ≠ 0 → int_mantissa z = S754_finite (z <? 0) (Z.to_pos (Z.abs z)) 0.
Proof. by destruct z. Qed.

Lemma div_eucl_exact (q b : Z) : 0 < b → Z.div_eucl (q * b) b = (q, 0).
Proof.
  intros Hb. pose proof (Z.div_mul q b ltac:(lia)) as Hd.
  pose proof (Z.mod_mul q b ltac:(lia)) as Hm.
  unfold Z.div, Z.modulo in Hd, Hm.
  destruct (Z.div_eucl (q * b) b). simpl in *. by subst.
Qed.

Lemma new_location_exact nb : new_location nb 0 = loc_Exact.
Proof.
  unfold new_location, new_location_even, new_location_odd.
  by destruct (Z.even nb).
Qed.

Lemma Zdigits2_le (a b : Z) : 0 < a → a ≤ b → Zdigits2 a ≤ Zdigits2 b.
Proof.
  intros Ha Hab. destruct a as [|p|p], b as [|p'|p']; try lia.
  simpl. rewrite !digits2_pos_log2.
  pose proof (Z.log2_le_mono (Zpos p) (Zpos p') Hab). lia.
Qed.

Lemma int_true_divide_exact (q b : Z) :
  b ≠ 0 → Z.abs q < 2 ^ 53 →
  ∃ f, int_true_divide (q * b) b = Ok (PyFloat f) ∧ represents f q.
Proof.
  intros Hb Hq. unfold int_true_divide.
  rewrite (proj2 (Z.eqb_neq b 0)) by done.
  destruct (decide (q = 0)) as [->|Hq0].
  { simpl. eexists. split; [done|]. done. }
  rewrite (proj2 (Z.eqb_neq (q * b) 0)) by nia.
  rewrite (int_mantissa_nonzero (q * b)), (int_mantissa_nonzero b) by nia.
  set (ma := Z.abs (q * b)). set (mb := Z.abs b). set (mq := Z.abs q).
  assert (Hma : ma = mq * mb) by (subst ma mb mq; apply Z.abs_mul).
  assert (Hmb : 0 < mb) by (subst mb; lia).
  assert (Hmq : 0 < mq) by (subst mq; lia).
  unfold SFdiv, SFdiv_core_binary.
  rewrite !Z2Pos.id by nia.
  set (d1 := Zdigits2 ma). set (d2 := Zdigits2 mb).
  assert (Hd : d1 ≤ d2 + 53).
  { subst d1 d2. rewrite <- (Zdigits2_mul_pow2 mb 53) by lia.
    apply Zdigits2_le; [nia|]. rewrite Hma. subst mq. nia. }
  assert (Hd' : d2 ≤ d1).
  { subst d1 d2. apply Zdigits2_le; [lia | nia]. }
  replace (d1 + 0 - (d2 + 0)) with (d1 - d2) by lia.
  set (e' := Z.min (fexp prec emax (d1 - d2)) (0 - 0)).
  assert (He' : e' ≤ 0) by (subst e'; lia).
  set (s := 0 - 0 - e').
  assert (Hs0 : 0 ≤ s) by (subst s; lia).
  assert (Hes : e' = - s) by (subst s; lia).
  clearbody s. clearbody e'.
  assert (Hshift : match s with
                   | 0 => ma
                   | Zpos _ => Z.shiftl ma s
                   | Zneg _ => 0
                   end = (mq * 2 ^ s) * mb).
  { destruct s as [|p|p]; [rewrite Hma, Z.pow_0_r; ring | | lia].
    rewrite Z.shiftl_mul_pow2, Hma by lia. ring. }
  rewrite Hshift, div_eucl_exact by done.
  rewrite new_location_exact, Hes.
  pose proof (binary_round_aux_exact (xorb (q * b <? 0) (b <? 0)) mq s
                ltac:(lia) Hs0) as Hr.
  assert (Hsign : cond_Zopp (xorb (q * b <? 0) (b <? 0)) mq = q).
  { subst mq. destruct (q * b <? 0) eqn:H1, (b <? 0) eqn:H2; simpl;
      rewrite ?Z.ltb_lt, ?Z.ltb_ge in *; nia. }
  rewrite Hsign in Hr.
  destruct (binary_round_aux _ _ _ _ _ _) as [sf|sf| |sf mf ef]; try done; eauto.
Qed.

(** The closed form at a nonnegative power: an integer, computed exactly
    while it stays below [2^53]. *)
Lemma comp_slash_power_verts_exact (V E n : Z) :
  E ≠ 1 → 0 ≤ n →
  Z.abs ((V - 2) * ((E ^ n - 1) / (E - 1))) < 2 ^ 53 →
  Z.abs (2 + (V - 2) * ((E ^ n - 1) / (E - 1))) < 2 ^ 53 →
  comp_slash_power_verts V E n = Ok (2 + (V - 2) * ((E ^ n - 1) / (E - 1))).
Proof.
  intros HE Hn HQ HQ2.
  set (Q := (V - 2) * ((E ^ n - 1) / (E - 1))) in *.
  assert (Hnum : (V - 2) * (E ^ n - 1) = Q * (E - 1)).
  { subst Q. rewrite <- (Z2Nat.id n) by done.
    rewrite geom_div by done. rewrite <- geom_closed. lia. }
  unfold comp_slash_power_verts, int_pow.
  rewrite (proj2 (Z.ltb_ge n 0)) by lia. simpl.
  rewrite Hnum.
  destruct (int_true_divide_exact Q (E - 1) ltac:(lia) HQ) as (f & Hf & Hrep).
  rewrite Hf. cbn [mbind result_bind rbind py_add float_arith to_float py_int].
  destruct (float_of_int_exact 2 ltac:(simpl; lia)) as (two & Htwo & Hrep2).
  rewrite Htwo. cbn [mbind result_bind rbind py_int].
  apply int_of_float_exact. by apply SFadd_exact.
Qed.

(** ** The claims about [slash_power] and the vertex-count formulas *)

(** The in-range part of C2: the [n]-th slash power of a valid graph
    whose number of edges is not 1 has
    [2 + (|V| - 2) * (|E|^n - 1) / (|E| - 1)] nodes, and
    [comp_slash_power_verts] returns this number as long as it is below
    [2^53]. *)
Theorem slash_power_vertex_count MG G (n : Z) :
  valid_adj MG = true → create_graph MG = Ok G →
  length (edges G) ≠ 1%nat → 1 ≤ n →
  ∃ R, slash_power G n = Ok R
    ∧ Z.of_nat (number_of_nodes R) =
      2 + (Z.of_nat (number_of_nodes G) - 2)
          * ((Z.of_nat (length (edges G)) ^ n - 1)
             / (Z.of_nat (length (edges G)) - 1))
    ∧ (Z.of_nat (number_of_nodes R) < 2 ^ 53 →
       comp_slash_power_verts (Z.of_nat (number_of_nodes G))
         (Z.of_nat (length (edges G))) n
       = Ok (Z.of_nat (number_of_nodes R))).
Proof.
  intros HvG%valid_sym_adj HG HE Hn.
  pose proof (gm_nodes _ _ _ (create_graph_spec MG G HvG HG)) as HnG.
  replace n with (Z.of_nat (S (Z.to_nat (n - 1)))) in * by lia.
  set (m := Z.to_nat (n - 1)) in *.
  destruct (slash_power_spec MG G m HvG HG) as (A & R & HR & HRA & HvA & HlenA & _).
  pose proof (gm_nodes _ _ _ (create_graph_spec A R HvA HRA)) as HnR.
  exists R. rewrite HnG, HnR, HlenA.
  rewrite geom_div by lia. split_and!; [done..|].
  intros Hlt. rewrite <- (geom_div _ (S m)) in * by lia.
  apply comp_slash_power_verts_exact; lia.
Qed.

Lemma slash_power_vertex_count_witness :
  valid_adj D1_matrix = true ∧ create_graph D1_matrix = Ok D1
  ∧ length (edges D1) ≠ 1%nat ∧ 1 ≤ 2
  ∧ ∃ R, slash_power D1 2 = Ok R
    ∧ Z.of_nat (number_of_nodes R) =
      2 + (Z.of_nat (number_of_nodes D1) - 2)
          * ((Z.of_nat (length (edges D1)) ^ 2 - 1)
             / (Z.of_nat (length (edges D1)) - 1))
    ∧ (Z.of_nat (number_of_nodes R) < 2 ^ 53 →
       comp_slash_power_verts (Z.of_nat (number_of_nodes D1))
         (Z.of_nat (length (edges D1))) 2
       = Ok (Z.of_nat (number_of_nodes R))).
Proof.
  split; [reflexivity|]. split; [reflexivity|].
  split; [vm_compute; lia|]. split; [lia|].
  apply (slash_power_vertex_count D1_matrix D1 2);
    [reflexivity | reflexivity | vm_compute; lia | lia].
Defined.

(** C2, where the code departs from it.  The 28th slash power of the
    diamond graph has 48038396025285292 nodes, the value of the closed
    form; [comp_slash_power_verts 4 4 28] returns 48038396025285288,
    the quotient having been rounded to a binary64 float. *)
Theorem comp_slash_power_verts_rounds :
  create_graph D1_matrix = Ok D1
  ∧ number_of_nodes D1 = 4%nat ∧ length (edges D1) = 4%nat
  ∧ (∃ R, slash_power D1 28 = Ok R
       ∧ Z.of_nat (number_of_nodes R) = 48038396025285292)
  ∧ 2 + (4 - 2) * ((4 ^ 28 - 1) / (4 - 1)) = 48038396025285292
  ∧ comp_slash_power_verts 4 4 28 = Ok 48038396025285288.
Proof.
  split; [reflexivity|]. split; [reflexivity|]. split; [reflexivity|].
  split; [|split; vm_compute; reflexivity].
  assert (Hv : sym_adj D1_matrix = true) by reflexivity.
  assert (HD : create_graph D1_matrix = Ok D1) by reflexivity.
  destruct (slash_power_spec D1_matrix D1 27 Hv HD)
    as (A & R & HR & HRA & HvA & HlenA & _).
  exists R. split; [exact HR|].
  rewrite (gm_nodes _ _ _ (create_graph_spec A R HvA HRA)), HlenA.
  vm_compute. reflexivity.
Qed.

(** C4. For every graph [G] and every [n <= 1], [slash_power G n]
    returns [G] itself, the loop running zero times; in particular the
    adjacency matrix of [slash_power G 1] is that of [G]. *)
Theorem slash_power_le_1 (G : Graph) (n : Z) :
  n ≤ 1 →
  slash_power G n = Ok G
  ∧ ∀ R, slash_power G n = Ok R → to_numpy_array R = to_numpy_array G.
Proof.
  intros Hn.
  assert (H : slash_power G n = Ok G).
  { unfold slash_power, py_range.
    by replace (Z.to_nat (n - 1)) with 0%nat by lia. }
  split; [done|]. intros R. rewrite H. by intros [= <-].
Qed.

Lemma slash_power_le_1_witness :
  1 ≤ 1
  ∧ slash_power D1 1 = Ok D1
  ∧ ∀ R, slash_power D1 1 = Ok R → to_numpy_array R = to_numpy_array D1.
Proof. split; [lia|]. apply (slash_power_le_1 D1 1). lia. Defined.

(** C5. For every graph [G], [slash_power G 3] is
    [slash_H_into_G (slash_H_into_G G G) G]: the same result (the same
    graph, hence the same number of nodes and the same adjacency matrix,
    the edges being enumerated in the one order of [edges]; or the same
    exception). *)
Theorem slash_power_3 (G : Graph) :
  slash_power G 3 = (G2 ← slash_H_into_G G G; slash_H_into_G G2 G).
Proof.
  unfold slash_power. simpl.
  destruct (slash_H_into_G G G) as [G2|]; simpl; [|done].
  by destruct (slash_H_into_G G2 G).
Qed.

(** C6. For the diamond graph [D1]: [comp_slash_verts 4 4 4 4] is 12,
    [comp_slash_power_verts 4 4 2] returns 12, and [slash_power D1 2] is
    a graph with 12 nodes and 16 edges. *)
Theorem diamond_scenario :
  create_graph D1_matrix = Ok D1
  ∧ comp_slash_verts 4 4 4 4 = 12
  ∧ comp_slash_power_verts 4 4 2 = Ok 12
  ∧ ∃ D2, slash_power D1 2 = Ok D2
      ∧ number_of_nodes D2 = 12%nat ∧ length (edges D2) = 16%nat.
Proof.
  split; [reflexivity|]. split; [reflexivity|]. split; [reflexivity|].
  destruct (slash_power D1 2) as [D2|] eqn:H; [|by vm_compute in H].
  exists D2. split; [done|]. vm_compute in H.
  injection H as <-. split; reflexivity.
Qed.

Lemma closed_form_integral (V E n : Z) :
  E ≠ 1 → 0 ≤ n →
  (closed_form V E n ==
   inject_Z (2 + (V - 2) * ((E ^ n - 1) / (E - 1))))%Q.
Proof.
  intros HE Hn. unfold closed_form.
  rewrite <- (Z2Nat.id n) by done. rewrite geom_div by done.
  set (g := geom E (Z.to_nat n)).
  assert (Hg : (inject_Z E ^ Z.of_nat (Z.to_nat n) - 1 ==
                inject_Z g * (inject_Z E - 1))%Q).
  { rewrite <- Zpower_Qpower by lia.
    change 1%Q with (inject_Z 1). unfold Qminus.
    rewrite <- !inject_Z_opp, <- !inject_Z_plus, <- inject_Z_mult.
    apply inject_Z_injective.
    pose proof (geom_closed E (Z.to_nat n)). subst g. lia. }
  rewrite Hg, inject_Z_plus, inject_Z_mult. unfold Z.sub.
  rewrite inject_Z_plus.
  change (inject_Z 2) with 2%Q. change (inject_Z (- (2))) with (- (2))%Q.
  assert (Hne : ¬ (inject_Z E - 1 == 0)%Q).
  { change 1%Q with (inject_Z 1). unfold Qminus.
    rewrite <- inject_Z_opp, <- inject_Z_plus.
    change 0%Q with (inject_Z 0). rewrite inject_Z_injective. lia. }
  field. exact Hne.
Qed.

(** C7 as stated fails: at [(3, 2, -1)] the closed form is [3/2], not an
    integer, and [comp_slash_power_verts] returns 1 without an error. *)
Lemma comp_slash_power_verts_truncates :
  ¬ (∀ V E n : Z,
       E ≠ 1 → ¬ is_integer (closed_form V E n) →
       raises (comp_slash_power_verts V E n)).
Proof.
  intros H. destruct (H 3 2 (-1)) as [e He].
  - lia.
  - intros [z Hz]. unfold closed_form, Qeq in Hz. vm_compute in Hz.
    destruct z as [|p|p]; try discriminate; destruct p; discriminate.
  - vm_compute in He. discriminate.
Qed.

(** C7, amended.  [comp_slash_power_verts] never tests whether the
    closed form is an integer; it returns the float it computed,
    truncated towards zero.  For [initial_edges <> 1] and a nonnegative
    iteration number the closed form is always an integer, and the
    function returns exactly this integer when it is below [2^53] in
    absolute value (as is the quotient); at [(3, 2, -1)], where the closed
    form is [3/2], it returns 1. *)
Theorem comp_slash_power_verts_integral (V E n : Z) :
  E ≠ 1 → 0 ≤ n →
  is_integer (closed_form V E n)
  ∧ (closed_form V E n ==
     inject_Z (2 + (V - 2) * ((E ^ n - 1) / (E - 1))))%Q
  ∧ (Z.abs ((V - 2) * ((E ^ n - 1) / (E - 1))) < 2 ^ 53 →
     Z.abs (2 + (V - 2) * ((E ^ n - 1) / (E - 1))) < 2 ^ 53 →
     comp_slash_power_verts V E n
     = Ok (2 + (V - 2) * ((E ^ n - 1) / (E - 1))))
  ∧ (closed_form 3 2 (-1) == 3 # 2)%Q
  ∧ comp_slash_power_verts 3 2 (-1) = Ok 1.
Proof.
  intros HE Hn.
  pose proof (closed_form_integral V E n HE Hn) as Hc.
  split_and!.
  - by eexists.
  - done.
  - by apply comp_slash_power_verts_exact.
  - reflexivity.
  - reflexivity.
Qed.

Lemma comp_slash_power_verts_integral_witness :
  4 ≠ 1 ∧ 0 ≤ 2
  ∧ is_integer (closed_form 4 4 2)
  ∧ (closed_form 4 4 2 ==
     inject_Z (2 + (4 - 2) * ((4 ^ 2 - 1) / (4 - 1))))%Q
  ∧ (Z.abs ((4 - 2) * ((4 ^ 2 - 1) / (4 - 1))) < 2 ^ 53 →
     Z.abs (2 + (4 - 2) * ((4 ^ 2 - 1) / (4 - 1))) < 2 ^ 53 →
     comp_slash_power_verts 4 4 2
     = Ok (2 + (4 - 2) * ((4 ^ 2 - 1) / (4 - 1))))
  ∧ (closed_form 3 2 (-1) == 3 # 2)%Q
  ∧ comp_slash_power_verts 3 2 (-1) = Ok 1.
Proof.
  split; [lia|]. split; [lia|].
  apply (comp_slash_power_verts_integral 4 4 2); lia.
Defined.

(** C9. Calling [comp_slash_power_verts] with [initial_edges = 1] fails
    at the call instead of returning a value: the division by
    [initial_edges - 1], which is zero, raises.  The exception is Python's
    [ZeroDivisionError] for every nonnegative iteration number; with a
    negative one, an int too large for a float may raise [OverflowError]
    before the division is reached. *)
Theorem comp_slash_power_verts_one_edge (V n : Z) :
  raises (comp_slash_power_verts V 1 n)
  ∧ comp_slash_power_verts V 1 (Z.abs n) = Raise ZeroDivisionError.
Proof.
  assert (Hnn : ∀ m, 0 ≤ m →
            comp_slash_power_verts V 1 m = Raise ZeroDivisionError).
  { intros m Hm. unfold comp_slash_power_verts, int_pow.
    by rewrite (proj2 (Z.ltb_ge m 0)) by lia. }
  split; [|apply Hnn; lia].
  destruct (decide (0 ≤ n)) as [Hn|Hn]; [by eexists; apply Hnn|].
  unfold raises, comp_slash_power_verts, int_pow.
  rewrite (proj2 (Z.ltb_lt n 0)) by lia.
  cbn [mbind result_bind rbind py_sub].
  destruct (float_pow_neg 1 n) as [p|e]; [|by eexists].
  run_bind.
  destruct (py_sub p (PyInt 1)) as [p1|e]; [|by eexists].
  run_bind.
  destruct (py_mul (PyInt (V - 2)) p1) as [num|e]; [|by eexists].
  run_bind.
  replace (py_truediv num (PyInt (1 - 1))) with
    (Raise ZeroDivisionError : result pynum); [by eexists|].
  by destruct num.
Qed.

(** ** A second graph with fewer than two nodes: the claim *)

Lemma nnz_all_zero N A : shape N A → all_zero A → nnz A = 0%nat.
Proof.
  intros HA Hz. rewrite (nnz_pairs N A HA).
  induction (pairs N) as [|uv l IH]; [done|].
  rewrite filter_cons, decide_False; [done|]. rewrite Hz. tauto.
Qed.

(** C8 as stated fails: for the graph with nodes 0..3 and the single edge
    (0, 1), and [H] a single node, [slash_H_into_G] returns a graph (three
    nodes, no edge) and raises nothing. *)
Lemma slash_one_node_H_returns :
  ¬ (∀ MG MH G H,
       valid_adj MG = true → valid_adj MH = true →
       create_graph MG = Ok G → create_graph MH = Ok H →
       (number_of_nodes H < 2)%nat →
       raises (slash_H_into_G G H)).
Proof.
  intros Hall.
  destruct (Hall edge_and_two_matrix single_node_matrix
              edge_and_two single_node) as [e He];
    [reflexivity | reflexivity | reflexivity | reflexivity
    | vm_compute; lia |].
  vm_compute in He. discriminate.
Qed.

Lemma set_entry_same A r c x : entry A r c = x → set_entry A r c x = A.
Proof.
  unfold entry, set_entry. intros Hx. apply list_eq. intros i.
  rewrite list_lookup_alter. case_decide as Hi; [|done]. subst i.
  destruct (A !! r) as [row|]; simpl in *; [|done]. f_equal.
  destruct (row !! c) as [y|] eqn:Hy; simpl in Hx.
  - subst. by apply list_insert_id.
  - apply list_insert_ge. by apply lookup_ge_None.
Qed.

Lemma apply_writes_same W A :
  Forall (fun w : nat * nat * Z => w.2 = 0) W → all_zero A →
  apply_writes W A = A.
Proof.
  induction 1 as [|w W Hw _ IH]; intros HA; [done|].
  change (apply_writes W (set_entry A w.1.1 w.1.2 w.2) = A).
  rewrite set_entry_same by (by rewrite Hw). by apply IH.
Qed.

Lemma norm_index_of_nat_inv N (r : nat) r' :
  norm_index N (Z.of_nat r) = Ok r' → (r < N)%nat.
Proof.
  unfold norm_index.
  destruct ((0 <=? Z.of_nat r) && (Z.of_nat r <? Z.of_nat N)) eqn:H1.
  - apply andb_true_iff in H1 as [_ H1%Z.ltb_lt]. lia.
  - destruct ((- Z.of_nat N <=? Z.of_nat r) && (Z.of_nat r <? 0)) eqn:H2;
      [|done].
    apply andb_true_iff in H2 as [_ H2%Z.ltb_lt]. lia.
Qed.

Lemma norm_indices_of_nat_inv N (blk : list nat) rs :
  norm_indices N (Z.of_nat <$> blk) = Ok rs →
  Forall (fun r : nat => (r < N)%nat) blk.
Proof.
  revert rs. induction blk as [|r blk IH]; intros rs; csimpl; [done|].
  destruct (norm_index N (Z.of_nat r)) as [r'|] eqn:Hr; [|done]. csimpl.
  destruct (norm_indices N (Z.of_nat <$> blk)) as [rs'|] eqn:Hrs; [|done].
  intros _. constructor; [by eapply norm_index_of_nat_inv | by eapply IH].
Qed.

(** With no new nodes to add, the block of an edge is its two ends. *)
Lemma edge_block_small (hv : Z) (s : Z) (e : nat * nat) :
  hv ≤ 0 →
  edge_block hv s e = (Z.of_nat <$> [Nat.min e.1 e.2; Nat.max e.1 e.2], s).
Proof.
  intros Hhv. unfold edge_block, py_range.
  replace (Z.to_nat (s + hv - s)) with 0%nat by lia.
  case_bool_decide; simpl; repeat f_equal; lia.
Qed.

Lemma for_each_all {A S} (body : S → A → result S) (I : S → Prop)
    (P : A → Prop) (xs : list A) (s0 s1 : S) :
  (∀ s x s', I s → body s x = Ok s' → I s' ∧ P x) →
  I s0 → for_each body xs s0 = Ok s1 → Forall P xs.
Proof.
  intros Hstep. revert s0. induction xs as [|x xs IH]; intros s0 H0; simpl.
  - constructor.
  - destruct (body s0 x) as [s'|] eqn:Hb; [|done]. simpl. intros Hrest.
    destruct (Hstep s0 x s' H0 Hb) as [H1 HP]. constructor; eauto.
Qed.

Lemma for_each_fixed {A S} (body : S → A → result S) (xs : list A) (s : S) :
  Forall (fun x => body s x = Ok s) xs → for_each body xs s = Ok s.
Proof.
  induction 1 as [|x xs Hx _ IH]; simpl; [done|]. by rewrite Hx.
Qed.

Lemma ix_assign_zero_same N A (blk : list nat) B B' :
  shape N A → all_zero A → all_zero B →
  broadcast_to B (length blk) (length blk) = Ok B' →
  Forall (fun r : nat => (r < N)%nat) blk →
  ix_assign A (Z.of_nat <$> blk) (Z.of_nat <$> blk) B = Ok A.
Proof.
  intros HA HzA HzB HB Hlt. unfold ix_assign.
  rewrite !length_fmap, HB. run_bind.
  destruct HA as [HAl HAf].
  rewrite HAl, (norm_indices_of_nat N _ Hlt).
  run_bind.
  rewrite (ncols_shape N A (conj HAl HAf)), (norm_indices_of_nat N _ Hlt).
  run_bind.
  rewrite foldl_write_row, apply_writes_same; [done | | done].
  apply Forall_forall. intros w [[r row] [Hw Hrow]]%list_elem_of_bind.
  unfold row_writes in Hw. simpl in Hw.
  apply list_elem_of_fmap in Hw as [[c x] [-> Hcx]]. simpl.
  apply elem_of_zip_r in Hrow. apply elem_of_zip_r in Hcx.
  eapply all_zero_rows; [|done..].
  by eapply broadcast_to_zero.
Qed.

Section small_H.
Variables (MG MH : ndarray) (G H : Graph).
Hypothesis HvG : sym_adj MG = true.
Hypothesis HvH : sym_adj MH = true.
Hypothesis HG : create_graph MG = Ok G.
Hypothesis HH : create_graph MH = Ok H.
Hypothesis Hh : (length MH < 2)%nat.

Lemma small_H_nodes : number_of_nodes H = length MH.
Proof. apply (gm_nodes _ _ _ (create_graph_spec MH H HvH HH)). Qed.

Lemma small_H_matrix : to_numpy_array H = MH ∧ all_zero MH.
Proof.
  pose proof (create_graph_spec MH H HvH HH) as HHspec.
  pose proof HvH as (HMH & _ & HdH)%sym_adj_spec. split.
  - by apply (to_numpy_array_spec (length MH)).
  - by apply (small_all_zero (length MH)).
Qed.

Lemma small_H_edges_le e : e ∈ edges G → (e.1 ≤ e.2)%nat.
Proof.
  destruct e as [u v]. intros He.
  pose proof HvG as (HMG & _ & HdG)%sym_adj_spec.
  destruct (edges_lt (length MG) MG G u v HMG HdG
              (create_graph_spec MG G HvG HG) He). simpl. lia.
Qed.

(** Whenever the call returns, [H] had its single node and the ends of
    all edges of [G] were indices of the new matrix. *)
Lemma small_H_returns_inv R :
  slash_H_into_G G H = Ok R →
  Forall (fun e : nat * nat =>
            number_of_nodes H = 1%nat
            ∧ Z.of_nat e.2 <
              comp_slash_verts (Z.of_nat (number_of_nodes G))
                (Z.of_nat (length (edges G))) (Z.of_nat (number_of_nodes H))
                (Z.of_nat (length (edges H)))) (edges G).
Proof.
  destruct small_H_matrix as [HMH Hz]. pose proof small_H_nodes as HnH.
  unfold slash_H_into_G. rewrite HMH.
  replace (Z.of_nat (number_of_nodes H) - 2 + 2)
    with (Z.of_nat (number_of_nodes H)) by lia.
  set (size := comp_slash_verts _ _ _ _). unfold np_zeros.
  destruct (size <? 0) eqn:Hsize; [done|]. apply Z.ltb_ge in Hsize.
  run_bind.
  destruct (for_each _ _ _) as [st|] eqn:Hloop; [|done]. intros _.
  cut (Forall (fun e : nat * nat =>
                 number_of_nodes H = 1%nat
                 ∧ Z.of_nat (Nat.max e.1 e.2) < size) (edges G)).
  { rewrite !Forall_forall. intros Hall e He.
    destruct (Hall e He) as [? ?]. pose proof (small_H_edges_le e He).
    split; [done | lia]. }
  revert Hloop.
  apply (for_each_all _ (fun st => length st.1 = Z.to_nat size)).
  - intros [A s] e [A' s'] HA. simpl in HA.
    unfold slash_edge. simpl.
    rewrite edge_block_small by lia.
    destruct (ix_assign A _ _ MH) as [A2|] eqn:Hix; [|done].
    run_bind. intros [= <- <-]. simpl.
    revert Hix. unfold ix_assign. rewrite !length_fmap. simpl length.
    destruct (broadcast_to MH 2 2) as [B'|] eqn:HB; [|done].
    run_bind.
    destruct (norm_indices (length A) _) as [rs|] eqn:Hrs; [|done].
    run_bind.
    destruct (norm_indices (ncols A) _) as [cs|] eqn:Hcs; [|done].
    run_bind. intros [= <-].
    split_and!.
    + rewrite foldl_write_row. clear -HA.
      generalize (zip rs B' ≫= row_writes cs). intros W. revert A HA.
      induction W as [|w W IH]; intros A HA; [done|].
      apply IH. unfold set_entry. by rewrite length_alter.
    + unfold broadcast_to in HB. rewrite <- HnH in Hh.
      destruct (decide (number_of_nodes H = 1%nat)) as [|Hne]; [done|].
      rewrite HnH in Hne. destruct MH as [|row0 MH']; simpl in *; [done|lia].
    + apply norm_indices_of_nat_inv in Hrs.
      apply Forall_cons in Hrs as [_ [Hmax _]%Forall_cons]. lia.
  - simpl. by rewrite length_replicate.
Qed.

(** When the ends of all edges of [G] are indices of the new matrix, the
    loop stores zeros over zeros and the call returns. *)
Lemma small_H_returns :
  edges G = []
  ∨ (number_of_nodes H = 1%nat
     ∧ Forall (fun e : nat * nat =>
                 Z.of_nat e.2 <
                 comp_slash_verts (Z.of_nat (number_of_nodes G))
                   (Z.of_nat (length (edges G)))
                   (Z.of_nat (number_of_nodes H))
                   (Z.of_nat (length (edges H)))) (edges G)) →
  ∃ R, slash_H_into_G G H = Ok R.
Proof.
  set (size := comp_slash_verts _ _ _ _).
  intros [HE|[Hone Hall]].
  { destruct (slash_no_edges MG MH G H HvG HvH HG HH HE) as (A & R & HR & _).
    eauto. }
  destruct small_H_matrix as [HMH Hz]. pose proof small_H_nodes as HnH.
  destruct (decide (edges G = [])) as [HE|HE].
  { destruct (slash_no_edges MG MH G H HvG HvH HG HH HE) as (A & R & HR & _).
    eauto. }
  assert (Hsize : 0 ≤ size).
  { destruct (edges G) as [|e es]; [done|].
    apply Forall_cons in Hall as [He _]. lia. }
  set (N := Z.to_nat size).
  set (A := replicate N (replicate N 0)).
  assert (HA : shape N A) by apply shape_zeros.
  assert (HzA : all_zero A) by (intros i j; apply entry_zeros).
  destruct (from_numpy_array_spec N A HA) as (R & HR & _).
  { intros i j. by rewrite !HzA. }
  exists R. unfold slash_H_into_G. rewrite HMH.
  replace (Z.of_nat (number_of_nodes H) - 2 + 2)
    with (Z.of_nat (number_of_nodes H)) by lia.
  fold size. unfold np_zeros.
  rewrite (proj2 (Z.ltb_ge size 0)) by done.
  run_bind. fold N. fold A.
  rewrite for_each_fixed; [done|].
  apply Forall_forall. intros e He.
  pose proof (small_H_edges_le e He) as Hle.
  rewrite Forall_forall in Hall. specialize (Hall e He).
  unfold slash_edge. simpl. rewrite edge_block_small by lia.
  replace (Nat.min e.1 e.2) with e.1 by lia.
  replace (Nat.max e.1 e.2) with e.2 by lia.
  destruct (broadcast_to MH 2 2) as [B'|] eqn:HB; last first.
  { unfold broadcast_to in HB. rewrite <- HnH, Hone in HB.
    assert (Hc : ncols MH = 1%nat).
    { pose proof HvH as (HMHs & _)%sym_adj_spec.
      rewrite (ncols_shape _ _ HMHs). lia. }
    by rewrite Hc in HB. }
  assert (Hix : ix_assign A (Z.of_nat <$> [e.1; e.2])
                  (Z.of_nat <$> [e.1; e.2]) MH = Ok A).
  { apply (ix_assign_zero_same N A [e.1; e.2] MH B'); try done.
    repeat constructor; lia. }
  by rewrite Hix.
Qed.
End small_H.

(** C8, amended.  [slash_H_into_G] does not look at the number of nodes
    of [H].  For valid [G] and [H] with [|V_H| < 2], and with
    [size = |V_G| + |E_G| * (|V_H| - 2)] the number of nodes it computes:
    the call raises exactly when [G] has an edge and either [H] has no
    node or an end of some edge of [G] is not below [size]; when [size]
    is negative the exception is numpy's [ValueError]; and any graph it
    returns has [size] nodes and no edges. *)
Theorem slash_small_H_behaviour MG MH G H :
  valid_adj MG = true → valid_adj MH = true →
  create_graph MG = Ok G → create_graph MH = Ok H →
  (number_of_nodes H < 2)%nat →
  (raises (slash_H_into_G G H) ↔
   edges G ≠ []
   ∧ (number_of_nodes H = 0%nat
      ∨ Exists (fun e : nat * nat =>
                  comp_slash_verts (Z.of_nat (number_of_nodes G))
                    (Z.of_nat (length (edges G)))
                    (Z.of_nat (number_of_nodes H))
                    (Z.of_nat (length (edges H))) ≤ Z.of_nat e.2)
               (edges G)))
  ∧ (comp_slash_verts (Z.of_nat (number_of_nodes G))
       (Z.of_nat (length (edges G))) (Z.of_nat (number_of_nodes H))
       (Z.of_nat (length (edges H))) < 0 →
     slash_H_into_G G H = Raise ValueError)
  ∧ (∀ R, slash_H_into_G G H = Ok R →
       Z.of_nat (number_of_nodes R) =
       comp_slash_verts (Z.of_nat (number_of_nodes G))
         (Z.of_nat (length (edges G))) (Z.of_nat (number_of_nodes H))
         (Z.of_nat (length (edges H)))
       ∧ edges R = []).
Proof.
  intros HvG%valid_sym_adj HvH%valid_sym_adj HG HH Hh.
  pose proof (gm_nodes _ _ _ (create_graph_spec MH H HvH HH)) as HnH.
  rewrite HnH in Hh.
  set (size := comp_slash_verts _ _ _ _).
  split_and!.
  - split.
    + intros [e He]. split.
      * intros HE.
        destruct (small_H_returns MG MH G H HvG HvH HG HH Hh (or_introl HE))
          as [R HR]. congruence.
      * destruct (decide (number_of_nodes H = 0%nat)) as [|Hne]; [by left|].
        right.
        destruct (decide (Exists (fun e : nat * nat => size ≤ Z.of_nat e.2)
                            (edges G))) as [|Hno]; [done|exfalso].
        apply not_Exists_Forall in Hno; [|apply _].
        destruct (small_H_returns MG MH G H HvG HvH HG HH Hh) as [R HR];
          [|congruence].
        right. split; [lia|].
        eapply Forall_impl; [exact Hno|]. intros x Hx. simpl in Hx.
        fold size. lia.
    + intros [HE Hcase].
      destruct (slash_H_into_G G H) as [R|e] eqn:HR; [exfalso | by eexists].
      pose proof (small_H_returns_inv MG MH G H HvG HvH HG HH Hh R HR)
        as Hall.
      fold size in Hall. rewrite Forall_forall in Hall.
      destruct Hcase as [H0|Hex].
      * destruct (edges G) as [|e0 es]; [done|].
        destruct (Hall e0); [left | lia].
      * apply Exists_exists in Hex as (e & He & Hge).
        destruct (Hall e He). lia.
  - intros Hneg. unfold slash_H_into_G.
    replace (Z.of_nat (number_of_nodes H) - 2 + 2)
      with (Z.of_nat (number_of_nodes H)) by lia.
    fold size. unfold np_zeros. by rewrite (proj2 (Z.ltb_lt _ 0) Hneg).
  - intros R HR.
    destruct (slash_small_H MH G H R HvH HH Hh HR) as (A & HRA & HA & Hz & Hsize).
    assert (HvA : sym_adj A = true).
    { apply sym_adj_spec. split_and!; [done | |].
      - intros i j. by rewrite !Hz.
      - intros i. apply Hz. }
    pose proof (create_graph_spec A R HvA HRA) as HRspec.
    rewrite (gm_nodes _ _ _ HRspec). unfold size. rewrite HnH.
    split; [done|].
    apply sym_adj_spec in HvA as (_ & HsA & HdA).
    pose proof (edges_count (length A) A R HA HsA HdA HRspec) as Hc.
    rewrite (nnz_all_zero (length A) A HA Hz) in Hc.
    destruct (edges R); [done | simpl in Hc; lia].
Qed.

Lemma slash_small_H_behaviour_witness :
  valid_adj edge_and_two_matrix = true
  ∧ valid_adj single_node_matrix = true
  ∧ create_graph edge_and_two_matrix = Ok edge_and_two
  ∧ create_graph single_node_matrix = Ok single_node
  ∧ (number_of_nodes single_node < 2)%nat
  ∧ (raises (slash_H_into_G edge_and_two single_node) ↔
     edges edge_and_two ≠ []
     ∧ (number_of_nodes single_node = 0%nat
        ∨ Exists (fun e : nat * nat =>
                    comp_slash_verts (Z.of_nat (number_of_nodes edge_and_two))
                      (Z.of_nat (length (edges edge_and_two)))
                      (Z.of_nat (number_of_nodes single_node))
                      (Z.of_nat (length (edges single_node))) ≤ Z.of_nat e.2)
                 (edges edge_and_two)))
  ∧ (comp_slash_verts (Z.of_nat (number_of_nodes edge_and_two))
       (Z.of_nat (length (edges edge_and_two)))
       (Z.of_nat (number_of_nodes single_node))
       (Z.of_nat (length (edges single_node))) < 0 →
     slash_H_into_G edge_and_two single_node = Raise ValueError)
  ∧ (∀ R, slash_H_into_G edge_and_two single_node = Ok R →
       Z.of_nat (number_of_nodes R) =
       comp_slash_verts (Z.of_nat (number_of_nodes edge_and_two))
         (Z.of_nat (length (edges edge_and_two)))
         (Z.of_nat (number_of_nodes single_node))
         (Z.of_nat (length (edges single_node)))
       ∧ edges R = []).
Proof.
  split; [reflexivity|]. split; [reflexivity|]. split; [reflexivity|].
  split; [reflexivity|]. split; [vm_compute; lia|].
  apply (slash_small_H_behaviour edge_and_two_matrix single_node_matrix
           edge_and_two single_node);
    [reflexivity | reflexivity | reflexivity | reflexivity | vm_compute; lia].
Defined.

(** * Further properties of the notebook's functions *)

(** ** Every edge becomes a copy of [H] *)

Section copy_loop.
Variables (NG k N : nat) (MH : ndarray) (es : list (nat * nat)).
Hypothesis HMH : shape (k + 2) MH.
Hypothesis HMH_sym : symmetric MH.
Hypothesis HMH_diag : zero_diag MH.
Hypothesis Hes_nodup : NoDup es.
Hypothesis Hes_lt : ∀ u v, (u, v) ∈ es → (u < v ∧ v < NG)%nat.
Hypothesis HN : N = (NG + length es * k)%nat.

Lemma copy_inv_step done e todo st :
  es = done ++ e :: todo →
  loop_inv NG k N MH done st → copy_inv NG k MH done st.1 →
  ∃ st', slash_edge MH (Z.of_nat k) st e = Ok st'
    ∧ loop_inv NG k N MH (done ++ [e]) st'
    ∧ copy_inv NG k MH (done ++ [e]) st'.1.
Proof.
  intros Hes HI [Hcopy Honly].
  destruct (loop_inv_step NG k N MH es HMH HMH_sym HMH_diag Hes_nodup Hes_lt HN
              done e todo st Hes HI) as (st' & Hstep & HI').
  exists st'. split_and!; [done..|].
  destruct HI as [Hshape Hstart _ Hdiag _ _].
  destruct HI' as [_ _ _ Hdiag' _ _].
  destruct st as [A s0], e as [u v]. simpl in *. subst s0.
  set (s := (NG + length done * k)%nat) in *.
  assert (Huv : (u < v ∧ v < NG)%nat).
  { apply Hes_lt. rewrite Hes. apply elem_of_app. right. left. }
  assert (Hlen : (length es = length done + S (length todo))%nat).
  { rewrite Hes, length_app. done. }
  set (blk := block s k (u, v)).
  assert (Hblk : ∀ x, x ∈ blk ↔ x = u ∨ (s ≤ x < s + k)%nat ∨ x = v).
  { intros x. apply (elem_of_block s k (u, v)). }
  assert (HND : NoDup blk) by (apply (NoDup_block NG); simpl; lia).
  assert (Hlt : Forall (fun r : nat => (r < N)%nat) blk).
  { apply Forall_forall. intros x Hx%Hblk. subst s. nia. }
  destruct (ix_assign_block N (k + 2) A blk MH Hshape HMH
              (length_block _ _ _) HND Hlt)
    as (A' & Hix & _ & Hin & Hout & _).
  assert (st' = (A', Z.of_nat (s + k))) as ->.
  { unfold slash_edge in Hstep. simpl in Hstep.
    rewrite (edge_block_spec s k (u, v)) in Hstep by (simpl; lia).
    fold blk in Hstep. rewrite Hix in Hstep. simpl in Hstep. congruence. }
  simpl in *.
  constructor.
  - intros i e p q r c Hi Hp Hq.
    apply lookup_app_Some in Hi as [Hi|[Hge Hi]].
    + (* an earlier edge *)
      pose proof (lookup_lt_Some _ _ _ Hi) as Hilt.
      assert (Hein : e ∈ es).
      { rewrite Hes. apply elem_of_app. left. by eapply list_elem_of_lookup_2. }
      destruct e as [u' v'].
      pose proof (Hes_lt _ _ Hein) as Hu'v'.
      assert (Hne : (u', v') ≠ (u, v)).
      { intros Heq. rewrite Hes in Hes_nodup.
        apply NoDup_app in Hes_nodup as (_ & Hd & _).
        apply (Hd (u', v')); [by eapply list_elem_of_lookup_2|].
        rewrite Heq. left. }
      pose proof (list_elem_of_lookup_2 _ _ _ Hp) as Hr.
      pose proof (list_elem_of_lookup_2 _ _ _ Hq) as Hc.
      apply elem_of_block in Hr, Hc. simpl in Hr, Hc.
      destruct (decide (r ∈ blk ∧ c ∈ blk)) as [[Hrb Hcb]|Hnot].
      * apply Hblk in Hrb, Hcb.
        assert (r = c) as ->.
        { destruct (decide (r = c)); [done|exfalso].
          apply Hne. subst s. f_equal; nia. }
        assert (p = q) as ->.
        { eapply NoDup_lookup; [|exact Hp|exact Hq].
          apply (NoDup_block NG); simpl; lia. }
        by rewrite Hdiag', HMH_diag.
      * rewrite Hout by (apply not_and_l in Hnot; tauto).
        by apply (Hcopy i (u', v') p q).
    + (* the edge of this step *)
      apply list_lookup_singleton_Some in Hi as [Hi0 <-].
      assert (i = length done) as -> by lia.
      fold s in Hp, Hq. fold blk in Hp, Hq. by apply Hin.
  - intros r c Hne.
    destruct (decide (r ∈ blk ∧ c ∈ blk)) as [[Hr Hc]|Hnot].
    + exists (length done), (u, v). split_and!; [|done..].
      rewrite lookup_app_r by lia. by rewrite Nat.sub_diag.
    + rewrite Hout in Hne by (apply not_and_l in Hnot; tauto).
      destruct (Honly r c Hne) as (i & e & Hi & Hr & Hc).
      exists i, e. split_and!; [|done..].
      by apply lookup_app_l_Some.
Qed.

Lemma copy_loop_spec :
  ∃ st, for_each (slash_edge MH (Z.of_nat k)) es
                 (replicate N (replicate N 0), Z.of_nat NG) = Ok st
        ∧ loop_inv NG k N MH es st ∧ copy_inv NG k MH es st.1.
Proof.
  apply (for_each_inv _ (fun done st =>
           loop_inv NG k N MH done st ∧ copy_inv NG k MH done st.1)).
  - split; [by apply (loop_inv_init NG k N MH es)|]. constructor; simpl.
    + intros i e p q r c Hi. done.
    + intros r c. by rewrite entry_zeros.
  - intros done x todo s Hes [HI HC]. by eapply copy_inv_step.
Qed.
End copy_loop.

(** The result of [slash_H_into_G] with the matrix that the loop leaves,
    entry by entry. *)
Lemma slash_H_into_G_copy MG MH G H :
  sym_adj MG = true → sym_adj MH = true →
  create_graph MG = Ok G → create_graph MH = Ok H →
  (2 ≤ length MH)%nat →
  ∃ A R, slash_H_into_G G H = Ok R
    ∧ create_graph A = Ok R
    ∧ sym_adj A = true
    ∧ length A = (length MG + length (edges G) * (length MH - 2))%nat
    ∧ to_numpy_array R = A
    ∧ copy_inv (length MG) (length MH - 2) MH (edges G) A.
Proof.
  intros HvG HvH HG HH Hh.
  pose proof (create_graph_spec MG G HvG HG) as HGspec.
  pose proof (create_graph_spec MH H HvH HH) as HHspec.
  apply sym_adj_spec in HvG as (HMG & HsG & HdG).
  apply sym_adj_spec in HvH as (HMH & HsH & HdH).
  set (NG := length MG) in *. set (k := (length MH - 2)%nat).
  assert (Hk : length MH = (k + 2)%nat) by (subst k; lia).
  set (N := (NG + length (edges G) * k)%nat).
  rewrite Hk in HMH, HHspec.
  destruct (copy_loop_spec NG k N MH (edges G) HMH HsH HdH
              (NoDup_edges NG MG G HGspec)
              (fun u v => edges_lt NG MG G u v HMG HdG HGspec) eq_refl)
    as ([A s] & Hloop & [HA _ HsA HdA _ _] & Hcopy).
  simpl in *.
  destruct (from_numpy_array_spec N A HA HsA) as (R & HR & HRspec).
  exists A, R.
  assert (HlenA : length A = N) by (by destruct HA).
  split_and!.
  - unfold slash_H_into_G.
    rewrite (to_numpy_array_spec (k + 2) MH H HMH HHspec).
    rewrite (gm_nodes _ _ _ HGspec), (gm_nodes _ _ _ HHspec).
    unfold comp_slash_verts, np_zeros.
    replace (Z.of_nat (k + 2) - 2) with (Z.of_nat k) by lia.
    replace (Z.of_nat NG + Z.of_nat (length (edges G)) * (Z.of_nat k + 2 - 2))
      with (Z.of_nat N) by (subst N; lia).
    replace (Z.of_nat N <? 0) with false by (symmetry; apply Z.ltb_ge; lia).
    rewrite Nat2Z.id. simpl. rewrite Hloop. simpl. done.
  - done.
  - apply sym_adj_spec. by rewrite HlenA.
  - done.
  - by apply (to_numpy_array_spec N).
  - done.
Qed.

(** X1. [slash_H_into_G G H] replaces every edge of [G] by a copy of [H].
    For symmetric matrices with zero diagonal (any weights, [H] with at
    least two nodes) and the [i]-th edge [e] of [G.edges], the block of
    [e] is its smaller end, the [|V_H| - 2] new nodes
    [|V_G| + i * (|V_H| - 2), ...] and its larger end, and this is the
    [block_indices] of the loop at that edge; the entry of the result at
    the [p]-th and [q]-th node of the block is [H]'s entry at [p], [q];
    the result has no nonzero entry outside these blocks; and every new
    node lies in the block of some edge. *)
Theorem slash_copies_of_H MG MH G H :
  sym_adj MG = true → sym_adj MH = true →
  create_graph MG = Ok G → create_graph MH = Ok H →
  (2 ≤ number_of_nodes H)%nat →
  ∃ R, slash_H_into_G G H = Ok R
    ∧ (∀ i b,
         edge_blocks (Z.of_nat (number_of_nodes H) - 2)
           (Z.of_nat (number_of_nodes G)) (edges G) !! i = Some b →
         ∃ e, edges G !! i = Some e
           ∧ b = Z.of_nat <$>
                 block (number_of_nodes G + i * (number_of_nodes H - 2))
                       (number_of_nodes H - 2) e)
    ∧ (∀ i e p q r c,
         edges G !! i = Some e →
         block (number_of_nodes G + i * (number_of_nodes H - 2))
               (number_of_nodes H - 2) e !! p = Some r →
         block (number_of_nodes G + i * (number_of_nodes H - 2))
               (number_of_nodes H - 2) e !! q = Some c →
         entry (to_numpy_array R) r c = entry (to_numpy_array H) p q)
    ∧ (∀ r c,
         entry (to_numpy_array R) r c ≠ 0 →
         ∃ i e, edges G !! i = Some e
           ∧ r ∈ block (number_of_nodes G + i * (number_of_nodes H - 2))
                       (number_of_nodes H - 2) e
           ∧ c ∈ block (number_of_nodes G + i * (number_of_nodes H - 2))
                       (number_of_nodes H - 2) e)
    ∧ (∀ x, (number_of_nodes G ≤ x < number_of_nodes R)%nat →
         ∃ i e, edges G !! i = Some e
           ∧ x ∈ seq (number_of_nodes G + i * (number_of_nodes H - 2))
                     (number_of_nodes H - 2)).
Proof.
  intros HvG HvH HG HH Hh.
  pose proof (create_graph_spec MG G HvG HG) as HGspec.
  pose proof (create_graph_spec MH H HvH HH) as HHspec.
  rewrite (gm_nodes _ _ _ HHspec) in *. rewrite (gm_nodes _ _ _ HGspec).
  destruct (slash_H_into_G_copy MG MH G H HvG HvH HG HH Hh)
    as (A & R & HR & HAR & HvA & Hlen & HA & [Hcopy Honly]).
  pose proof (gm_nodes _ _ _ (create_graph_spec A R HvA HAR)) as HnR.
  apply sym_adj_spec in HvH as (HMH & _ & _).
  rewrite (to_numpy_array_spec _ MH H HMH HHspec).
  exists R. rewrite HA. split_and!; [done | | done | done |].
  { intros i b Hb.
    replace (Z.of_nat (length MH) - 2) with (Z.of_nat (length MH - 2)) in Hb
      by lia.
    apply (edge_blocks_lookup (length MH - 2) (edges G)); [|done].
    intros [u v] Huv. simpl.
    apply sym_adj_spec in HvG as (HMG & _ & HdG).
    destruct (edges_lt _ MG G u v HMG HdG HGspec Huv). lia. }
  intros x Hx. rewrite HnR, Hlen in Hx.
  set (k := (length MH - 2)%nat) in *. set (NG := length MG) in *.
  assert (Hk : k ≠ 0%nat) by (intros Hk0; rewrite Hk0 in Hx; lia).
  pose proof (Nat.Div0.mul_div_le (x - NG) k) as Hlo.
  pose proof (Nat.mul_succ_div_gt (x - NG) k Hk) as Hhi.
  set (i := ((x - NG) / k)%nat) in *.
  assert (Hi : (i < length (edges G))%nat) by nia.
  destruct (lookup_lt_is_Some_2 _ _ Hi) as [e He].
  exists i, e. split; [done|]. apply elem_of_seq. nia.
Qed.

Lemma slash_copies_of_H_witness :
  sym_adj D1_matrix = true ∧ create_graph D1_matrix = Ok D1
  ∧ (2 ≤ number_of_nodes D1)%nat
  ∧ ∃ R, slash_H_into_G D1 D1 = Ok R
    ∧ (∀ i b,
         edge_blocks (Z.of_nat (number_of_nodes D1) - 2)
           (Z.of_nat (number_of_nodes D1)) (edges D1) !! i = Some b →
         ∃ e, edges D1 !! i = Some e
           ∧ b = Z.of_nat <$>
                 block (number_of_nodes D1 + i * (number_of_nodes D1 - 2))
                       (number_of_nodes D1 - 2) e)
    ∧ (∀ i e p q r c,
         edges D1 !! i = Some e →
         block (number_of_nodes D1 + i * (number_of_nodes D1 - 2))
               (number_of_nodes D1 - 2) e !! p = Some r →
         block (number_of_nodes D1 + i * (number_of_nodes D1 - 2))
               (number_of_nodes D1 - 2) e !! q = Some c →
         entry (to_numpy_array R) r c = entry (to_numpy_array D1) p q)
    ∧ (∀ r c,
         entry (to_numpy_array R) r c ≠ 0 →
         ∃ i e, edges D1 !! i = Some e
           ∧ r ∈ block (number_of_nodes D1 + i * (number_of_nodes D1 - 2))
                       (number_of_nodes D1 - 2) e
           ∧ c ∈ block (number_of_nodes D1 + i * (number_of_nodes D1 - 2))
                       (number_of_nodes D1 - 2) e)
    ∧ (∀ x, (number_of_nodes D1 ≤ x < number_of_nodes R)%nat →
         ∃ i e, edges D1 !! i = Some e
           ∧ x ∈ seq (number_of_nodes D1 + i * (number_of_nodes D1 - 2))
                     (number_of_nodes D1 - 2)).
Proof.
  split_and!; [reflexivity | reflexivity | vm_compute; lia |].
  apply (slash_copies_of_H D1_matrix D1_matrix D1 D1);
    [reflexivity | reflexivity | reflexivity | reflexivity | vm_compute; lia].
Defined.

(** ** A second graph with two nodes *)

Lemma valid_adj_entry M i j :
  valid_adj M = true → entry M i j = 0 ∨ entry M i j = 1.
Proof.
  unfold valid_adj. intros [_ H01]%andb_true_iff.
  unfold entry. destruct (M !! i) as [row|] eqn:Hi; simpl; [|by left].
  destruct (row !! j) as [x|] eqn:Hj; simpl; [|by left].
  rewrite forallb_forall in H01.
  specialize (H01 row ltac:(apply list_elem_of_In; by eapply list_elem_of_lookup_2)).
  rewrite forallb_forall in H01.
  specialize (H01 x ltac:(apply list_elem_of_In; by eapply list_elem_of_lookup_2)).
  apply orb_true_iff in H01 as [H0|H1]; [left|right]; lia.
Qed.



(** X3. The single edge is a right identity: for a valid 0/1 matrix of
    [G], [slash_H_into_G G K2] returns [G] itself. *)
Theorem slash_single_edge MG G :
  valid_adj MG = true → create_graph MG = Ok G →
  slash_H_into_G G K2 = Ok G.
Proof.
  intros Hv HG.
  pose proof (valid_sym_adj MG Hv) as HvG.
  pose proof (create_graph_spec MG G HvG HG) as HGspec.
  destruct (slash_H_into_G_copy MG K2_matrix G K2 HvG eq_refl HG eq_refl
              ltac:(simpl; lia))
    as (A & R & HR & HAR & HvA & Hlen & _ & [Hcopy Honly]).
  simpl in Hlen, Hcopy, Honly.
  rewrite HR. enough (A = MG) as -> by congruence.
  apply sym_adj_spec in HvG as (HMG & HsG & HdG).
  apply sym_adj_spec in HvA as (HA & HsA & HdA).
  assert (HlenA : length A = length MG) by lia.
  rewrite HlenA in HA.
  apply (shape_ext (length MG)); [done..|].
  intros i j Hi Hj.
  assert (Hedge : ∀ u v, (u, v) ∈ edges G →
            entry A u v = 1 ∧ entry A v u = 1).
  { intros u v [idx Hidx]%list_elem_of_lookup.
    split.
    - apply (Hcopy idx (u, v) 0%nat 1%nat); done.
    - apply (Hcopy idx (u, v) 1%nat 0%nat); done. }
  destruct (decide (entry MG i j = 0)) as [H0|H1].
  - rewrite H0. destruct (decide (entry A i j = 0)) as [|Hne]; [done|exfalso].
    destruct (Honly i j Hne) as (idx & [u v] & Hidx & Hr & Hc).
    apply list_elem_of_lookup_2 in Hidx.
    apply (elem_of_edges _ _ _ _ _ HGspec) in Hidx as [_ Hne'].
    apply elem_of_block in Hr, Hc. simpl in Hr, Hc.
    assert (Hcase : i = j ∨ (i = u ∧ j = v) ∨ (i = v ∧ j = u)) by lia.
    destruct Hcase as [->|[[-> ->]|[-> ->]]].
    + by rewrite HdA in Hne.
    + done.
    + by rewrite HsG in H0.
  - destruct (valid_adj_entry MG i j Hv) as [|H1']; [done|]. rewrite H1'.
    destruct (decide (i ≤ j)%nat).
    + apply (Hedge i j). apply (elem_of_edges _ _ _ _ _ HGspec). done.
    + apply (Hedge j i). apply (elem_of_edges _ _ _ _ _ HGspec).
      split; [lia|]. by rewrite HsG.
Qed.

Lemma slash_single_edge_witness :
  valid_adj D1_matrix = true ∧ create_graph D1_matrix = Ok D1
  ∧ slash_H_into_G D1 K2 = Ok D1.
Proof.
  split_and!; [reflexivity | reflexivity |].
  apply (slash_single_edge D1_matrix D1); reflexivity.
Defined.

(** X4. The single edge is a left identity up to the names of the nodes:
    [slash_H_into_G K2 H] returns a graph with as many nodes and edges as
    [H], which is [H] with its first node named 0, its last node named 1
    and its [p]-th node in between named [p + 1]. *)
Theorem slash_into_single_edge MH H :
  sym_adj MH = true → create_graph MH = Ok H → (2 ≤ number_of_nodes H)%nat →
  ∃ R, slash_H_into_G K2 H = Ok R
    ∧ number_of_nodes R = number_of_nodes H
    ∧ length (edges R) = length (edges H)
    ∧ ∀ p q r c,
        (0%nat :: seq 2 (number_of_nodes H - 2) ++ [1%nat]) !! p = Some r →
        (0%nat :: seq 2 (number_of_nodes H - 2) ++ [1%nat]) !! q = Some c →
        entry (to_numpy_array R) r c = entry (to_numpy_array H) p q.
Proof.
  intros HvH HH Hh.
  pose proof (create_graph_spec MH H HvH HH) as HHspec.
  rewrite (gm_nodes _ _ _ HHspec) in *.
  destruct (slash_H_into_G_copy K2_matrix MH K2 H eq_refl HvH eq_refl HH Hh)
    as (A & R & HR & HAR & HvA & Hlen & HA & [Hcopy _]).
  destruct (slash_H_into_G_spec K2_matrix MH K2 H eq_refl HvH eq_refl HH Hh)
    as (A' & R' & HR' & _ & _ & _ & Hedges).
  assert (R' = R) as -> by congruence.
  exists R. split_and!; [done | | |].
  - rewrite (gm_nodes _ _ _ (create_graph_spec A R HvA HAR)), Hlen.
    change (length (edges K2)) with 1%nat. change (length K2_matrix) with 2%nat.
    lia.
  - rewrite Hedges. change (length (edges K2)) with 1%nat. lia.
  - intros p q r c Hp Hq. rewrite HA.
    apply sym_adj_spec in HvH as (HMH & _ & _).
    rewrite (to_numpy_array_spec _ MH H HMH HHspec).
    by apply (Hcopy 0%nat (0%nat, 1%nat) p q r c).
Qed.

Lemma slash_into_single_edge_witness :
  sym_adj D1_matrix = true ∧ create_graph D1_matrix = Ok D1
  ∧ (2 ≤ number_of_nodes D1)%nat
  ∧ ∃ R, slash_H_into_G K2 D1 = Ok R
    ∧ number_of_nodes R = number_of_nodes D1
    ∧ length (edges R) = length (edges D1)
    ∧ ∀ p q r c,
        (0%nat :: seq 2 (number_of_nodes D1 - 2) ++ [1%nat]) !! p = Some r →
        (0%nat :: seq 2 (number_of_nodes D1 - 2) ++ [1%nat]) !! q = Some c →
        entry (to_numpy_array R) r c = entry (to_numpy_array D1) p q.
Proof.
  split_and!; [reflexivity | reflexivity | vm_compute; lia |].
  apply (slash_into_single_edge D1_matrix D1);
    [reflexivity | reflexivity | vm_compute; lia].
Defined.

(** ** A first graph without edges *)

(** X5. A graph without edges is returned as it is, whatever the second
    graph: the loop over the edges does not run, and [H] is not looked
    at. *)
Theorem slash_edgeless MG G H :
  sym_adj MG = true → create_graph MG = Ok G → edges G = [] →
  slash_H_into_G G H = Ok G.
Proof.
  intros HvG HG He.
  pose proof (create_graph_spec MG G HvG HG) as HGspec.
  apply sym_adj_spec in HvG as (HMG & HsG & HdG).
  assert (HMG0 : MG = replicate (length MG) (replicate (length MG) 0)).
  { apply (shape_ext (length MG)); [done | apply shape_zeros |].
    intros i j _ _. rewrite entry_zeros.
    destruct (decide (entry MG i j = 0)) as [|Hne]; [done|exfalso].
    destruct (decide (i ≤ j)%nat).
    - assert (Hin : (i, j) ∈ edges G)
        by (by apply (elem_of_edges _ _ _ _ _ HGspec)).
      rewrite He in Hin. by apply elem_of_nil in Hin.
    - assert (Hin : (j, i) ∈ edges G).
      { apply (elem_of_edges _ _ _ _ _ HGspec). split; [lia|]. by rewrite HsG. }
      rewrite He in Hin. by apply elem_of_nil in Hin. }
  unfold slash_H_into_G. rewrite He, (gm_nodes _ _ _ HGspec).
  unfold comp_slash_verts, np_zeros. simpl length.
  replace (Z.of_nat (length MG) + Z.of_nat 0 * _) with (Z.of_nat (length MG))
    by lia.
  replace (Z.of_nat (length MG) <? 0) with false
    by (symmetry; apply Z.ltb_ge; lia).
  rewrite Nat2Z.id. simpl. rewrite <- HMG0. exact HG.
Qed.

Lemma slash_edgeless_witness :
  sym_adj single_node_matrix = true
  ∧ create_graph single_node_matrix = Ok single_node
  ∧ edges single_node = []
  ∧ slash_H_into_G single_node D1 = Ok single_node.
Proof.
  split_and!; [reflexivity | reflexivity | reflexivity |].
  apply (slash_edgeless single_node_matrix single_node D1); reflexivity.
Defined.

(** ** What [slash_H_into_G] reads of [G] *)

Lemma keys_add_edge a u v w :
  keys <$> add_edge a (u, v, w) =
  alter (keys_set u) v (alter (keys_set v) u (keys <$> a)).
Proof.
  unfold add_edge.
  rewrite (list_fmap_alter keys (dict_set u w) (keys_set u)).
  - f_equal. apply list_fmap_alter.
    apply Forall_forall. intros d _. apply keys_dict_set.
  - apply Forall_forall. intros d _. apply keys_dict_set.
Qed.

Lemma keys_build (P : list (nat * nat)) (w w' : nat → nat → Z) a a' :
  keys <$> a = keys <$> a' →
  keys <$> foldl add_edge a (triples w P)
  = keys <$> foldl add_edge a' (triples w' P).
Proof.
  revert a a'. induction P as [|[u v] P IH]; intros a a' Ha; [done|].
  simpl. apply IH. by rewrite !keys_add_edge, Ha.
Qed.

Lemma edges_from_keys seen n a a' :
  keys <$> a = keys <$> a' → edges_from seen n a = edges_from seen n a'.
Proof.
  revert seen n a'. induction a as [|d a IH]; intros seen n [|d' a'] Ha;
    try done.
  simpl in Ha. injection Ha as Hd Ha. simpl. rewrite Hd. f_equal. by apply IH.
Qed.

Lemma nonzero_pattern N (M M' : ndarray) :
  shape N M → shape N M' →
  (∀ i j, entry M i j = 0 ↔ entry M' i j = 0) →
  nonzero M = nonzero M'.
Proof.
  intros HM HM' Hz. unfold nonzero.
  rewrite (ncols_shape N M HM), (ncols_shape N M' HM').
  destruct HM as [-> _], HM' as [-> _].
  apply flat_map_ext. intros u. f_equal.
  apply list_filter_iff. intros v. by rewrite Hz.
Qed.

Lemma create_graph_shape M G : create_graph M = Ok G → shape (length M) M.
Proof.
  unfold create_graph, from_numpy_array. intros HG.
  apply is_square_shape. by destruct (is_square M).
Qed.

(** X6. [slash_H_into_G] reads the edge list and the number of nodes of
    [G], never its weights: two square matrices of the same size with
    the same zero entries give graphs with the same edge list and the
    same slash product with any [H]. *)
Theorem slash_ignores_weights MG MG' G G' H :
  create_graph MG = Ok G → create_graph MG' = Ok G' →
  length MG = length MG' →
  (∀ i j, entry MG i j = 0 ↔ entry MG' i j = 0) →
  edges G = edges G' ∧ slash_H_into_G G H = slash_H_into_G G' H.
Proof.
  intros HG HG' Hlen Hz.
  pose proof (create_graph_shape MG G HG) as HM.
  pose proof (create_graph_shape MG' G' HG') as HM'. rewrite <- Hlen in HM'.
  assert (Hkeys : keys <$> adj G = keys <$> adj G').
  { unfold create_graph, from_numpy_array in HG, HG'.
    destruct (is_square MG); [|done]. destruct (is_square MG'); [|done].
    injection HG as <-. injection HG' as <-. simpl.
    change (map ?f (nonzero MG)) with (triples (entry MG) (nonzero MG)).
    change (map ?f (nonzero MG')) with (triples (entry MG') (nonzero MG')).
    rewrite <- (nonzero_pattern _ MG MG' HM HM' Hz), <- Hlen.
    by apply keys_build. }
  assert (He : edges G = edges G') by (by apply edges_from_keys).
  assert (Hn : number_of_nodes G = number_of_nodes G').
  { unfold number_of_nodes.
    by rewrite <- (length_fmap keys (adj G)), Hkeys, length_fmap. }
  split; [done|]. unfold slash_H_into_G. by rewrite He, Hn.
Qed.

Lemma slash_ignores_weights_witness :
  create_graph weighted_path_matrix
  = Ok (graph_of (create_graph weighted_path_matrix))
  ∧ create_graph path_matrix = Ok (graph_of (create_graph path_matrix))
  ∧ length weighted_path_matrix = length path_matrix
  ∧ (∀ i j, entry weighted_path_matrix i j = 0 ↔ entry path_matrix i j = 0)
  ∧ edges (graph_of (create_graph weighted_path_matrix))
    = edges (graph_of (create_graph path_matrix))
  ∧ slash_H_into_G (graph_of (create_graph weighted_path_matrix)) D1
    = slash_H_into_G (graph_of (create_graph path_matrix)) D1.
Proof.
  assert (Hz : ∀ i j, entry weighted_path_matrix i j = 0
                      ↔ entry path_matrix i j = 0).
  { intros i j.
    destruct i as [|[|[|i]]], j as [|[|[|j]]]; vm_compute; split; congruence. }
  split_and!; [reflexivity | reflexivity | reflexivity | exact Hz |..];
    apply (slash_ignores_weights weighted_path_matrix path_matrix _ _ D1
             eq_refl eq_refl eq_refl Hz).
Defined.

(** X7. The swap of the ends of an edge never happens: [G.edges] of a
    graph made by [create_graph] gives every edge with its smaller end
    first, so the block of an edge is its first end, the new labels
    [start_index, ..., start_index + H_verts - 1] and its second end. *)
Theorem edge_block_never_swaps M G (hv s : Z) (e : nat * nat) :
  create_graph M = Ok G → e ∈ edges G →
  (e.1 ≤ e.2)%nat
  ∧ edge_block hv s e =
    (Z.of_nat e.1 :: py_range s (s + hv) ++ [Z.of_nat e.2],
     s + Z.of_nat (length (py_range s (s + hv)))).
Proof.
  intros _ He. destruct e as [u v].
  apply elem_of_edges_from in He as (_ & Hle & _); [|intros x; rewrite elem_of_nil; lia].
  split; [done|]. unfold edge_block.
  rewrite bool_decide_false by (simpl in *; lia).
  by rewrite collect_indices.
Qed.

Lemma edge_block_never_swaps_witness :
  create_graph D1_matrix = Ok D1 ∧ (0%nat, 1%nat) ∈ edges D1
  ∧ ((0%nat, 1%nat).1 ≤ (0%nat, 1%nat).2)%nat
  ∧ edge_block 2 4 (0%nat, 1%nat) =
    (Z.of_nat (0%nat, 1%nat).1 :: py_range 4 (4 + 2) ++ [Z.of_nat (0%nat, 1%nat).2],
     4 + Z.of_nat (length (py_range 4 (4 + 2)))).
Proof.
  assert (Hin : (0%nat, 1%nat) ∈ edges D1) by (vm_compute; left).
  split_and!; [reflexivity | exact Hin |..];
    apply (edge_block_never_swaps D1_matrix D1 2 4 (0%nat, 1%nat) eq_refl Hin).
Defined.

(** X8. The two bracketings of a slash product of three graphs have the
    same numbers of nodes and of edges: [(G / H) / K] and [G / (H / K)],
    for symmetric matrices with zero diagonal, [H] and [K] with at least
    two nodes. *)
Theorem slash_assoc_counts MG MH MK G H K :
  sym_adj MG = true → sym_adj MH = true → sym_adj MK = true →
  create_graph MG = Ok G → create_graph MH = Ok H → create_graph MK = Ok K →
  (2 ≤ number_of_nodes H)%nat → (2 ≤ number_of_nodes K)%nat →
  ∃ GH HK L R,
    slash_H_into_G G H = Ok GH ∧ slash_H_into_G GH K = Ok L
    ∧ slash_H_into_G H K = Ok HK ∧ slash_H_into_G G HK = Ok R
    ∧ number_of_nodes L = number_of_nodes R
    ∧ length (edges L) = length (edges R).
Proof.
  intros HvG HvH HvK HG HH HK Hh Hk.
  pose proof (create_graph_spec MG G HvG HG) as HGspec.
  pose proof (create_graph_spec MH H HvH HH) as HHspec.
  pose proof (create_graph_spec MK K HvK HK) as HKspec.
  rewrite (gm_nodes _ _ _ HHspec) in Hh. rewrite (gm_nodes _ _ _ HKspec) in Hk.
  destruct (slash_H_into_G_spec MG MH G H HvG HvH HG HH Hh)
    as (A1 & GH & HR1 & HA1 & HvA1 & Hn1 & He1).
  destruct (slash_H_into_G_spec A1 MK GH K HvA1 HvK HA1 HK Hk)
    as (A2 & L & HR2 & HA2 & HvA2 & Hn2 & He2).
  destruct (slash_H_into_G_spec MH MK H K HvH HvK HH HK Hk)
    as (A3 & HK' & HR3 & HA3 & HvA3 & Hn3 & He3).
  assert (Hh3 : (2 ≤ length A3)%nat) by (rewrite Hn3; nia).
  destruct (slash_H_into_G_spec MG A3 G HK' HvG HvA3 HG HA3 Hh3)
    as (A4 & R & HR4 & HA4 & HvA4 & Hn4 & He4).
  exists GH, HK', L, R. split_and!; [done..| |].
  - rewrite (gm_nodes _ _ _ (create_graph_spec A2 L HvA2 HA2)).
    rewrite (gm_nodes _ _ _ (create_graph_spec A4 R HvA4 HA4)).
    rewrite Hn2, Hn4, Hn1, Hn3, He1.
    destruct (length MH) as [|[|h]]; [lia..|].
    destruct (length MK) as [|[|k]]; [lia..|].
    simpl. rewrite !Nat.sub_0_r. nia.
  - rewrite He2, He4, He1, He3. lia.
Qed.

Lemma slash_assoc_counts_witness :
  sym_adj D1_matrix = true ∧ sym_adj K2_matrix = true
  ∧ create_graph D1_matrix = Ok D1 ∧ create_graph K2_matrix = Ok K2
  ∧ (2 ≤ number_of_nodes D1)%nat ∧ (2 ≤ number_of_nodes K2)%nat
  ∧ ∃ GH HK L R,
    slash_H_into_G D1 K2 = Ok GH ∧ slash_H_into_G GH D1 = Ok L
    ∧ slash_H_into_G K2 D1 = Ok HK ∧ slash_H_into_G D1 HK = Ok R
    ∧ number_of_nodes L = number_of_nodes R
    ∧ length (edges L) = length (edges R).
Proof.
  split_and!; [reflexivity | reflexivity | reflexivity | reflexivity
               | vm_compute; lia | vm_compute; lia |].
  apply (slash_assoc_counts D1_matrix K2_matrix D1_matrix D1 K2 D1);
    (reflexivity || (vm_compute; lia)).
Defined.

(** ** Graphs and their matrices *)

(** X9. The edge list of the graph of a symmetric matrix with zero
    diagonal: [G.edges] has every pair [u < v] with a nonzero entry,
    once, and nothing else; its length is half the number of nonzero
    entries. *)
Theorem created_graph_edges M G :
  sym_adj M = true → create_graph M = Ok G →
  NoDup (edges G)
  ∧ (∀ u v, (u, v) ∈ edges G ↔ (u < v)%nat ∧ entry M u v ≠ 0)
  ∧ (2 * length (edges G))%nat = nnz M.
Proof.
  intros Hv HG.
  pose proof (create_graph_spec M G Hv HG) as Hspec.
  apply sym_adj_spec in Hv as (HM & Hs & Hd).
  split_and!.
  - by apply (NoDup_edges (length M) M).
  - intros u v. rewrite (elem_of_edges _ _ _ u v Hspec). split.
    + intros [Hle Hne]. split; [|done].
      destruct (decide (u = v)) as [->|]; [|lia]. by rewrite Hd in Hne.
    + intros [Hlt Hne]. split; [lia | done].
  - by apply (edges_count (length M) M).
Qed.

Lemma created_graph_edges_witness :
  sym_adj D1_matrix = true ∧ create_graph D1_matrix = Ok D1
  ∧ NoDup (edges D1)
  ∧ (∀ u v, (u, v) ∈ edges D1 ↔ (u < v)%nat ∧ entry D1_matrix u v ≠ 0)
  ∧ (2 * length (edges D1))%nat = nnz D1_matrix.
Proof.
  split_and!; [reflexivity | reflexivity |..];
    apply (created_graph_edges D1_matrix D1 eq_refl eq_refl).
Defined.







(** ** Slash powers, step by step *)

(** X12. The recurrence of the slash powers: for [n >= 1],
    [slash_power G (n + 1)] is [slash_H_into_G] of [slash_power G n] and
    [G], exception included. *)
Theorem slash_power_step (G : Graph) (n : Z) :
  1 ≤ n →
  slash_power G (n + 1) = (G_n ← slash_power G n; slash_H_into_G G_n G).
Proof.
  intros Hn.
  replace n with (Z.of_nat (S (Z.to_nat (n - 1)))) at 2 by lia.
  replace (n + 1) with (Z.of_nat (S (S (Z.to_nat (n - 1))))) by lia.
  apply slash_power_succ.
Qed.

Lemma slash_power_step_witness :
  1 ≤ 1
  ∧ slash_power D1 (1 + 1) = (G_n ← slash_power D1 1; slash_H_into_G G_n D1).
Proof. split; [lia|]. apply (slash_power_step D1 1). lia. Defined.

(** X13. For a symmetric matrix of [G] with zero diagonal and [n >= 1],
    [slash_power G n] returns a graph and never raises; the graph has
    [|E|^n] edges and [2 + (|V| - 2) * (1 + |E| + ... + |E|^(n-1))]
    nodes, also when [|E| = 1], and its matrix is symmetric with zero
    diagonal. *)
Theorem slash_power_counts MG G (n : Z) :
  sym_adj MG = true → create_graph MG = Ok G → 1 ≤ n →
  ∃ R, slash_power G n = Ok R
    ∧ Z.of_nat (length (edges R)) = Z.of_nat (length (edges G)) ^ n
    ∧ Z.of_nat (number_of_nodes R) =
      2 + (Z.of_nat (number_of_nodes G) - 2)
          * geom (Z.of_nat (length (edges G))) (Z.to_nat n)
    ∧ sym_adj (to_numpy_array R) = true.
Proof.
  intros HvG HG Hn.
  pose proof (create_graph_spec MG G HvG HG) as HGspec.
  destruct (slash_power_spec MG G (Z.to_nat (n - 1)) HvG HG)
    as (A & R & HR & HAR & HvA & Hnodes & Hedges).
  replace (Z.of_nat (S (Z.to_nat (n - 1)))) with n in * by lia.
  replace (S (Z.to_nat (n - 1))) with (Z.to_nat n) in * by lia.
  pose proof (create_graph_spec A R HvA HAR) as HRspec.
  exists R. split_and!; [done | done | |].
  - rewrite (gm_nodes _ _ _ HRspec), (gm_nodes _ _ _ HGspec). done.
  - apply sym_adj_spec in HvA as HA. destruct HA as (HA & _ & _).
    by rewrite (to_numpy_array_spec _ A R HA HRspec).
Qed.

Lemma slash_power_counts_witness :
  sym_adj D1_matrix = true ∧ create_graph D1_matrix = Ok D1 ∧ 1 ≤ 3
  ∧ ∃ R, slash_power D1 3 = Ok R
    ∧ Z.of_nat (length (edges R)) = Z.of_nat (length (edges D1)) ^ 3
    ∧ Z.of_nat (number_of_nodes R) =
      2 + (Z.of_nat (number_of_nodes D1) - 2)
          * geom (Z.of_nat (length (edges D1))) (Z.to_nat 3)
    ∧ sym_adj (to_numpy_array R) = true.
Proof.
  split_and!; [reflexivity | reflexivity | lia |].
  apply (slash_power_counts D1_matrix D1 3); [reflexivity | reflexivity | lia].
Defined.

(** ** The closed form at its ends *)

(** X14. The first values of [comp_slash_power_verts]: at iteration 0 it
    returns 2 for every number of vertices, where [slash_power G 0]
    returns [G] with all its nodes; at iteration 1 it returns the number
    of vertices. *)
Theorem comp_slash_power_verts_base (V E : Z) :
  E ≠ 1 →
  comp_slash_power_verts V E 0 = Ok 2
  ∧ (∀ G : Graph, slash_power G 0 = Ok G)
  ∧ (Z.abs V < 2 ^ 53 - 2 → comp_slash_power_verts V E 1 = Ok V).
Proof.
  intros HE. split_and!.
  - unfold comp_slash_power_verts, int_pow. simpl.
    rewrite Z.mul_0_r. unfold int_true_divide.
    rewrite (proj2 (Z.eqb_neq (E - 1) 0)) by lia. simpl.
    by destruct (E - 1 <? 0).
  - done.
  - intros HV.
    assert (Hg : (E ^ 1 - 1) / (E - 1) = 1).
    { rewrite Z.pow_1_r. apply Z.div_same. lia. }
    pose proof (comp_slash_power_verts_exact V E 1 HE ltac:(lia)) as Hx.
    rewrite Hg in Hx. rewrite Hx by lia. f_equal. lia.
Qed.

Lemma comp_slash_power_verts_base_witness :
  4 ≠ 1
  ∧ comp_slash_power_verts 4 4 0 = Ok 2
  ∧ (∀ G : Graph, slash_power G 0 = Ok G)
  ∧ (Z.abs 4 < 2 ^ 53 - 2 → comp_slash_power_verts 4 4 1 = Ok 4).
Proof. split; [lia|]. apply (comp_slash_power_verts_base 4 4). lia. Defined.

(** X15. With no edges, [comp_slash_power_verts V 0 n] returns [V] for
    every [n >= 1]; for a negative [n] the power [0 ** n] raises
    [ZeroDivisionError]. *)
Theorem comp_slash_power_verts_no_edges (V n : Z) :
  Z.abs V < 2 ^ 53 - 2 →
  (1 ≤ n → comp_slash_power_verts V 0 n = Ok V)
  ∧ (- 2 ^ 53 < n < 0 → comp_slash_power_verts V 0 n = Raise ZeroDivisionError).
Proof.
  intros HV. split.
  - intros Hn.
    assert (Hg : (0 ^ n - 1) / (0 - 1) = 1).
    { rewrite Z.pow_0_l by lia. reflexivity. }
    pose proof (comp_slash_power_verts_exact V 0 n ltac:(lia) ltac:(lia)) as Hx.
    rewrite Hg in Hx. rewrite Hx by lia. f_equal. lia.
  - intros Hn. unfold comp_slash_power_verts, int_pow.
    rewrite (proj2 (Z.ltb_lt n 0)) by lia.
    cbn [py_sub mbind result_bind rbind]. unfold float_pow_neg.
    destruct (float_of_int_exact 0 ltac:(simpl; lia)) as (f0 & Hf0 & Hr0).
    destruct (float_of_int_exact n ltac:(lia)) as (fn & Hfn & Hrn).
    rewrite Hf0, Hfn. cbn [mbind result_bind rbind].
    rewrite (int_of_float_exact f0 0 Hr0), (int_of_float_exact fn n Hrn).
    by cbn [mbind result_bind rbind].
Qed.

Lemma comp_slash_power_verts_no_edges_witness :
  Z.abs 5 < 2 ^ 53 - 2
  ∧ (1 ≤ 3 → comp_slash_power_verts 5 0 3 = Ok 5)
  ∧ (- 2 ^ 53 < -1 < 0 → comp_slash_power_verts 5 0 (-1) = Raise ZeroDivisionError).
Proof.
  assert (H5 : Z.abs 5 < 2 ^ 53 - 2) by (simpl; lia).
  split; [exact H5|].
  split.
  - apply (proj1 (comp_slash_power_verts_no_edges 5 3 H5)).
  - apply (proj2 (comp_slash_power_verts_no_edges 5 (-1) H5)).
Defined.

Lemma geom_nonneg E n : 0 ≤ E → 0 ≤ geom E n.
Proof.
  intros HE. induction n as [|m IH]; [simpl; lia|].
  rewrite geom_succ. pose proof (Z.pow_nonneg E (Z.of_nat m) HE). lia.
Qed.

(** X16. The two formulas agree with the recurrence of the slash powers:
    below [2^53], the count at iteration [n + 1] is [comp_slash_verts]
    of the count at iteration [n], the [E^n] edges of that power, and
    [V] and [E]. *)
Theorem comp_slash_power_verts_step (V E n : Z) :
  2 ≤ V → 0 ≤ E → E ≠ 1 → 0 ≤ n →
  2 + (V - 2) * ((E ^ (n + 1) - 1) / (E - 1)) < 2 ^ 53 →
  ∃ a b, comp_slash_power_verts V E n = Ok a
    ∧ comp_slash_power_verts V E (n + 1) = Ok b
    ∧ b = comp_slash_verts a (E ^ n) V E.
Proof.
  intros HV HE0 HE Hn Hb.
  assert (Hg1 : (E ^ (n + 1) - 1) / (E - 1) = geom E (S (Z.to_nat n))).
  { rewrite <- geom_div by done. do 3 f_equal. lia. }
  assert (Hg0 : (E ^ n - 1) / (E - 1) = geom E (Z.to_nat n)).
  { rewrite <- geom_div by done. do 3 f_equal. lia. }
  rewrite Hg1 in Hb. rewrite geom_succ, Z2Nat.id in Hb by done.
  pose proof (geom_nonneg E (Z.to_nat n) HE0) as Hgn.
  pose proof (Z.pow_nonneg E n HE0) as Hpow.
  assert (Hvg : 0 ≤ (V - 2) * geom E (Z.to_nat n)) by (apply Z.mul_nonneg_nonneg; lia).
  assert (Hvp : 0 ≤ (V - 2) * E ^ n) by (apply Z.mul_nonneg_nonneg; lia).
  rewrite Z.mul_add_distr_l in Hb.
  exists (2 + (V - 2) * ((E ^ n - 1) / (E - 1))),
         (2 + (V - 2) * ((E ^ (n + 1) - 1) / (E - 1))).
  split_and!.
  - apply comp_slash_power_verts_exact; [done | done | |]; rewrite Hg0; lia.
  - apply comp_slash_power_verts_exact; [done | lia | |];
      rewrite Hg1, geom_succ, Z2Nat.id, Z.mul_add_distr_l by done; lia.
  - unfold comp_slash_verts.
    rewrite Hg1, Hg0, geom_succ, Z2Nat.id by done. ring.
Qed.

Lemma comp_slash_power_verts_step_witness :
  2 ≤ 4 ∧ 0 ≤ 4 ∧ 4 ≠ 1 ∧ 0 ≤ 2
  ∧ 2 + (4 - 2) * ((4 ^ (2 + 1) - 1) / (4 - 1)) < 2 ^ 53
  ∧ ∃ a b, comp_slash_power_verts 4 4 2 = Ok a
    ∧ comp_slash_power_verts 4 4 (2 + 1) = Ok b
    ∧ b = comp_slash_verts a (4 ^ 2) 4 4.
Proof.
  assert (Hb : 2 + (4 - 2) * ((4 ^ (2 + 1) - 1) / (4 - 1)) < 2 ^ 53)
    by (vm_compute; reflexivity).
  split_and!; [lia | lia | lia | lia | exact Hb |].
  apply (comp_slash_power_verts_step 4 4 2); [lia | lia | lia | lia | exact Hb].
Defined.

(** ** Quotients beyond the largest float *)

Lemma shr_1_m mrs : 0 ≤ shr_m mrs → shr_m (shr_1 mrs) = shr_m mrs / 2.
Proof.
  destruct mrs as [m r s]. simpl. intros Hm.
  rewrite <- Z.div2_div. by destruct m as [|[p|p|]|p].
Qed.

Lemma iter_shr_1_m p mrs :
  0 ≤ shr_m mrs →
  shr_m (SpecFloat.iter_pos shr_1 p mrs) = shr_m mrs / 2 ^ Zpos p.
Proof.
  revert mrs. induction p as [p IH|p IH|]; intros mrs Hm.
  - change (shr_m (SpecFloat.iter_pos shr_1 p
              (SpecFloat.iter_pos shr_1 p (shr_1 mrs))) = shr_m mrs / 2 ^ Zpos p~1).
    assert (H1 : 0 ≤ shr_m (shr_1 mrs)).
    { rewrite shr_1_m by done. apply Z.div_pos; lia. }
    assert (H2 : 0 ≤ shr_m (SpecFloat.iter_pos shr_1 p (shr_1 mrs))).
    { rewrite IH by done. apply Z.div_pos; [done|]. apply Z.pow_pos_nonneg; lia. }
    rewrite IH, IH, shr_1_m by done.
    rewrite !Z.div_div by (try apply Z.pow_pos_nonneg; lia).
    f_equal. rewrite pow2_double_succ. lia.
  - change (shr_m (SpecFloat.iter_pos shr_1 p
              (SpecFloat.iter_pos shr_1 p mrs)) = shr_m mrs / 2 ^ Zpos p~0).
    assert (H2 : 0 ≤ shr_m (SpecFloat.iter_pos shr_1 p mrs)).
    { rewrite IH by done. apply Z.div_pos; [done|]. apply Z.pow_pos_nonneg; lia. }
    rewrite IH, IH by done.
    rewrite !Z.div_div by (try apply Z.pow_pos_nonneg; lia).
    f_equal. by rewrite pow2_double.
  - rewrite Z.pow_1_r. by apply shr_1_m.
Qed.

Lemma shr_m_spec (m e n : Z) :
  0 ≤ m → 0 ≤ n →
  (shr (exact m) e n).2 = e + n ∧ shr_m (shr (exact m) e n).1 = m / 2 ^ n.
Proof.
  intros Hm Hn. destruct n as [|p|p]; [| |lia].
  - simpl. split; [lia|]. by rewrite Z.div_1_r.
  - simpl. split; [done|]. by rewrite iter_shr_1_m.
Qed.

Lemma Zdigits2_spec (z : Z) :
  0 < z → 2 ^ (Zdigits2 z - 1) ≤ z < 2 ^ Zdigits2 z.
Proof.
  intros Hz. destruct z as [|p|p]; try lia. simpl.
  rewrite digits2_pos_log2.
  replace (Z.log2 (Zpos p) + 1 - 1) with (Z.log2 (Zpos p)) by lia.
  replace (Z.log2 (Zpos p) + 1) with (Z.succ (Z.log2 (Zpos p))) by lia.
  apply Z.log2_spec. lia.
Qed.

Lemma round_nearest_even_bounds m l :
  m ≤ round_nearest_even m l ≤ m + 1.
Proof.
  unfold round_nearest_even. destruct l as [|[| |]]; try lia.
  destruct (Z.even m); lia.
Qed.

Lemma pow2_le_digits (z a : Z) : 0 ≤ a → 2 ^ a ≤ z → a + 1 ≤ Zdigits2 z.
Proof.
  intros Ha Hz.
  assert (0 < 2 ^ a) by (apply Z.pow_pos_nonneg; lia).
  destruct (Zdigits2_spec z ltac:(lia)) as [_ Hlt].
  destruct (Z_lt_le_dec (Zdigits2 z) (a + 1)) as [Hd|Hd]; [exfalso|done].
  assert (Hd0 : 0 ≤ Zdigits2 z) by (destruct z; simpl; lia).
  pose proof (Z.pow_le_mono_r 2 (Zdigits2 z) a ltac:(lia) ltac:(lia)). lia.
Qed.

(** Rounding an integer of at least [2^1024] gives an infinity. *)
Lemma binary_round_aux_overflow (s : bool) (Q : Z) :
  2 ^ 1024 ≤ Q →
  binary_round_aux prec emax s Q 0 loc_Exact = S754_infinity s.
Proof.
  intros HQ.
  assert (HQ0 : 0 < Q) by (pose proof (Z.pow_pos_nonneg 2 1024); lia).
  pose proof (pow2_le_digits Q 1024 ltac:(lia) HQ) as Hd.
  destruct (Zdigits2_spec Q HQ0) as [Hlo Hhi].
  set (d := Zdigits2 Q) in *.
  assert (H1 : shr_fexp prec emax Q 0 loc_Exact = shr (exact Q) 0 (d - 53)).
  { unfold shr_fexp. fold d. simpl shr_record_of_loc. fold (exact Q).
    f_equal. unfold fexp, emin, prec, emax. lia. }
  unfold binary_round_aux. rewrite H1.
  destruct (shr_m_spec Q 0 (d - 53) ltac:(lia) ltac:(lia)) as [He1 Hm1].
  destruct (shr (exact Q) 0 (d - 53)) as [mrs1 e1]. simpl in He1, Hm1.
  subst e1.
  set (m2 := round_nearest_even (shr_m mrs1) (loc_of_shr_record mrs1)).
  assert (Hm1lo : 2 ^ 52 ≤ shr_m mrs1).
  { rewrite Hm1. apply Z.div_le_lower_bound; [apply Z.pow_pos_nonneg; lia|].
    rewrite <- Z.pow_add_r by lia.
    replace (d - 53 + 52) with (d - 1) by lia. done. }
  assert (Hm2 : 2 ^ 52 ≤ m2).
  { pose proof (round_nearest_even_bounds (shr_m mrs1) (loc_of_shr_record mrs1)).
    subst m2. lia. }
  assert (Hm20 : 0 < m2) by (pose proof (Z.pow_pos_nonneg 2 52); lia).
  pose proof (pow2_le_digits m2 52 ltac:(lia) Hm2) as Hd2.
  destruct (Zdigits2_spec m2 Hm20) as [Hlo2 _].
  set (d2 := Zdigits2 m2) in *.
  assert (H2 : shr_fexp prec emax m2 (0 + (d - 53)) loc_Exact
               = shr (exact m2) (0 + (d - 53)) (d2 - 53)).
  { unfold shr_fexp. fold d2. simpl shr_record_of_loc. fold (exact m2).
    f_equal. unfold fexp, emin, prec, emax. lia. }
  rewrite H2.
  destruct (shr_m_spec m2 (0 + (d - 53)) (d2 - 53) ltac:(lia) ltac:(lia))
    as [He3 Hm3].
  destruct (shr (exact m2) (0 + (d - 53)) (d2 - 53)) as [mrs3 e3].
  simpl in He3, Hm3. subst e3.
  assert (Hm3lo : 2 ^ 52 ≤ shr_m mrs3).
  { rewrite Hm3. apply Z.div_le_lower_bound; [apply Z.pow_pos_nonneg; lia|].
    rewrite <- Z.pow_add_r by lia.
    replace (d2 - 53 + 52) with (d2 - 1) by lia. done. }
  pose proof (Z.pow_pos_nonneg 2 52 ltac:(lia) ltac:(lia)).
  destruct (shr_m mrs3) as [|m|m]; try lia.
  replace (0 + (d - 53) + (d2 - 53) <=? emax - prec) with false; [done|].
  symmetry. apply Z.leb_gt. unfold emax, prec. lia.
Qed.

Lemma int_true_divide_overflow (q b : Z) :
  b ≠ 0 → 2 ^ 1024 ≤ Z.abs q →
  int_true_divide (q * b) b = Raise OverflowError.
Proof.
  intros Hb Hq.
  pose proof (Z.pow_pos_nonneg 2 1024 ltac:(lia) ltac:(lia)) as Hp.
  unfold int_true_divide.
  rewrite (proj2 (Z.eqb_neq b 0)) by done.
  rewrite (proj2 (Z.eqb_neq (q * b) 0)) by nia.
  rewrite (int_mantissa_nonzero (q * b)), (int_mantissa_nonzero b) by nia.
  set (ma := Z.abs (q * b)). set (mb := Z.abs b). set (mq := Z.abs q) in *.
  assert (Hma : ma = mq * mb) by (subst ma mb mq; apply Z.abs_mul).
  assert (Hmb : 0 < mb) by (subst mb; lia).
  unfold SFdiv, SFdiv_core_binary.
  rewrite !Z2Pos.id by nia.
  set (d1 := Zdigits2 ma). set (d2 := Zdigits2 mb).
  assert (Hd : d2 + 1024 ≤ d1).
  { subst d1 d2. rewrite <- (Zdigits2_mul_pow2 mb 1024) by lia.
    apply Zdigits2_le; [nia|]. rewrite Hma. nia. }
  replace (d1 + 0 - (d2 + 0)) with (d1 - d2) by lia.
  assert (He' : Z.min (fexp prec emax (d1 - d2)) (0 - 0) = 0)
    by (unfold fexp, emin, prec, emax; lia).
  rewrite He'. change (0 - 0 - 0) with 0. cbv iota.
  rewrite Hma, div_eucl_exact by done.
  rewrite new_location_exact.
  by rewrite binary_round_aux_overflow.
Qed.

(** X17. When the quotient of the closed form is [2^1024] or more in
    absolute value, [comp_slash_power_verts] raises [OverflowError] at
    the division: no float holds the quotient. *)
Theorem comp_slash_power_verts_overflow (V E n : Z) :
  E ≠ 1 → 0 ≤ n →
  2 ^ 1024 ≤ Z.abs ((V - 2) * ((E ^ n - 1) / (E - 1))) →
  comp_slash_power_verts V E n = Raise OverflowError.
Proof.
  intros HE Hn HQ.
  set (Q := (V - 2) * ((E ^ n - 1) / (E - 1))) in *.
  assert (Hnum : (V - 2) * (E ^ n - 1) = Q * (E - 1)).
  { subst Q. rewrite <- (Z2Nat.id n) by done.
    rewrite geom_div by done. rewrite <- geom_closed. lia. }
  unfold comp_slash_power_verts, int_pow.
  rewrite (proj2 (Z.ltb_ge n 0)) by lia. simpl.
  rewrite Hnum.
  by rewrite (int_true_divide_overflow Q (E - 1)) by (done || lia).
Qed.

Lemma comp_slash_power_verts_overflow_witness :
  4 ≠ 1 ∧ 0 ≤ 600
  ∧ 2 ^ 1024 ≤ Z.abs ((4 - 2) * ((4 ^ 600 - 1) / (4 - 1)))
  ∧ comp_slash_power_verts 4 4 600 = Raise OverflowError.
Proof.
  assert (Hbig : 2 ^ 1024 ≤ Z.abs ((4 - 2) * ((4 ^ 600 - 1) / (4 - 1)))).
  { apply Z.leb_le. vm_compute. reflexivity. }
  split_and!; [lia | lia | exact Hbig |].
  apply (comp_slash_power_verts_overflow 4 4 600); [lia | lia | exact Hbig].
Defined.

(** ** Node positions *)

Lemma pos_get_elem k p (d : posdict) : (k, p) ∈ d → is_Some (pos_get k d).
Proof.
  induction d as [|[k' p'] d IH]; [by intros ?%elem_of_nil|].
  intros Hin. simpl. case_bool_decide; [done|].
  apply elem_of_cons in Hin as [[= -> ->]|Hin]; [done | auto].
Qed.

Lemma pos_get_Some k p (d : posdict) : pos_get k d = Some p → (k, p) ∈ d.
Proof.
  induction d as [|[k' p'] d IH]; [done|]. simpl.
  case_bool_decide as Hk.
  - intros [= ->]. subst. left.
  - intros H. right. auto.
Qed.

Lemma pos_set_listed k p (d : posdict) :
  NoDup d.*1 → pos_get k d = Some p →
  pos_set k (py_list p) d = listed_at [k] d.
Proof.
  unfold listed_at.
  induction d as [|[k' p'] d IH]; [done|]. simpl.
  intros [Hnotin Hnd]%NoDup_cons.
  case_bool_decide as Hk.
  - intros [= ->]. subst k'.
    rewrite decide_True by (simpl; left). simpl. f_equal.
    symmetry. etrans; [|apply list_fmap_id].
    apply list_fmap_ext. intros i [k2 p2] Hi. simpl.
    rewrite decide_False; [done|].
    rewrite list_elem_of_singleton. simpl. intros ->.
    apply Hnotin. apply list_elem_of_fmap. exists (k, p2).
    split; [done|]. by eapply list_elem_of_lookup_2.
  - intros Hget. rewrite decide_False
      by (rewrite list_elem_of_singleton; simpl; congruence).
    f_equal. by apply IH.
Qed.

Lemma listed_at_keys ks (d : posdict) : (listed_at ks d).*1 = d.*1.
Proof.
  unfold listed_at. rewrite <- list_fmap_compose.
  apply list_fmap_ext. intros i [k p] _. simpl. by case_decide.
Qed.

Lemma py_list_idemp p : py_list (py_list p) = py_list p.
Proof. by destruct p. Qed.

Lemma listed_at_cons k ks (d : posdict) :
  k ∉ ks → listed_at ks (listed_at [k] d) = listed_at (k :: ks) d.
Proof.
  intros Hk. unfold listed_at. rewrite <- list_fmap_compose.
  apply list_fmap_ext. intros i [k' p] _. simpl.
  destruct (decide (k' = k)) as [->|Hne].
  - rewrite (decide_True (P := k ∈ [k])) by left. simpl.
    rewrite decide_False by done. by rewrite decide_True by left.
  - rewrite (decide_False (P := k' ∈ [k]))
      by (rewrite list_elem_of_singleton; done). simpl.
    destruct (decide (k' ∈ ks)) as [Hin|Hnin].
    + by rewrite decide_True by (by right).
    + rewrite decide_False; [done|].
      rewrite elem_of_cons. tauto.
Qed.

Lemma alter_as_insert {A} (f : A → A) (r : nat) (l : list A) (x : A) :
  l !! r = Some x → alter f r l = <[r := f x]> l.
Proof.
  intros Hr. apply list_eq. intros i.
  destruct (decide (i = r)) as [->|Hne].
  - rewrite list_lookup_alter_eq, Hr. simpl.
    rewrite list_lookup_insert_eq; [done|]. by eapply lookup_lt_Some.
  - by rewrite list_lookup_alter_ne, list_lookup_insert_ne.
Qed.

Lemma store_list_loop r (h : heap) (d : posdict) ks :
  h !! r = Some d → NoDup d.*1 → NoDup ks → ks ⊆ d.*1 →
  foldl (store_list r) h ks = <[r := listed_at ks d]> h.
Proof.
  revert h d. induction ks as [|k ks IH]; intros h d Hr Hnd Hks Hsub.
  - simpl. unfold listed_at. symmetry.
    rewrite (list_fmap_ext _ id d), list_fmap_id; [by apply list_insert_id|].
    intros i kp _. done.
  - apply NoDup_cons in Hks as [Hk Hks].
    assert (Hkin : k ∈ d.*1) by (apply Hsub; left).
    apply list_elem_of_fmap in Hkin as ([k' p0] & -> & Hin). simpl in *.
    destruct (pos_get_elem k' p0 d Hin) as [p Hp].
    unfold store_list at 2. rewrite Hr. simpl. rewrite Hp.
    rewrite (alter_as_insert _ _ _ d Hr), (pos_set_listed k' p d Hnd Hp).
    rewrite (IH _ (listed_at [k'] d)).
    + by rewrite listed_at_cons, list_insert_insert_eq.
    + apply list_lookup_insert_eq. by eapply lookup_lt_Some.
    + by rewrite listed_at_keys.
    + done.
    + rewrite listed_at_keys. intros x Hx. apply Hsub. by right.
Qed.

Lemma listed_at_all (d : posdict) : listed_at d.*1 d = positions_listed d.
Proof.
  unfold listed_at, positions_listed.
  apply list_fmap_ext. intros i [k p] Hi. simpl.
  rewrite decide_True; [done|].
  apply list_elem_of_fmap. exists (k, p). split; [done|].
  by eapply list_elem_of_lookup_2.
Qed.

(** X18. [copy_pastable_node_positions] works in place: it returns the
    reference it received, and the dictionary behind it has the same
    keys in the same order, every position turned into the list of its
    coordinates; no other object of the heap is touched. *)
Theorem copy_pastable_in_place (h : heap) (r : nat) (d : posdict) :
  h !! r = Some d → NoDup d.*1 →
  copy_pastable_node_positions r h = (<[r := positions_listed d]> h, r).
Proof.
  intros Hr Hnd. unfold copy_pastable_node_positions, pos_keys.
  rewrite Hr. simpl. f_equal. rewrite (store_list_loop r h d d.*1); [|done..].
  by rewrite listed_at_all.
Qed.

Lemma copy_pastable_in_place_witness :
  two_positions !! 0%nat = Some two_positions_dict
  ∧ NoDup two_positions_dict.*1
  ∧ copy_pastable_node_positions 0 two_positions
    = (<[0%nat := positions_listed two_positions_dict]>
         two_positions, 0%nat).
Proof.
  assert (Hnd : NoDup two_positions_dict.*1).
  { simpl. apply NoDup_cons. split; [|apply NoDup_singleton].
    rewrite list_elem_of_singleton. lia. }
  split_and!; [reflexivity | exact Hnd |].
  apply (copy_pastable_in_place two_positions 0 _ eq_refl Hnd).
Defined.

(** X19. A second call of [copy_pastable_node_positions] on the same
    dictionary changes nothing more. *)
Theorem copy_pastable_twice (h : heap) (r : nat) (d : posdict) :
  h !! r = Some d → NoDup d.*1 →
  copy_pastable_node_positions r (copy_pastable_node_positions r h).1
  = copy_pastable_node_positions r h.
Proof.
  intros Hr Hnd. rewrite (copy_pastable_in_place h r d Hr Hnd). simpl.
  assert (Hlt : (r < length h)%nat) by (by eapply lookup_lt_Some).
  rewrite (copy_pastable_in_place _ r (positions_listed d)).
  - rewrite list_insert_insert_eq. do 2 f_equal.
    unfold positions_listed. rewrite <- list_fmap_compose.
    apply list_fmap_ext. intros i [k p] _. simpl. by rewrite py_list_idemp.
  - by apply list_lookup_insert_eq.
  - unfold positions_listed. rewrite <- list_fmap_compose.
    by rewrite (list_fmap_ext _ fst d) by done.
Qed.

Lemma copy_pastable_twice_witness :
  two_positions !! 0%nat = Some two_positions_dict
  ∧ NoDup two_positions_dict.*1
  ∧ copy_pastable_node_positions 0
      (copy_pastable_node_positions 0 two_positions).1
    = copy_pastable_node_positions 0 two_positions.
Proof.
  assert (Hnd : NoDup two_positions_dict.*1).
  { simpl. apply NoDup_cons. split; [|apply NoDup_singleton].
    rewrite list_elem_of_singleton. lia. }
  split_and!; [reflexivity | exact Hnd |].
  apply (copy_pastable_twice two_positions 0 _ eq_refl Hnd).
Defined.
